(** * Overlay resolution of InSpec evaluations (inspecjs [context.ts])

    A shallow embedding of [contextualizeEvaluation], [contextualizeProfile]
    and of the three derived views of a contextualized control ([root],
    [is_redundant], [full_code]), followed by the properties of the overlay
    graph they build.

    Wrapper objects have identity and are mutated in place, so they live in
    a heap: a profile wrapper is referred to by its position in the list of
    profile wrappers, a control wrapper by its position in the list of
    control wrappers, and the link lists hold such references.

    The file also embeds the verdicts, messages and rule identifiers of the
    HDF-to-XCCDF mapper and the grouping by host of the Prisma mapper, with
    the properties of each. *)

From Stdlib Require Import Ascii String.
From stdpp Require Import base option list numbers strings finite sorting.

(** ** JavaScript strings and values *)

(** A JavaScript string is a sequence of UTF-16 code units. *)
Abbreviation jsstring := (list N).

(** The code units of an ASCII literal. *)
Definition js (s : string) : jsstring :=
  N_of_ascii <$> list_ascii_of_string s.
Arguments js s%_string.

(** A value of type [string | null | undefined]. *)
Inductive JsOptString :=
  | Undefined
  | Null
  | Str (s : jsstring).

#[global] Instance JsOptString_eq_dec : EqDecision JsOptString.
Proof. solve_decision. Defined.

(** [!v] *)
Definition falsy (v : JsOptString) : bool :=
  match v with
  | Undefined | Null => true
  | Str s => bool_decide (s = [])
  end.

(** [`${v}`] *)
Definition template (v : JsOptString) : jsstring :=
  match v with
  | Undefined => js "undefined"
  | Null => js "null"
  | Str s => s
  end.

(** WhiteSpace and LineTerminator code points of ECMAScript, the ones
    [String.prototype.trim] strips. *)
Definition white_space : list N :=
  [9; 10; 11; 12; 13; 32; 160; 5760;
   8192; 8193; 8194; 8195; 8196; 8197; 8198; 8199; 8200; 8201; 8202;
   8232; 8233; 8239; 8287; 12288; 65279]%N.

Definition is_white_space (c : N) : bool := bool_decide (c ∈ white_space).

Fixpoint trimStart (s : jsstring) : jsstring :=
  match s with
  | c :: r => if is_white_space c then trimStart r else s
  | [] => []
  end.

Definition trim (s : jsstring) : jsstring :=
  reverse (trimStart (reverse (trimStart s))).

(** ** The raw report model *)

(** Modelled from the spec: the types of [./fileparse] ([AnyEval],
    [AnyProfile], [AnyControl]) are not part of the sources; the fields are
    the ones section 6 lists and the ones [context.ts] reads.  [results] is
    absent on the controls of a profile that was not executed. *)
Record ControlResult := {
  status : jsstring;
  code_desc : jsstring
}.

Record AnyControl := {
  id : jsstring;
  code : JsOptString;
  results : option (list ControlResult)
}.

Record AnyProfile := {
  name : jsstring;
  parent_profile : JsOptString;
  controls : list AnyControl
}.

Record AnyEval := {
  profiles : list AnyProfile
}.

(** Modelled from the spec: [hdfWrapControl] of [./compat_wrappers] is not
    part of the sources.  Of the wrapper only [segments] is read, and a
    control has recorded segments exactly when its result list is
    non-empty. *)
Record HDFControl := {
  segments : option (list ControlResult)
}.

Definition hdfWrapControl (c : AnyControl) : HDFControl :=
  {| segments := results c |}.

(** ** Wrappers *)

(** The evaluation wrapper a profile is sourced from; there is one per
    heap. *)
Inductive EvalRef := TheEvaluation.

Record ContextualizedProfile := {
  p_data : AnyProfile;
  p_sourced_from : option EvalRef;
  p_extended_by : list nat;
  p_extends_from : list nat;
  p_contains : list nat
}.

Record ContextualizedControl := {
  c_data : AnyControl;
  c_sourced_from : nat;
  c_extended_by : list nat;
  c_extends_from : list nat;
  c_hdf : HDFControl
}.

Record ContextualizedEvaluation := {
  e_data : AnyEval;
  e_contains : list nat
}.

Record Heap := {
  h_profiles : list ContextualizedProfile;
  h_controls : list ContextualizedControl
}.

(** [new ContextualizedControlImp(data, sourced_from, [], [])] *)
Definition ContextualizedControlImp (data : AnyControl) (sourced_from : nat)
    (extended_by extends_from : list nat) : ContextualizedControl :=
  {| c_data := data;
     c_sourced_from := sourced_from;
     c_extended_by := extended_by;
     c_extends_from := extends_from;
     c_hdf := hdfWrapControl data |}.

(** Dereferencing.  [None] stands for reading a property of [undefined],
    which raises a [TypeError] in the source. *)
Definition ctl (h : Heap) (r : nat) : option ContextualizedControl :=
  h_controls h !! r.

Definition prof (h : Heap) (r : nat) : option ContextualizedProfile :=
  h_profiles h !! r.

(** In-place updates of one wrapper. *)
Definition push_p_extends_from (x : nat) (p : ContextualizedProfile) :=
  {| p_data := p_data p;
     p_sourced_from := p_sourced_from p;
     p_extended_by := p_extended_by p;
     p_extends_from := p_extends_from p ++ [x];
     p_contains := p_contains p |}.

Definition push_p_extended_by (x : nat) (p : ContextualizedProfile) :=
  {| p_data := p_data p;
     p_sourced_from := p_sourced_from p;
     p_extended_by := p_extended_by p ++ [x];
     p_extends_from := p_extends_from p;
     p_contains := p_contains p |}.

Definition set_p_contains (l : list nat) (p : ContextualizedProfile) :=
  {| p_data := p_data p;
     p_sourced_from := p_sourced_from p;
     p_extended_by := p_extended_by p;
     p_extends_from := p_extends_from p;
     p_contains := l |}.

Definition push_c_extends_from (x : nat) (c : ContextualizedControl) :=
  {| c_data := c_data c;
     c_sourced_from := c_sourced_from c;
     c_extended_by := c_extended_by c;
     c_extends_from := c_extends_from c ++ [x];
     c_hdf := c_hdf c |}.

Definition push_c_extended_by (x : nat) (c : ContextualizedControl) :=
  {| c_data := c_data c;
     c_sourced_from := c_sourced_from c;
     c_extended_by := c_extended_by c ++ [x];
     c_extends_from := c_extends_from c;
     c_hdf := c_hdf c |}.

(** ** Derived views of a control *)

(** [get root]: the [while] loop runs at most [fuel] times; [None] when it
    needs more. *)
Fixpoint root (fuel : nat) (h : Heap) (curr : nat) : option nat :=
  cc ← ctl h curr;
  match c_extends_from cc with
  | [] => Some curr
  | next :: _ =>
      match fuel with
      | O => None
      | S fuel' => root fuel' h next
      end
  end.

(** [get is_redundant].  The disjunction is evaluated left to right, so
    [root] is only computed for a control with code and an ancestor. *)
Definition is_redundant (fuel : nat) (h : Heap) (this : nat) : option bool :=
  cc ← ctl h this;
  if falsy (code (c_data cc)) then Some true
  else if bool_decide (trim (template (code (c_data cc))) = []) then Some true
  else
    match c_extends_from cc with
    | [] => Some false
    | _ :: _ =>
        r ← root fuel h this;
        rc ← ctl h r;
        Some (bool_decide (code (c_data cc) = code (c_data rc)))
    end.

Definition rule : jsstring :=
  js "=========================================================".

(** The text of the template literal up to the control's own code. *)
Definition banner (profile_name : jsstring) (own_code : JsOptString)
    : jsstring :=
  rule ++ [10%N] ++ js "# Profile name: " ++ profile_name ++ [10%N]
  ++ rule ++ [10%N; 10%N] ++ template own_code.

(** [get full_code]: [fuel] bounds the depth of the recursion through
    [extends_from[0]]. *)
Fixpoint full_code (fuel : nat) (h : Heap) (this : nat) : option jsstring :=
  cc ← ctl h this;
  match c_extends_from cc with
  | ancestor :: _ =>
      red ← is_redundant fuel h this;
      if red : bool then
        match fuel with
        | O => None
        | S fuel' => full_code fuel' h ancestor
        end
      else
        sf ← prof h (c_sourced_from cc);
        rest ← match fuel with
               | O => None
               | S fuel' => full_code fuel' h ancestor
               end;
        Some (trim (banner (name (p_data sf)) (code (c_data cc))
                    ++ [10%N; 10%N] ++ rest))
  | [] =>
      sf ← prof h (c_sourced_from cc);
      Some (trim (banner (name (p_data sf)) (code (c_data cc))))
  end.

(** ** Loops and array methods over references *)

(** [for (const x of xs) body], where the body may raise. *)
Fixpoint for_of {S : Type} (body : S → nat → option S) (xs : list nat)
    (s : S) : option S :=
  match xs with
  | [] => Some s
  | x :: rest => s' ← body s x; for_of body rest s'
  end.

(** [refs.find(f)]: the first reference whose object satisfies [f]. *)
Fixpoint find_ref {A : Type} (deref : nat → option A) (f : A → bool)
    (refs : list nat) : option (option nat) :=
  match refs with
  | [] => Some None
  | r :: rest =>
      x ← deref r;
      if f x then Some (Some r) else find_ref deref f rest
  end.

(** [refs.filter(f)] *)
Fixpoint filter_ref {A : Type} (deref : nat → option A) (f : A → bool)
    (refs : list nat) : option (list nat) :=
  match refs with
  | [] => Some []
  | r :: rest =>
      x ← deref r;
      kept ← filter_ref deref f rest;
      Some (if f x then r :: kept else kept)
  end.

Definition upd_prof (f : ContextualizedProfile → ContextualizedProfile)
    (r : nat) (h : Heap) : Heap :=
  {| h_profiles := alter f r (h_profiles h); h_controls := h_controls h |}.

Definition upd_ctl (f : ContextualizedControl → ContextualizedControl)
    (r : nat) (h : Heap) : Heap :=
  {| h_profiles := h_profiles h; h_controls := alter f r (h_controls h) |}.

(** ** contextualizeEvaluation *)

Definition wrap_profile (profile : AnyProfile) : ContextualizedProfile :=
  {| p_data := profile;
     p_sourced_from := Some TheEvaluation;
     p_extended_by := [];
     p_extends_from := [];
     p_contains := [] |}.

(** Body of the loop that establishes parentage between profiles. *)
Definition link_profile (contains : list nat) (h : Heap) (r : nat)
    : option Heap :=
  profile ← prof h r;
  match parent_profile (p_data profile) with
  | Undefined => Some h
  | as_exec_parent =>
      found ← find_ref (prof h)
                 (λ p, bool_decide (Str (name (p_data p)) = as_exec_parent))
                 contains;
      match found with
      | Some parent =>
          Some (upd_prof (push_p_extended_by parent) r
                  (upd_prof (push_p_extends_from r) parent h))
      | None => Some h
      end
  end.

(** Body of the loop that wraps the controls of each profile. *)
Definition wrap_controls (st : Heap * list nat) (r : nat)
    : option (Heap * list nat) :=
  let '(h, all_controls) := st in
  profile ← prof h r;
  let p_controls := controls (p_data profile) in
  let fresh := (λ c, ContextualizedControlImp c r [] []) <$> p_controls in
  let refs := seq (length (h_controls h)) (length fresh) in
  Some ({| h_profiles := alter (set_p_contains refs) r (h_profiles h);
           h_controls := h_controls h ++ fresh |},
        all_controls ++ refs).

Definition same_id_as (cc c : ContextualizedControl) : bool :=
  bool_decide (id (c_data c) = id (c_data cc)).

(** [c.hdf.segments && c.hdf.segments.length] *)
Definition populated (c : ContextualizedControl) : bool :=
  match segments (c_hdf c) with
  | Some (_ :: _) => true
  | _ => false
  end.

(** The inner loop of case A: the first control with the id of [cc] in the
    first extended profile that has one. *)
Fixpoint hunt_ancestor (h : Heap) (cc : ContextualizedControl)
    (extends_from : list nat) : option (option nat) :=
  match extends_from with
  | [] => Some None
  | ep :: rest =>
      extended_profile ← prof h ep;
      ancestor ← find_ref (ctl h) (same_id_as cc) (p_contains extended_profile);
      match ancestor with
      | Some a => Some (Some a)
      | None => hunt_ancestor h cc rest
      end
  end.

(** [ancestor.extended_by.push(cc); cc.extends_from.push(ancestor)] *)
Definition bind_controls (ancestor cc : nat) (h : Heap) : Heap :=
  upd_ctl (push_c_extends_from ancestor) cc
    (upd_ctl (push_c_extended_by cc) ancestor h).

Definition nonempty {A : Type} (l : list A) : bool :=
  match l with [] => false | _ :: _ => true end.

(** Body of the loop that links each contextualized control. *)
Definition link_control (all_controls : list nat) (h : Heap) (r : nat)
    : option Heap :=
  cc ← ctl h r;
  sf ← prof h (c_sourced_from cc);
  if nonempty (p_extends_from sf) || nonempty (p_extended_by sf) then
    if negb (nonempty (p_extends_from sf)) then Some h
    else
      ancestor ← hunt_ancestor h cc (p_extends_from sf);
      match ancestor with
      | Some a => Some (bind_controls a r h)
      | None => Some h
      end
  else
    same_id ← filter_ref (ctl h) (same_id_as cc) all_controls;
    found ← find_ref (ctl h) populated same_id;
    same_id_populated ← match found with
                        | Some c => Some c
                        | None => head same_id
                        end;
    if bool_decide (r = same_id_populated) then Some h
    else Some (bind_controls same_id_populated r h).

Definition contextualizeEvaluation (evaluation : AnyEval)
    : option (ContextualizedEvaluation * Heap) :=
  let wrapped := wrap_profile <$> profiles evaluation in
  let contains := seq 0 (length wrapped) in
  h1 ← for_of (link_profile contains) contains
         {| h_profiles := wrapped; h_controls := [] |};
  '(h2, all_controls) ← for_of wrap_controls contains (h1, []);
  h3 ← for_of (link_control all_controls) all_controls h2;
  Some ({| e_data := evaluation; e_contains := contains |}, h3).

(** ** contextualizeProfile *)

Definition push_p_contains (x : nat) (p : ContextualizedProfile) :=
  {| p_data := p_data p;
     p_sourced_from := p_sourced_from p;
     p_extended_by := p_extended_by p;
     p_extends_from := p_extends_from p;
     p_contains := p_contains p ++ [x] |}.

(** One turn of the loop over [profile.controls]; the profile wrapper is
    reference [0] of the heap. *)
Definition give_control (h : Heap) (c : AnyControl) : Heap :=
  {| h_profiles := alter (push_p_contains (length (h_controls h))) 0
                     (h_profiles h);
     h_controls := h_controls h ++ [ContextualizedControlImp c 0 [] []] |}.

Definition contextualizeProfile (profile : AnyProfile) : nat * Heap :=
  let profile_context :=
    {| p_data := profile;
       p_extended_by := [];
       p_extends_from := [];
       p_contains := [];
       p_sourced_from := None |} in
  (0, foldl give_control
        {| h_profiles := [profile_context]; h_controls := [] |}
        (controls profile)).

(** ** Scenarios *)

Definition control (i c : string) (r : list ControlResult) : AnyControl :=
  {| id := js i; code := Str (js c); results := Some r |}.

Definition one_segment : ControlResult :=
  {| status := js "passed"; code_desc := js "is expected to eq 0" |}.

Definition scenario1 : AnyEval :=
  {| profiles :=
       [ {| name := js "A"; parent_profile := Undefined;
            controls := [control "c1" "show cmd" []] |};
         {| name := js "B"; parent_profile := Str (js "A");
            controls := [control "c1" "" []] |} ] |}.

Definition scenario2 : AnyEval :=
  {| profiles :=
       [ {| name := js "P1"; parent_profile := Undefined;
            controls := [control "x" "a" []] |};
         {| name := js "P2"; parent_profile := Undefined;
            controls := [control "x" "b" [one_segment]] |} ] |}.

Definition self_parent : AnyEval :=
  {| profiles :=
       [ {| name := js "A"; parent_profile := Str (js "A");
            controls := [control "c1" "" []] |} ] |}.

(** A profile without declared parent and with one control. *)
Definition peer (n x : jsstring) (c : JsOptString) (r : list ControlResult)
    : AnyProfile :=
  {| name := n; parent_profile := Undefined;
     controls := [ {| id := x; code := c; results := Some r |} ] |}.

Definition twice_the_same_id : AnyProfile :=
  {| name := js "Q"; parent_profile := Undefined;
     controls := [control "q1" "describe a" []; control "q1" "describe b" []] |}.

(** A profile whose declared parent is missing from the evaluation, and a
    wrapper profile whose control has no counterpart in the profile it
    wraps. *)
Definition unmatched : AnyEval :=
  {| profiles :=
       [ {| name := js "orphan"; parent_profile := Str (js "missing");
            controls := [control "o1" "describe o" []] |};
         {| name := js "wrapper"; parent_profile := Undefined;
            controls := [control "w1" "describe w" []] |};
         {| name := js "base"; parent_profile := Str (js "wrapper");
            controls := [control "b1" "describe b" []] |} ] |}.

(** A wrapper profile that two profiles name as their parent; all three
    hold a control with the same id. *)
Definition two_bases : AnyEval :=
  {| profiles :=
       [ {| name := js "W"; parent_profile := Undefined;
            controls := [control "x" "" []] |};
         {| name := js "A"; parent_profile := Str (js "W");
            controls := [control "x" "describe a" []] |};
         {| name := js "B"; parent_profile := Str (js "W");
            controls := [control "x" "describe b" []] |} ] |}.

(** Two profiles of one name, and a third that names them as its parent. *)
Definition same_name_twice : AnyEval :=
  {| profiles :=
       [ {| name := js "P"; parent_profile := Undefined;
            controls := [control "x" "describe first" []] |};
         {| name := js "P"; parent_profile := Undefined;
            controls := [control "x" "describe second" []] |};
         {| name := js "Q"; parent_profile := Str (js "P");
            controls := [control "x" "describe base" []] |} ] |}.

(** ** The XCCDF mapper *)

(** [ExecJSON.Control] and [ExecJSON.ControlResult] are declared by the
    package [inspecjs], not by these sources: the records hold the fields
    the mapper reads, typed as it uses them.  A [backtrace] is an array or
    absent, and an array is truthy even when empty. *)
Record ExecControlResult := {
  xr_backtrace : option (list jsstring);
  xr_status : JsOptString;
  xr_skip_message : JsOptString;
  xr_code_desc : jsstring;
  xr_message : JsOptString;
  xr_exception : JsOptString
}.

Record ExecControl := {
  xc_id : jsstring;
  xc_code : JsOptString;
  xc_results : list ExecControlResult
}.

(** [result.backtrace], as a condition *)
Definition has_backtrace (result : ExecControlResult) : bool :=
  match xr_backtrace result with Some _ => true | None => false end.

(** [result.status === s] *)
Definition status_is (s : string) (result : ExecControlResult) : bool :=
  bool_decide (xr_status result = Str (js s)).

Definition getXCCDFResult (control : ExecControl) : jsstring :=
  if existsb has_backtrace (xc_results control) then js "error"
  else if existsb (λ result, falsy (xr_status result)) (xc_results control)
  then js "unknown"
  else if forallb (status_is "passed") (xc_results control) then js "pass"
  else if forallb (status_is "skipped") (xc_results control)
  then js "notchecked"
  else if existsb (status_is "failed") (xc_results control) then js "fail"
  else js "unknown".

Definition getXCCDFResultMessageSeverity (segments : list ExecControlResult)
    : jsstring :=
  if existsb has_backtrace segments then js "medium" else js "info".

Definition toMessageLine (segment : ExecControlResult) : jsstring :=
  if status_is "skipped" segment then
    js "SKIPPED -- " ++ template (xr_skip_message segment) ++ [10%N]
  else if status_is "failed" segment then
    js "FAILED -- Test: " ++ xr_code_desc segment ++ [10%N]
    ++ js "Message: " ++ template (xr_message segment) ++ [10%N]
  else if status_is "passed" segment then
    js "PASSED -- " ++ xr_code_desc segment ++ [34%N]
  else if status_is "error" segment then
    js "ERROR -- Test: " ++ xr_code_desc segment ++ [10%N]
    ++ js "Message: " ++ template (xr_message segment)
  else js "Exception: " ++ template (xr_exception segment).

(** [strings.join(separator)] *)
Fixpoint join (separator : jsstring) (strings : list jsstring) : jsstring :=
  match strings with
  | [] => []
  | [s] => s
  | s :: rest => s ++ separator ++ join separator rest
  end.

Definition getMessages (segments : list ExecControlResult) : jsstring :=
  join [10; 10]%N (toMessageLine <$> segments).

(** [\w] and the two replacements of the mapper. *)
Definition is_word (c : N) : bool :=
  ((48 <=? c) && (c <=? 57) || (65 <=? c) && (c <=? 90)
   || (c =? 95) || (97 <=? c) && (c <=? 122))%N.

(** [s.replace(/[^\w]/g, '_')] *)
Definition replace_non_word (s : jsstring) : jsstring :=
  (λ c, if is_word c then c else 95%N) <$> s.

(** [s.replace(/\s/g, '_')] *)
Definition replace_space (s : jsstring) : jsstring :=
  (λ c, if is_white_space c then 95%N else c) <$> s.

Definition rule_prefix : jsstring :=
  js "xccdf_mitre.hdf-converters.xccdf_rule_".

(** The identifier of the rule of a control, as [getControlInfo],
    [getControlResultsInfo] and [toXCCDF] compute it. *)
Definition rule_id (control : ExecControl) : jsstring :=
  rule_prefix ++ replace_space (replace_non_word (xc_id control)).

(** The same in the earlier mapper, which replaces whitespace only. *)
Definition rule_id_whitespace_only (control : ExecControl) : jsstring :=
  rule_prefix ++ replace_space (xc_id control).

Record ControlResultsInfo := {
  idref : jsstring;
  result : jsstring;
  message : jsstring;
  messageType : jsstring;
  info_code : jsstring
}.

(** [control.code || ''] *)
Definition or_empty (v : JsOptString) : jsstring :=
  if falsy v then [] else template v.

Definition getControlResultsInfo (control : ExecControl)
    : ControlResultsInfo :=
  {| idref := rule_id control;
     result := getXCCDFResult control;
     message := getMessages (xc_results control);
     messageType := getXCCDFResultMessageSeverity (xc_results control);
     info_code := or_empty (xc_code control) |}.

(** Results and controls to run the mapper on. *)
Definition segment (status : string) : ExecControlResult :=
  {| xr_backtrace := None; xr_status := Str (js status);
     xr_skip_message := Undefined; xr_code_desc := js "is expected to eq 0";
     xr_message := Undefined; xr_exception := Undefined |}.

Definition crashed : ExecControlResult :=
  {| xr_backtrace := Some []; xr_status := Str (js "failed");
     xr_skip_message := Undefined; xr_code_desc := js "is expected to eq 0";
     xr_message := Str (js "boom"); xr_exception := Str (js "RuntimeError") |}.

Definition exec_control (i : string) (rs : list ExecControlResult)
    : ExecControl :=
  {| xc_id := js i; xc_code := Str (js "describe it"); xc_results := rs |}.

(** ** The Prisma mapper *)

(** A record of the Prisma CSV report; the two optional columns are
    [undefined] when absent. *)
Record PrismaControl := {
  pc_Packages : jsstring;
  pc_Description : jsstring;
  pc_Distro : jsstring;
  pc_Type : jsstring;
  pc_Hostname : jsstring;
  pc_Compliance_ID : jsstring;
  pc_Fix_Status : option jsstring;
  pc_CVE_ID : jsstring;
  pc_Severity : jsstring;
  pc_Cause : option jsstring
}.

(** [v !== ''] and [`${v}`] for an optional column. *)
Definition is_not_empty (v : option jsstring) : bool :=
  match v with
  | Some [] => false
  | _ => true
  end.

Definition shown (v : option jsstring) : jsstring :=
  match v with
  | Some s => s
  | None => js "undefined"
  end.

(** The transformer of [message] in the results of a control. *)
Definition message_of (obj : PrismaControl) : jsstring :=
  if is_not_empty (pc_Fix_Status obj) && is_not_empty (pc_Cause obj) then
    js "Fix Status: " ++ shown (pc_Fix_Status obj) ++ [10; 10]%N
    ++ shown (pc_Cause obj)
  else if is_not_empty (pc_Fix_Status obj) then
    js "Fix Status: " ++ shown (pc_Fix_Status obj)
  else if is_not_empty (pc_Cause obj) then
    js "Cause: " ++ shown (pc_Cause obj)
  else js "Unknown".

(** The names of the properties an object literal inherits from
    [Object.prototype]; each holds a function or, for [__proto__], the
    prototype itself: a truthy value without a [push] method. *)
Definition object_prototype_keys : list jsstring :=
  [ js "constructor"; js "hasOwnProperty"; js "isPrototypeOf";
    js "propertyIsEnumerable"; js "toLocaleString"; js "toString";
    js "valueOf"; js "__proto__"; js "__defineGetter__";
    js "__defineSetter__"; js "__lookupGetter__"; js "__lookupSetter__" ].

(** The own properties of [hostnameToControls], in the order of their
    creation. *)
Abbreviation HostTable := (list (jsstring * list PrismaControl)).

(** [hostnameToControls[k].push(record)] for an own property [k] *)
Definition push_to (k : jsstring) (record : PrismaControl) (tbl : HostTable)
    : HostTable :=
  (λ e, if bool_decide (e.1 = k) then (e.1, e.2 ++ [record]) else e) <$> tbl.

(** One turn of the first [forEach] of [PrismaMapper.toHdf].  For a name
    the table only inherits, [||] keeps the inherited value and the call of
    [push] raises. *)
Definition record_host (tbl : HostTable) (record : PrismaControl)
    : option HostTable :=
  let k := pc_Hostname record in
  if bool_decide (k ∈ tbl.*1) then Some (push_to k record tbl)
  else if bool_decide (k ∈ object_prototype_keys) then None
  else Some (tbl ++ [(k, [record])]).

(** [xs.forEach(body)], where the body may raise. *)
Fixpoint forEach {S A : Type} (body : S → A → option S) (xs : list A)
    (s : S) : option S :=
  match xs with
  | [] => Some s
  | x :: rest => s' ← body s x; forEach body rest s'
  end.

Definition hostnameToControls (data : list PrismaControl) : option HostTable :=
  forEach record_host data [].

(** A property name that is an array index: the canonical decimal numeral
    of a number below [2^32 - 1]. *)
Definition digit_value (c : N) : option N :=
  if ((48 <=? c) && (c <=? 57))%N then Some (c - 48)%N else None.

Fixpoint decimal (acc : N) (s : jsstring) : option N :=
  match s with
  | [] => Some acc
  | c :: rest => d ← digit_value c; decimal (acc * 10 + d) rest
  end.

Definition array_index (k : jsstring) : option N :=
  match k with
  | [] => None
  | c :: rest =>
      if bool_decide (c = 48%N) && nonempty rest then None
      else v ← decimal 0 k; if (v <? 4294967295)%N then Some v else None
  end.

Fixpoint insert_by_index {X : Type} (e : N * X) (sorted : list (N * X))
    : list (N * X) :=
  match sorted with
  | [] => [e]
  | e' :: rest =>
      if (e.1 <=? e'.1)%N then e :: sorted
      else e' :: insert_by_index e rest
  end.

Definition sort_by_index {X : Type} (l : list (N * X)) : list (N * X) :=
  foldr insert_by_index [] l.

(** [Object.entries(tbl)]: the array indices in ascending order, then the
    other names in the order of their creation. *)
Definition entries (tbl : HostTable) : HostTable :=
  (snd <$> sort_by_index (omap (λ e, v ← array_index e.1; Some (v, e)) tbl))
  ++ filter (λ e, array_index e.1 = None) tbl.

(** [PrismaMapper.toHdf].  [BaseConverter] and [_.set] are not part of the
    sources: [convert] stands for [new PrismaControlMapper(controls).toHdf()],
    which may raise, and [set_target_id] for
    [_.set(converted, 'platform.target_id', hostname)]. *)
Definition toHdf {Execution : Type}
    (convert : list PrismaControl → option Execution)
    (set_target_id : jsstring → Execution → Execution)
    (data : list PrismaControl) : option (list Execution) :=
  tbl ← hostnameToControls data;
  mapM (λ e, converted ← convert e.2; Some (set_target_id e.1 converted))
    (entries tbl).

(** The distinct elements of a list, in the order of their first
    occurrence. *)
Fixpoint first_occurrences (l : list jsstring) : list jsstring :=
  match l with
  | [] => []
  | x :: rest => x :: filter (λ y, y ≠ x) (first_occurrences rest)
  end.

(** Two array indices, the first not above the second. *)
Definition numbered_before (a b : jsstring) : Prop :=
  ∃ va vb, array_index a = Some va ∧ array_index b = Some vb ∧ (va ≤ vb)%N.

(** The execution of the host [k]: the conversion of its records, in the
    order of the report, with [k] as target. *)
Definition execution_of {Execution : Type}
    (convert : list PrismaControl → option Execution)
    (set_target_id : jsstring → Execution → Execution)
    (data : list PrismaControl) (k : jsstring) : option Execution :=
  converted ← convert (filter (λ r, pc_Hostname r = k) data);
  Some (set_target_id k converted).

Definition host (n : string) (description : string) : PrismaControl :=
  {| pc_Packages := js "openssl"; pc_Description := js description;
     pc_Distro := js "debian"; pc_Type := js "image"; pc_Hostname := js n;
     pc_Compliance_ID := js "46"; pc_Fix_Status := Some (js "fixed in 1.1");
     pc_CVE_ID := js "CVE-2022-0001"; pc_Severity := js "high";
     pc_Cause := None |}.

(** ** Vocabulary of the specification *)

(** What one turn of a linking loop decides: [Some (Some t)] to link the
    visited node to [t], [Some None] to leave it alone, [None] when the turn
    raises.  The turn itself is the decision followed by the two pushes. *)
Definition parent_target (contains : list nat) (h : Heap) (r : nat)
    : option (option nat) :=
  profile ← prof h r;
  match parent_profile (p_data profile) with
  | Undefined => Some None
  | as_exec_parent =>
      find_ref (prof h)
        (λ p, bool_decide (Str (name (p_data p)) = as_exec_parent)) contains
  end.

Definition bind_profiles (parent profile : nat) (h : Heap) : Heap :=
  upd_prof (push_p_extended_by parent) profile
    (upd_prof (push_p_extends_from profile) parent h).

Definition link_target (all_controls : list nat) (h : Heap) (r : nat)
    : option (option nat) :=
  cc ← ctl h r;
  sf ← prof h (c_sourced_from cc);
  if nonempty (p_extends_from sf) || nonempty (p_extended_by sf) then
    if negb (nonempty (p_extends_from sf)) then Some None
    else hunt_ancestor h cc (p_extends_from sf)
  else
    same_id ← filter_ref (ctl h) (same_id_as cc) all_controls;
    found ← find_ref (ctl h) populated same_id;
    same_id_populated ← match found with
                        | Some c => Some c
                        | None => head same_id
                        end;
    Some (if bool_decide (r = same_id_populated) then None
          else Some same_id_populated).

(** A loop body that takes a decision and acts on it, and the action the
    decision taken in state [s0] commands. *)
Definition turn {St : Type} (decision : St → nat → option (option nat))
    (act : nat → nat → St → St) (s : St) (r : nat) : option St :=
  t ← decision s r;
  Some (match t with Some t => act t r s | None => s end).

Definition act_on {St : Type} (decision : St → nat → option (option nat))
    (act : nat → nat → St → St) (s0 s : St) (r : nat) : St :=
  match decision s0 r with
  | Some (Some t) => act t r s
  | _ => s
  end.

(** Linking a list of nodes: [connect t r] pushes [r] on the incoming list
    of [t], then [t] on the outgoing list of [r]. *)
Definition connect {T : Type} (push_out push_in : nat → T → T)
    (t r : nat) (l : list T) : list T :=
  alter (push_out t) r (alter (push_in r) t l).

Definition connect_opt {T : Type} (push_out push_in : nat → T → T)
    (t : option nat) (r : nat) (l : list T) : list T :=
  match t with
  | Some t => connect push_out push_in t r l
  | None => l
  end.

Definition grow {T : Type} (push_out push_in : nat → T → T)
    (outs ins : list nat) (x : T) : T :=
  foldl (λ y b, push_in b y) (foldl (λ y a, push_out a y) x outs) ins.

(** Two control wrappers that differ in their link lists only. *)
Definition same_static (c c' : ContextualizedControl) : Prop :=
  c_data c = c_data c' ∧ c_sourced_from c = c_sourced_from c'
  ∧ c_hdf c = c_hdf c'.

Definition sim (h h' : Heap) : Prop :=
  h_profiles h = h_profiles h'
  ∧ ∀ r, option_Forall2 same_static (ctl h r) (ctl h' r).

Definition same_data (p p' : ContextualizedProfile) : Prop :=
  p_data p = p_data p'.

Definition psim (h h' : Heap) : Prop :=
  ∀ r, option_Forall2 same_data (prof h r) (prof h' r).

(** The decision of a turn as a plain target. *)
Definition parent_of (contains : list nat) (h : Heap) (r : nat) : option nat :=
  default None (parent_target contains h r).

Definition ancestor_of (all_controls : list nat) (h : Heap) (r : nat)
    : option nat :=
  default None (link_target all_controls h r).

(** The profile wrappers of [h] are those of the evaluation [e], linked by
    declared parentage: the profile that declares a parent is pushed on the
    [extends_from] of the profile it names, and receives it in its
    [extended_by]. *)
Definition profiles_linked (e : AnyEval) (h : Heap) : Prop :=
  let contains := seq 0 (length (profiles e)) in
  length (h_profiles h) = length (profiles e)
  ∧ ∀ k cp, prof h k = Some cp →
      profiles e !! k = Some (p_data cp)
      ∧ p_sourced_from cp = Some TheEvaluation
      ∧ p_extended_by cp = option_list (parent_of contains h k)
      ∧ p_extends_from cp
        = filter (λ r, parent_of contains h r = Some k) contains.

(** Two profile wrappers that differ in the controls they contain only. *)
Definition same_profile_links (p p' : ContextualizedProfile) : Prop :=
  p_data p = p_data p' ∧ p_sourced_from p = p_sourced_from p'
  ∧ p_extended_by p = p_extended_by p'
  ∧ p_extends_from p = p_extends_from p'.

Definition plinks_eq (h h' : Heap) : Prop :=
  length (h_profiles h) = length (h_profiles h')
  ∧ ∀ k, option_Forall2 same_profile_links (prof h k) (prof h' k).

(** Every control wrapper is built by [ContextualizedControlImp] from a
    profile of the heap, and the controls a profile contains are sourced
    from it. *)
Definition controls_wrapped (h : Heap) : Prop :=
  (∀ r c, ctl h r = Some c →
     c_hdf c = hdfWrapControl (c_data c)
     ∧ is_Some (prof h (c_sourced_from c)))
  ∧ (∀ k cp, prof h k = Some cp →
       ∀ r, r ∈ p_contains cp →
         ∃ c, ctl h r = Some c ∧ c_sourced_from c = k).

Definition unlinked (h : Heap) : Prop :=
  ∀ r c, ctl h r = Some c → c_extends_from c = [] ∧ c_extended_by c = [].

(** The references held by the profiles resolve. *)
Definition profile_refs_ok (h : Heap) : Prop :=
  ∀ k cp, prof h k = Some cp →
    ∀ ep, ep ∈ p_extends_from cp → is_Some (prof h ep).

(** Each control carries the links its own turn and the turns of the other
    controls decided: at most one ancestor, and as descendants the controls
    that chose it, in the order of [all_controls]. *)
Definition controls_linked (h : Heap) : Prop :=
  let all_controls := seq 0 (length (h_controls h)) in
  ∀ r c, ctl h r = Some c →
    is_Some (link_target all_controls h r)
    ∧ c_extends_from c = option_list (ancestor_of all_controls h r)
    ∧ c_extended_by c
      = filter (λ x, ancestor_of all_controls h x = Some r) all_controls.

(** The heap [contextualizeEvaluation] returns for [e]. *)
Definition contextualized (e : AnyEval) (h : Heap) : Prop :=
  profiles_linked e h ∧ controls_wrapped h ∧ controls_linked h.

(** The base case B selects for the controls with the id of [cc]. *)
Definition pick_base (all_controls : list nat) (h : Heap)
    (cc : ContextualizedControl) : option nat :=
  same_id ← filter_ref (ctl h) (same_id_as cc) all_controls;
  found ← find_ref (ctl h) populated same_id;
  match found with
  | Some c => Some c
  | None => head same_id
  end.

(** [N], the number of controls of the heap, and the number of controls of
    a raw evaluation. *)
Definition steps (h : Heap) : nat := length (h_controls h).

Definition control_count (e : AnyEval) : nat :=
  length (mjoin (controls <$> profiles e)).

(** [extends_from[0]], and following it [m] times. *)
Definition next (h : Heap) (r : nat) : option nat :=
  c ← ctl h r; head (c_extends_from c).

Fixpoint follow (h : Heap) (m : nat) (r : nat) : option nat :=
  match m with
  | O => Some r
  | S m' => a ← next h r; follow h m' a
  end.

(** The first ancestor of every control is a control of the heap, and the
    profile a control is sourced from is a profile of the heap. *)
Definition closed (h : Heap) : Prop :=
  (∀ r a, next h r = Some a → is_Some (ctl h a))
  ∧ (∀ r c, ctl h r = Some c → is_Some (prof h (c_sourced_from c))).

(** No control is reached from itself by following [extends_from[0]]. *)
Definition acyclic (h : Heap) : Prop :=
  ∀ r m, 0 < m → follow h m r ≠ Some r.

(** The raw code is absent, or empty once trimmed. *)
Definition absent_or_blank (v : JsOptString) : Prop :=
  match v with
  | Undefined | Null => True
  | Str s => trim s = []
  end.

(** The parent a raw profile declares: the first profile of the evaluation
    that bears the name in its [parent_profile]. *)
Definition declared_parent (ps : list AnyProfile) (k : nat) : option nat :=
  default None
    (p ← ps !! k;
     match parent_profile p with
     | Undefined => Some None
     | as_exec_parent =>
         find_ref (λ r, ps !! r)
           (λ q, bool_decide (Str (name q) = as_exec_parent))
           (seq 0 (length ps))
     end).

Fixpoint up (ps : list AnyProfile) (m : nat) (k : nat) : option nat :=
  match m with
  | O => Some k
  | S m' => j ← declared_parent ps k; up ps m' j
  end.

(** Going from parent to parent ends within [fuel] steps. *)
Fixpoint parent_chain_ends (fuel : nat) (ps : list AnyProfile) (k : nat)
    : bool :=
  match declared_parent ps k with
  | None => true
  | Some j =>
      match fuel with
      | O => false
      | S fuel' => parent_chain_ends fuel' ps j
      end
  end.

(** No profile is its own parent, directly or through other profiles. *)
Definition acyclic_parentage (e : AnyEval) : bool :=
  forallb (parent_chain_ends (length (profiles e)) (profiles e))
    (seq 0 (length (profiles e))).

(** The profile wrapper [cp], at reference [k], contains the wrappers of
    its own controls, in order, and they are the controls sourced from
    it. *)
Definition owns (h : Heap) (k : nat) (cp : ContextualizedProfile) : Prop :=
  (λ r, c_data <$> ctl h r) <$> p_contains cp
  = Some <$> controls (p_data cp)
  ∧ ∀ r c, ctl h r = Some c → (r ∈ p_contains cp ↔ c_sourced_from c = k).

(** ** Loops that decide, then link *)

Section decide_then_act.
Context {St : Type}.
Variable decision : St → nat → option (option nat).
Variable act : nat → nat → St → St.
Hypothesis decision_act :
  ∀ t r s x, decision (act t r s) x = decision s x.

Lemma decision_foldl s0 xs s x :
  decision s x = decision s0 x →
  decision (foldl (act_on decision act s0) s xs) x = decision s0 x.
Proof.
  revert s. induction xs as [|r xs IH]; intros s Hs; simpl; [done|].
  apply IH. unfold act_on.
  destruct (decision s0 r) as [[t|]|]; [|done..].
  by rewrite decision_act.
Qed.

Lemma for_of_turn s0 xs s :
  (∀ x, decision s x = decision s0 x) →
  (∀ r, r ∈ xs → is_Some (decision s0 r)) →
  for_of (turn decision act) xs s
  = Some (foldl (act_on decision act s0) s xs).
Proof.
  revert s. induction xs as [|r xs IH]; intros s Hs Htot; simpl; [done|].
  destruct (Htot r) as [t Ht]; [by left|].
  assert (turn decision act s r = Some (act_on decision act s0 s r)) as ->.
  { unfold turn, act_on. rewrite Hs, Ht. by destruct t. }
  simpl. apply IH.
  - intros x. unfold act_on. rewrite Ht.
    destruct t as [t|]; [|done]. by rewrite decision_act.
  - intros r' Hr'. apply Htot. by right.
Qed.

End decide_then_act.

(** ** Linking the nodes of a list *)

Section linking.
Context {T : Type}.
Variables push_out push_in : nat → T → T.
Hypothesis push_comm :
  ∀ a b x, push_out a (push_in b x) = push_in b (push_out a x).

Lemma foldl_push_comm outs ins x :
  foldl (λ y a, push_out a y) (foldl (λ y b, push_in b y) x ins) outs
  = foldl (λ y b, push_in b y) (foldl (λ y a, push_out a y) x outs) ins.
Proof.
  revert x. induction outs as [|a outs IH]; intros x; simpl; [done|].
  rewrite <- IH. f_equal.
  clear IH. revert x. induction ins as [|b ins IH]; intros x; simpl; [done|].
  by rewrite IH, push_comm.
Qed.

Lemma grow_grow o1 i1 o2 i2 x :
  grow push_out push_in o2 i2 (grow push_out push_in o1 i1 x)
  = grow push_out push_in (o1 ++ o2) (i1 ++ i2) x.
Proof.
  unfold grow. rewrite !foldl_app. by rewrite foldl_push_comm.
Qed.

Lemma lookup_connect t r l i :
  connect push_out push_in t r l !! i
  = grow push_out push_in
      (if decide (r = i) then [t] else [])
      (if decide (t = i) then [r] else []) <$> l !! i.
Proof.
  unfold connect. rewrite !list_lookup_alter.
  repeat case_decide; simplify_eq; destruct (l !! i); simpl; try done.
  unfold grow; simpl. by rewrite push_comm.
Qed.

Lemma lookup_connect_opt t r l i :
  connect_opt push_out push_in t r l !! i
  = grow push_out push_in
      (if decide (r = i) then option_list t else [])
      (if decide (t = Some i) then [r] else []) <$> l !! i.
Proof.
  destruct t as [t|]; simpl.
  - rewrite lookup_connect. destruct (l !! i); simpl; [|done].
    repeat case_decide; simpl; try done; congruence.
  - destruct (l !! i); simpl; [|done].
    repeat case_decide; simpl; try done; congruence.
Qed.

Lemma lookup_links (tgt : nat → option nat) xs l i :
  foldl (λ l r, connect_opt push_out push_in (tgt r) r l) l xs !! i
  = grow push_out push_in
      (omap (λ r, if decide (r = i) then tgt r else None) xs)
      (filter (λ r, tgt r = Some i) xs) <$> l !! i.
Proof.
  revert l. induction xs as [|r xs IH]; intros l; simpl.
  - by destruct (l !! i).
  - rewrite IH, lookup_connect_opt.
    destruct (l !! i) as [x|]; simpl; [|done].
    rewrite grow_grow. f_equal. f_equal.
    + case_decide; [|done]. by destruct (tgt r).
    + rewrite filter_cons. by repeat case_decide.
Qed.

Lemma length_links (tgt : nat → option nat) xs l :
  length (foldl (λ l r, connect_opt push_out push_in (tgt r) r l) l xs)
  = length l.
Proof.
  revert l. induction xs as [|r xs IH]; intros l; simpl; [done|].
  rewrite IH. destruct (tgt r); simpl; [|done].
  unfold connect. by rewrite !length_alter.
Qed.

End linking.

(** ** [find] and [filter] over references *)

Section ref_arrays.
Context {A : Type}.
Implicit Types (d : nat → option A) (f : A → bool) (refs : list nat).

Lemma find_ref_total d f refs :
  (∀ r, r ∈ refs → is_Some (d r)) → is_Some (find_ref d f refs).
Proof.
  induction refs as [|r refs IH]; intros Hd; simpl; [by eexists|].
  destruct (Hd r) as [x ->]; [by left|]. simpl.
  destruct (f x); [by eexists|].
  apply IH. intros r' Hr'. apply Hd. by right.
Qed.

Lemma find_ref_Some d f refs a :
  find_ref d f refs = Some (Some a) →
  a ∈ refs ∧ ∃ x, d a = Some x ∧ f x = true.
Proof.
  induction refs as [|r refs IH]; simpl; [done|].
  destruct (d r) as [x|] eqn:Hx; simpl; [|done].
  destruct (f x) eqn:Hf.
  - intros [= <-]. split; [by left|]. eauto.
  - intros H. destruct (IH H) as [? ?]. split; [by right|done].
Qed.

Lemma find_ref_None d f refs :
  find_ref d f refs = Some None ↔
  ∀ r, r ∈ refs → ∃ x, d r = Some x ∧ f x = false.
Proof.
  induction refs as [|r refs IH]; simpl.
  - split; [|done]. intros _ r Hr. by apply elem_of_nil in Hr.
  - destruct (d r) as [x|] eqn:Hx; simpl.
    + destruct (f x) eqn:Hf.
      * split; [done|]. intros H.
        destruct (H r) as (y & Hy & Hfy); [by left|]. congruence.
      * rewrite IH. split.
        -- intros H r' [->|Hr']%elem_of_cons; eauto.
        -- intros H r' Hr'. apply H. by right.
    + split; [done|]. intros H.
      destruct (H r) as (y & Hy & _); [by left|]. congruence.
Qed.

Lemma find_ref_first d f l1 a l2 x :
  (∀ r, r ∈ l1 → ∃ y, d r = Some y ∧ f y = false) →
  d a = Some x → f x = true →
  find_ref d f (l1 ++ a :: l2) = Some (Some a).
Proof.
  intros H1 Hx Hf. induction l1 as [|r l1 IH]; simpl.
  - by rewrite Hx; simpl; rewrite Hf.
  - destruct (H1 r) as (y & -> & Hy); [by left|]. simpl. rewrite Hy.
    apply IH. intros r' Hr'. apply H1. by right.
Qed.

Lemma filter_ref_total d f refs :
  (∀ r, r ∈ refs → is_Some (d r)) → is_Some (filter_ref d f refs).
Proof.
  induction refs as [|r refs IH]; intros Hd; simpl; [by eexists|].
  destruct (Hd r) as [x ->]; [by left|]. simpl.
  destruct IH as [l ->]; [|by eexists].
  intros r' Hr'. apply Hd. by right.
Qed.

Lemma filter_ref_elem d f refs l :
  filter_ref d f refs = Some l →
  ∀ r, r ∈ l ↔ r ∈ refs ∧ ∃ x, d r = Some x ∧ f x = true.
Proof.
  revert l. induction refs as [|r refs IH]; simpl; intros l.
  - intros [= <-] r. split; [by intros ?%elem_of_nil|].
    by intros [?%elem_of_nil _].
  - destruct (d r) as [x|] eqn:Hx; simpl; [|done].
    destruct (filter_ref d f refs) as [kept|]; simpl; [|done].
    intros [= <-] r'. specialize (IH kept eq_refl r').
    destruct (f x) eqn:Hf; rewrite ?elem_of_cons, IH, ?elem_of_cons.
    + split.
      * intros [->|[? ?]]; [split; [by left|eauto] | split; [by right|done]].
      * intros [[->|?] ?]; [by left | by right].
    + split.
      * intros [? ?]. split; [by right|done].
      * intros [[->|?] (y & Hy & Hfy)]; [congruence|eauto].
Qed.

End ref_arrays.

Lemma find_ref_ext {A B : Type} (R : A → B → Prop) d1 d2 f g refs :
  (∀ r, option_Forall2 R (d1 r) (d2 r)) →
  (∀ x y, R x y → f x = g y) →
  find_ref d1 f refs = find_ref d2 g refs.
Proof.
  intros Hd Hfg. induction refs as [|r refs IH]; simpl; [done|].
  destruct (Hd r) as [x y Hxy|]; simpl; [|done].
  by rewrite (Hfg x y Hxy), IH.
Qed.

Lemma filter_ref_ext {A B : Type} (R : A → B → Prop) d1 d2 f g refs :
  (∀ r, option_Forall2 R (d1 r) (d2 r)) →
  (∀ x y, R x y → f x = g y) →
  filter_ref d1 f refs = filter_ref d2 g refs.
Proof.
  intros Hd Hfg. induction refs as [|r refs IH]; simpl; [done|].
  destruct (Hd r) as [x y Hxy|]; simpl; [|done].
  by rewrite (Hfg x y Hxy), IH.
Qed.

(** ** Linking the profiles *)

Lemma link_profile_turn contains h r :
  link_profile contains h r
  = turn (parent_target contains) bind_profiles h r.
Proof.
  unfold link_profile, turn, parent_target.
  destruct (prof h r) as [profile|]; simpl; [|done].
  destruct (parent_profile (p_data profile)); simpl; [done|..];
    (destruct (find_ref _ _ _) as [[parent|]|]; by simpl).
Qed.

Lemma for_of_ext {S : Type} (f g : S → nat → option S) xs s :
  (∀ s r, f s r = g s r) → for_of f xs s = for_of g xs s.
Proof.
  intros Hfg. revert s. induction xs as [|x xs IH]; intros s; simpl; [done|].
  rewrite Hfg. destruct (g s x); simpl; [apply IH|done].
Qed.

Lemma psim_refl h : psim h h.
Proof. intros r. destruct (prof h r); by constructor. Qed.

Lemma psim_trans h1 h2 h3 : psim h1 h2 → psim h2 h3 → psim h1 h3.
Proof.
  intros H12 H23 r. specialize (H12 r). specialize (H23 r).
  destruct H12; inversion H23; simplify_eq; constructor.
  unfold same_data in *. congruence.
Qed.

Lemma psim_upd_prof f r h :
  (∀ p, p_data (f p) = p_data p) → psim (upd_prof f r h) h.
Proof.
  intros Hf x. unfold prof, upd_prof; simpl. rewrite list_lookup_alter.
  case_decide; subst; destruct (h_profiles h !! x); constructor;
    unfold same_data; auto.
Qed.

Lemma psim_bind_profiles t r h : psim (bind_profiles t r h) h.
Proof.
  unfold bind_profiles.
  eapply psim_trans; apply psim_upd_prof; done.
Qed.

Lemma parent_target_psim contains h h' r :
  psim h h' → parent_target contains h r = parent_target contains h' r.
Proof.
  intros Hsim. unfold parent_target.
  destruct (Hsim r) as [p p' Hp|]; simpl; [|done].
  rewrite Hp.
  destruct (parent_profile (p_data p')); [done|..];
    apply (find_ref_ext same_data); auto;
    intros x y Hxy; by rewrite Hxy.
Qed.

Lemma grow_profile outs ins p :
  grow push_p_extended_by push_p_extends_from outs ins p
  = {| p_data := p_data p;
       p_sourced_from := p_sourced_from p;
       p_extended_by := p_extended_by p ++ outs;
       p_extends_from := p_extends_from p ++ ins;
       p_contains := p_contains p |}.
Proof.
  unfold grow. revert p.
  induction outs as [|a outs IH]; intros p; simpl.
  - induction ins as [|b ins IH] in p |- *; simpl.
    + rewrite !app_nil_r. by destruct p.
    + rewrite IH. simpl. by rewrite <- !app_assoc.
  - rewrite IH. simpl. by rewrite <- !app_assoc.
Qed.

Lemma omap_single (t : nat → option nat) xs i :
  NoDup xs →
  omap (λ r, if decide (r = i) then t r else None) xs
  = if decide (i ∈ xs) then option_list (t i) else [].
Proof.
  induction 1 as [|x xs Hx Hnd IH]; csimpl.
  - done.
  - rewrite IH. destruct (decide (x = i)) as [->|Hne].
    + destruct (decide (i ∈ xs)); [done|].
      destruct (decide (i ∈ i :: xs)) as [_|[]]; [|by left].
      by destruct (t i).
    + destruct (decide (i ∈ xs)) as [Hi|Hi];
        destruct (decide (i ∈ x :: xs)) as [Hi'|Hi']; try done.
      * destruct Hi'. by right.
      * apply elem_of_cons in Hi' as [->|?]; done.
Qed.

Lemma profiles_foldl contains h0 h xs :
  h_profiles (foldl (act_on (parent_target contains) bind_profiles h0) h xs)
  = foldl (λ l r, connect_opt push_p_extended_by push_p_extends_from
                    (parent_of contains h0 r) r l) (h_profiles h) xs
  ∧ h_controls
      (foldl (act_on (parent_target contains) bind_profiles h0) h xs)
    = h_controls h.
Proof.
  revert h. induction xs as [|r xs IH]; intros h; simpl; [done|].
  destruct (IH (act_on (parent_target contains) bind_profiles h0 h r))
    as [-> ->].
  unfold act_on, parent_of.
  by destruct (parent_target contains h0 r) as [[t|]|].
Qed.

Lemma parent_of_psim contains h h' r :
  psim h h' → parent_of contains h r = parent_of contains h' r.
Proof. intros H. unfold parent_of. by rewrite (parent_target_psim _ h h'). Qed.

Lemma profiles_linked_psim e h h' :
  psim h h' →
  (∀ k, option_Forall2
          (λ p p', p_sourced_from p = p_sourced_from p'
                   ∧ p_extended_by p = p_extended_by p'
                   ∧ p_extends_from p = p_extends_from p')
          (prof h k) (prof h' k)) →
  length (h_profiles h') = length (h_profiles h) →
  profiles_linked e h → profiles_linked e h'.
Proof.
  intros Hsim Hedges Hlen [Hl Hk]. split; [congruence|].
  intros k cp' Hcp'.
  pose proof (Hedges k) as He. pose proof (Hsim k) as Hs.
  rewrite Hcp' in He, Hs.
  inversion He as [cp ? (Hsf & Hby & Hfrom) Hcp|]; subst.
  inversion Hs as [cp0 ? Hdata Hcp0|]; subst.
  assert (cp0 = cp) as -> by congruence.
  destruct (Hk k cp) as (H1 & H2 & H3 & H4); [done|].
  unfold same_data in Hdata.
  rewrite <- Hdata, <- Hsf, <- Hby, <- Hfrom.
  rewrite <- (parent_of_psim _ h h') by done.
  repeat split; try done.
  rewrite H4. apply list_filter_iff. intros r.
  by rewrite (parent_of_psim _ h h').
Qed.

Lemma parent_target_total e h r :
  p_data <$> h_profiles h = profiles e →
  r < length (profiles e) →
  is_Some (parent_target (seq 0 (length (profiles e))) h r).
Proof.
  intros Hdata Hr. unfold parent_target.
  assert (∀ x, x < length (profiles e) → is_Some (prof h x)) as Hprof.
  { intros x Hx. unfold prof. apply lookup_lt_is_Some.
    by rewrite <- Hdata, length_fmap in Hx. }
  destruct (Hprof r Hr) as [p ->]. simpl.
  destruct (parent_profile (p_data p)); [by eexists|..];
    apply find_ref_total; intros x Hx%elem_of_seq; apply Hprof; lia.
Qed.

Lemma link_profiles_spec e :
  let contains := seq 0 (length (profiles e)) in
  ∃ h1,
    for_of (link_profile contains) contains
      {| h_profiles := wrap_profile <$> profiles e; h_controls := [] |}
    = Some h1
    ∧ h_controls h1 = []
    ∧ profiles_linked e h1
    ∧ ∀ k cp, prof h1 k = Some cp → p_contains cp = [].
Proof.
  intros contains.
  set (h0 := {| h_profiles := wrap_profile <$> profiles e;
                h_controls := [] |}).
  assert (∀ t r s x, parent_target contains (bind_profiles t r s) x
                     = parent_target contains s x) as Hact.
  { intros. apply parent_target_psim, psim_bind_profiles. }
  rewrite (for_of_ext _ _ _ _ (link_profile_turn contains)).
  rewrite (for_of_turn _ _ Hact h0); [|done|].
  2:{ intros r Hr%elem_of_seq. apply parent_target_total; [|lia].
      simpl. rewrite <- list_fmap_compose. apply list_fmap_id. }
  eexists. split; [done|].
  destruct (profiles_foldl contains h0 h0 contains) as [Hp Hc].
  split; [by rewrite Hc|].
  set (h1 := foldl _ h0 contains) in *.
  assert (∀ r, parent_of contains h1 r = parent_of contains h0 r) as Hpar.
  { intros r. unfold parent_of. f_equal.
    by apply (decision_foldl _ _ Hact). }
  assert (∀ k cp, prof h1 k = Some cp →
    ∃ p, profiles e !! k = Some p ∧
      cp = {| p_data := p; p_sourced_from := Some TheEvaluation;
              p_extended_by := option_list (parent_of contains h0 k);
              p_extends_from :=
                filter (λ r, parent_of contains h0 r = Some k) contains;
              p_contains := [] |}) as Hchar.
  { intros k cp. unfold prof. rewrite Hp, lookup_links; [|done].
    simpl. rewrite list_lookup_fmap.
    destruct (profiles e !! k) as [p|] eqn:Hk; simpl; [|done].
    intros [= <-]. exists p. split; [done|].
    rewrite grow_profile. simpl.
    rewrite omap_single by apply NoDup_seq.
    rewrite decide_True; [done|].
    apply elem_of_seq. apply lookup_lt_Some in Hk. lia. }
  split; [split|].
  - rewrite Hp, length_links. simpl. by rewrite length_fmap.
  - intros k cp Hcp. destruct (Hchar k cp Hcp) as (p & Hk & ->). simpl.
    rewrite Hpar. repeat split; try done.
    apply list_filter_iff. intros r. by rewrite Hpar.
  - intros k cp Hcp. by destruct (Hchar k cp Hcp) as (p & Hk & ->).
Qed.

(** ** Wrapping the controls *)

Lemma plinks_eq_refl h : plinks_eq h h.
Proof.
  split; [done|]. intros k. destruct (prof h k); by constructor.
Qed.

Lemma plinks_eq_trans h1 h2 h3 :
  plinks_eq h1 h2 → plinks_eq h2 h3 → plinks_eq h1 h3.
Proof.
  intros [Hl12 H12] [Hl23 H23]. split; [congruence|]. intros k.
  specialize (H12 k). specialize (H23 k).
  destruct H12 as [p1 p2 (?&?&?&?)|]; inversion H23 as [? p3 (?&?&?&?)|];
    simplify_eq; constructor.
  unfold same_profile_links; repeat split; congruence.
Qed.

Lemma plinks_eq_psim h h' : plinks_eq h h' → psim h h'.
Proof.
  intros [_ H] k. destruct (H k) as [p p' (?&_)|]; by constructor.
Qed.

Lemma profiles_linked_plinks e h h' :
  plinks_eq h h' → profiles_linked e h → profiles_linked e h'.
Proof.
  intros [Hl H]. apply profiles_linked_psim; [|..|done].
  - by apply plinks_eq_psim.
  - intros k. destruct (H k) as [p p' (?&?&?&?)|]; by constructor.
Qed.

Lemma wrap_controls_step h all r h' all' :
  wrap_controls (h, all) r = Some (h', all') →
  all = seq 0 (length (h_controls h)) →
  controls_wrapped h → unlinked h →
  all' = seq 0 (length (h_controls h'))
  ∧ controls_wrapped h' ∧ unlinked h' ∧ plinks_eq h h'.
Proof.
  unfold wrap_controls.
  destruct (prof h r) as [profile|] eqn:Hr; simpl; [|done].
  intros [= <- <-] -> [Hc Hp] Hun. simpl.
  set (fresh := (λ c, ContextualizedControlImp c r [] [])
                  <$> controls (p_data profile)).
  assert (∀ k, is_Some (prof h k) →
    is_Some (alter (set_p_contains
               (seq (length (h_controls h)) (length fresh))) r
               (h_profiles h) !! k)) as Hkeep.
  { intros k [cp Hk]. rewrite list_lookup_alter.
    unfold prof in Hk, Hr. case_decide; subst; rewrite ?Hr, ?Hk; by eexists. }
  assert (∀ x c, (h_controls h ++ fresh) !! x = Some c →
    ctl h x = Some c
    ∨ (length (h_controls h) ≤ x
       ∧ ∃ d, c = ContextualizedControlImp d r [] [])) as Hsplit.
  { intros x c [Hx|[Hlen Hx]]%lookup_app_Some; [by left|right].
    split; [done|]. unfold fresh in Hx.
    apply list_lookup_fmap_Some in Hx as (d & -> & ?). eauto. }
  split; [|split; [split|split]].
  - rewrite length_app. by rewrite seq_app.
  - intros x c Hx. apply Hsplit in Hx as [Hx|[_ [d ->]]].
    + destruct (Hc x c Hx) as [? ?]. split; [done|]. by apply Hkeep.
    + split; [done|]. apply Hkeep. simpl. rewrite Hr. by eexists.
  - intros k cp. unfold prof, ctl; simpl. rewrite list_lookup_alter.
    case_decide as Hk; subst.
    + unfold prof in Hr. rewrite Hr. simpl. intros [= <-] x. simpl.
      intros [Hge Hlt]%elem_of_seq.
      assert (is_Some (fresh !! (x - length (h_controls h)))) as [c Hx].
      { apply lookup_lt_is_Some. lia. }
      exists c. split.
      * rewrite lookup_app_r by done. done.
      * unfold fresh in Hx. apply list_lookup_fmap_Some in Hx as (d & -> & ?).
        done.
    + intros Hk' x Hx. destruct (Hp k cp Hk' x Hx) as (c & Hcx & Hown).
      exists c. split; [|done]. by apply lookup_app_l_Some.
  - intros x c Hx. apply Hsplit in Hx as [Hx|[_ [d ->]]]; [|done].
    by apply Hun in Hx.
  - split; simpl; [by rewrite length_alter|].
    intros k. unfold prof; simpl. rewrite list_lookup_alter.
    case_decide; subst; destruct (h_profiles h !! k); simpl; constructor;
      done.
Qed.

Lemma wrap_controls_loop xs h all :
  (∀ r, r ∈ xs → is_Some (prof h r)) →
  all = seq 0 (length (h_controls h)) →
  controls_wrapped h → unlinked h →
  ∃ h' all',
    for_of wrap_controls xs (h, all) = Some (h', all')
    ∧ all' = seq 0 (length (h_controls h'))
    ∧ controls_wrapped h' ∧ unlinked h' ∧ plinks_eq h h'.
Proof.
  revert h all. induction xs as [|r xs IH]; intros h all Hxs Hall Hw Hun.
  - exists h, all. simpl. split_and!; try done. apply plinks_eq_refl.
  - destruct (Hxs r) as [profile Hr]; [by left|].
    destruct (wrap_controls (h, all) r) as [[h1 all1]|] eqn:Hstep.
    2:{ unfold wrap_controls in Hstep. by rewrite Hr in Hstep. }
    destruct (wrap_controls_step _ _ _ _ _ Hstep Hall Hw Hun)
      as (Hall1 & Hw1 & Hun1 & Heq1).
    destruct (IH h1 all1) as (h' & all' & Hfor & ? & ? & ? & Heq');
      try done.
    { intros x Hx. destruct (Hxs x) as [p Hp]; [by right|].
      destruct Heq1 as [Hlen _]. unfold prof in *.
      apply lookup_lt_is_Some. rewrite <- Hlen.
      by apply lookup_lt_Some in Hp. }
    exists h', all'. cbn [for_of]. rewrite Hstep. simpl.
    split_and!; try done. by eapply plinks_eq_trans.
Qed.

(** ** Linking the controls *)

Lemma link_control_turn all h r :
  link_control all h r = turn (link_target all) bind_controls h r.
Proof.
  unfold link_control, turn, link_target.
  destruct (ctl h r) as [cc|]; simpl; [|done].
  destruct (prof h (c_sourced_from cc)) as [sf|]; simpl; [|done].
  destruct (nonempty (p_extends_from sf) || nonempty (p_extended_by sf)).
  - destruct (negb (nonempty (p_extends_from sf))); [done|].
    by destruct (hunt_ancestor h cc (p_extends_from sf)) as [[a|]|].
  - destruct (filter_ref _ _ _) as [same_id|]; simpl; [|done].
    destruct (find_ref _ _ _) as [[c|]|]; simpl; [| |done].
    + by case_bool_decide.
    + destruct (head same_id); simpl; [|done]. by case_bool_decide.
Qed.

Lemma same_static_refl c : same_static c c.
Proof. by repeat split. Qed.

Lemma sim_refl h : sim h h.
Proof.
  split; [done|]. intros r.
  destruct (ctl h r); constructor. apply same_static_refl.
Qed.

Lemma sim_trans h1 h2 h3 : sim h1 h2 → sim h2 h3 → sim h1 h3.
Proof.
  intros [Hp12 H12] [Hp23 H23]. split; [congruence|]. intros r.
  specialize (H12 r). specialize (H23 r).
  destruct H12 as [c1 c2 (?&?&?)|]; inversion H23 as [? c3 (?&?&?)|];
    simplify_eq; constructor.
  unfold same_static; repeat split; congruence.
Qed.

Lemma sim_upd_ctl f r h :
  (∀ c, same_static (f c) c) → sim (upd_ctl f r h) h.
Proof.
  intros Hf. split; [done|]. intros x.
  unfold ctl, upd_ctl; simpl. rewrite list_lookup_alter.
  case_decide; subst; destruct (h_controls h !! x); constructor;
    auto using same_static_refl.
Qed.

Lemma sim_bind_controls t r h : sim (bind_controls t r h) h.
Proof.
  unfold bind_controls.
  eapply sim_trans; apply sim_upd_ctl; intros c; by repeat split.
Qed.

Lemma same_id_as_static cc cc' c c' :
  same_static cc cc' → same_static c c' →
  same_id_as cc c = same_id_as cc' c'.
Proof.
  intros (Hcc & _) (Hc & _). unfold same_id_as. by rewrite Hcc, Hc.
Qed.

Lemma populated_static c c' : same_static c c' → populated c = populated c'.
Proof. intros (_ & _ & Hc). unfold populated. by rewrite Hc. Qed.

Lemma hunt_ancestor_sim h h' cc cc' eps :
  sim h h' → same_static cc cc' →
  hunt_ancestor h cc eps = hunt_ancestor h' cc' eps.
Proof.
  intros [Hp Hc] Hcc. induction eps as [|ep eps IH]; simpl; [done|].
  unfold prof. rewrite Hp.
  destruct (h_profiles h' !! ep) as [extended_profile|]; simpl; [|done].
  rewrite (find_ref_ext same_static (ctl h) (ctl h')
             (same_id_as cc) (same_id_as cc')); [|done|].
  - by rewrite IH.
  - intros x y Hxy. by apply same_id_as_static.
Qed.

Lemma link_target_sim all h h' r :
  sim h h' → link_target all h r = link_target all h' r.
Proof.
  intros Hsim. pose proof Hsim as [Hp Hc]. unfold link_target.
  destruct (Hc r) as [cc cc' Hcc|]; simpl; [|done].
  destruct Hcc as (Hd & Hs & Hh). unfold prof. rewrite Hp, Hs.
  destruct (h_profiles h' !! c_sourced_from cc') as [sf|]; simpl; [|done].
  assert (same_static cc cc') as Hcc by done.
  rewrite (hunt_ancestor_sim h h' cc cc') by done.
  rewrite (filter_ref_ext same_static (ctl h) (ctl h')
             (same_id_as cc) (same_id_as cc')); [|done|].
  2:{ intros x y Hxy. by apply same_id_as_static. }
  destruct (nonempty (p_extends_from sf) || nonempty (p_extended_by sf));
    [done|].
  destruct (filter_ref (ctl h') (same_id_as cc') all) as [same_id|];
    simpl; [|done].
  rewrite (find_ref_ext same_static (ctl h) (ctl h') populated populated);
    [done|done|].
  apply populated_static.
Qed.

Lemma ancestor_of_sim all h h' r :
  sim h h' → ancestor_of all h r = ancestor_of all h' r.
Proof. intros H. unfold ancestor_of. by rewrite (link_target_sim _ h h'). Qed.

Lemma hunt_ancestor_total h cc eps :
  controls_wrapped h →
  (∀ ep, ep ∈ eps → is_Some (prof h ep)) →
  is_Some (hunt_ancestor h cc eps).
Proof.
  intros [_ Hp]. induction eps as [|ep eps IH]; intros Heps; simpl.
  - by eexists.
  - destruct (Heps ep) as [extended_profile Hep]; [by left|].
    rewrite Hep. simpl.
    destruct (find_ref_total (ctl h) (same_id_as cc)
                (p_contains extended_profile)) as [[a|] ->]; simpl.
    + intros r Hr. destruct (Hp _ _ Hep r Hr) as (c & -> & _). by eexists.
    + by eexists.
    + apply IH. intros ep' Hep'. apply Heps. by right.
Qed.

Lemma link_target_total h r :
  controls_wrapped h → profile_refs_ok h →
  r < length (h_controls h) →
  is_Some (link_target (seq 0 (length (h_controls h))) h r).
Proof.
  intros Hw Hrefs Hr. pose proof Hw as [Hc Hp]. unfold link_target.
  destruct (lookup_lt_is_Some_2 (h_controls h) r Hr) as [cc Hcc].
  change (ctl h r = Some cc) in Hcc. rewrite Hcc. simpl.
  destruct (Hc r cc Hcc) as [_ [sf Hsf]]. rewrite Hsf. simpl.
  destruct (nonempty (p_extends_from sf) || nonempty (p_extended_by sf)).
  - destruct (negb (nonempty (p_extends_from sf))); [by eexists|].
    apply hunt_ancestor_total; [done|]. by apply (Hrefs _ _ Hsf).
  - assert (∀ x, x ∈ seq 0 (length (h_controls h)) → is_Some (ctl h x))
      as Hall.
    { intros x Hx%elem_of_seq. apply lookup_lt_is_Some. lia. }
    destruct (filter_ref_total (ctl h) (same_id_as cc) _ Hall)
      as [same_id Hsame].
    rewrite Hsame. simpl.
    pose proof (filter_ref_elem _ _ _ _ Hsame) as Helem.
    destruct (find_ref_total (ctl h) populated same_id) as [found ->].
    { intros x Hx. apply Hall. by apply Helem. }
    simpl. destruct found as [c|]; simpl; [by eexists|].
    assert (r ∈ same_id) as Hin.
    { apply Helem. split; [apply elem_of_seq; lia|].
      exists cc. split; [done|]. unfold same_id_as. by apply bool_decide_eq_true. }
    destruct same_id as [|x same_id]; [by apply elem_of_nil in Hin|].
    simpl. by eexists.
Qed.

Lemma grow_control outs ins c :
  grow push_c_extends_from push_c_extended_by outs ins c
  = {| c_data := c_data c;
       c_sourced_from := c_sourced_from c;
       c_extended_by := c_extended_by c ++ ins;
       c_extends_from := c_extends_from c ++ outs;
       c_hdf := c_hdf c |}.
Proof.
  unfold grow. revert c.
  induction outs as [|a outs IH]; intros c; simpl.
  - induction ins as [|b ins IH] in c |- *; simpl.
    + rewrite !app_nil_r. by destruct c.
    + rewrite IH. simpl. by rewrite <- !app_assoc.
  - rewrite IH. simpl. by rewrite <- !app_assoc.
Qed.

Lemma controls_foldl all h0 h xs :
  h_controls (foldl (act_on (link_target all) bind_controls h0) h xs)
  = foldl (λ l r, connect_opt push_c_extends_from push_c_extended_by
                    (ancestor_of all h0 r) r l) (h_controls h) xs
  ∧ h_profiles (foldl (act_on (link_target all) bind_controls h0) h xs)
    = h_profiles h.
Proof.
  revert h. induction xs as [|r xs IH]; intros h; simpl; [done|].
  destruct (IH (act_on (link_target all) bind_controls h0 h r)) as [-> ->].
  unfold act_on, ancestor_of.
  by destruct (link_target all h0 r) as [[t|]|].
Qed.

Lemma link_controls_spec h2 :
  controls_wrapped h2 → profile_refs_ok h2 → unlinked h2 →
  let all := seq 0 (length (h_controls h2)) in
  ∃ h3,
    for_of (link_control all) all h2 = Some h3
    ∧ sim h3 h2
    ∧ length (h_controls h3) = length (h_controls h2)
    ∧ controls_linked h3.
Proof.
  intros Hw Hrefs Hun all.
  assert (∀ t r s x, link_target all (bind_controls t r s) x
                     = link_target all s x) as Hact.
  { intros. apply link_target_sim, sim_bind_controls. }
  rewrite (for_of_ext _ _ _ _ (link_control_turn all)).
  rewrite (for_of_turn _ _ Hact h2); [|done|].
  2:{ intros r Hr%elem_of_seq. apply link_target_total; [done..|lia]. }
  eexists. split; [done|].
  destruct (controls_foldl all h2 h2 all) as [Hc Hp].
  set (h3 := foldl _ h2 all) in *.
  assert (length (h_controls h3) = length (h_controls h2)) as Hlen.
  { rewrite Hc. apply length_links. }
  assert (∀ r, ctl h3 r
    = (λ c, {| c_data := c_data c;
               c_sourced_from := c_sourced_from c;
               c_extended_by :=
                 filter (λ x, ancestor_of all h2 x = Some r) all;
               c_extends_from := option_list (ancestor_of all h2 r);
               c_hdf := c_hdf c |}) <$> ctl h2 r) as Hchar.
  { intros r. unfold ctl. rewrite Hc, lookup_links.
    2:{ intros a b x. done. }
    destruct (h_controls h2 !! r) as [c|] eqn:Hr; simpl; [|done].
    rewrite grow_control. destruct (Hun r c Hr) as [-> ->]. simpl.
    rewrite omap_single by apply NoDup_seq.
    rewrite decide_True; [done|].
    apply elem_of_seq. apply lookup_lt_Some in Hr. lia. }
  assert (sim h3 h2) as Hsim.
  { split; [done|]. intros r. rewrite Hchar.
    destruct (ctl h2 r); constructor. by repeat split. }
  split; [done|]. split; [done|].
  intros r c. unfold controls_linked. rewrite Hlen. fold all.
  rewrite Hchar. destruct (ctl h2 r) as [c2|] eqn:Hr; simpl; [|done].
  intros [= <-]. simpl.
  rewrite (link_target_sim all h3 h2) by done.
  rewrite (ancestor_of_sim all h3 h2) by done.
  split_and!.
  - apply link_target_total; [done..|]. by apply lookup_lt_Some in Hr.
  - done.
  - apply list_filter_iff. intros x.
    by rewrite (ancestor_of_sim all h3 h2).
Qed.

(** ** The heap of a contextualized evaluation *)

Lemma profiles_linked_refs_ok e h : profiles_linked e h → profile_refs_ok h.
Proof.
  intros [Hlen Hk] k cp Hcp ep Hep.
  destruct (Hk k cp Hcp) as (_ & _ & _ & Hfrom).
  rewrite Hfrom in Hep. apply list_elem_of_filter in Hep as [_ Hep].
  apply elem_of_seq in Hep. unfold prof. apply lookup_lt_is_Some. lia.
Qed.

Lemma controls_wrapped_sim h h' :
  sim h' h → controls_wrapped h → controls_wrapped h'.
Proof.
  intros [Hp Hs] [Hc Hk]. split.
  - intros r c' Hr. pose proof (Hs r) as Hsr. rewrite Hr in Hsr.
    inversion Hsr as [x c (Hd & Ho & Hh) Hx Hc0|]; subst.
    destruct (Hc r c) as [? ?]; [done|].
    unfold prof in *. rewrite Hp, Hd, Ho, Hh. done.
  - intros k cp Hcp r Hr. unfold prof in Hcp. rewrite Hp in Hcp.
    destruct (Hk k cp Hcp r Hr) as (c & Hcr & Hown).
    pose proof (Hs r) as Hsr. rewrite Hcr in Hsr.
    inversion Hsr as [c' x (Hd & Ho & Hh) Hc0 Hx|]; subst.
    exists c'. split; [done|]. done.
Qed.

Lemma linked_profile_exists e h k p :
  profiles_linked e h → profiles e !! k = Some p →
  ∃ cp, prof h k = Some cp ∧ p_data cp = p.
Proof.
  intros [Hlen Hk] Hp.
  destruct (lookup_lt_is_Some_2 (h_profiles h) k) as [cp Hcp].
  { rewrite Hlen. by apply lookup_lt_Some in Hp. }
  exists cp. split; [done|].
  destruct (Hk k cp Hcp) as (Hd & _). congruence.
Qed.

Lemma wrap_controls_data xs h all h' all' :
  for_of wrap_controls xs (h, all) = Some (h', all') →
  c_data <$> h_controls h'
  = (c_data <$> h_controls h)
    ++ mjoin ((λ r, from_option (λ p, controls (p_data p)) [] (prof h r))
                <$> xs).
Proof.
  revert h all. induction xs as [|r xs IH]; intros h all; cbn [for_of].
  - intros [= <- <-]. simpl. by rewrite app_nil_r.
  - destruct (wrap_controls (h, all) r) as [[h1 all1]|] eqn:Hstep; [|done].
    simpl. intros Hfor. rewrite (IH _ _ Hfor).
    unfold wrap_controls in Hstep.
    destruct (prof h r) as [profile|] eqn:Hr; simpl in Hstep; [|done].
    injection Hstep as <- <-. simpl.
    rewrite fmap_app, <- list_fmap_compose, <- app_assoc.
    f_equal. f_equal; [by rewrite list_fmap_id|].
    f_equal. apply list_fmap_ext. intros _ k _.
    unfold prof. simpl. rewrite list_lookup_alter.
    case_decide; [|done]. subst. unfold prof in Hr. by rewrite Hr.
Qed.

Lemma contextualizeEvaluation_full e :
  ∃ h,
    contextualizeEvaluation e
    = Some ({| e_data := e; e_contains := seq 0 (length (profiles e)) |}, h)
    ∧ contextualized e h
    ∧ c_data <$> h_controls h = mjoin (controls <$> profiles e).
Proof.
  unfold contextualizeEvaluation. rewrite length_fmap.
  destruct (link_profiles_spec e) as (h1 & -> & Hc1 & Hl1 & Hcont1).
  simpl.
  destruct (wrap_controls_loop (seq 0 (length (profiles e))) h1 [])
    as (h2 & all & Hwrap & -> & Hw2 & Hun2 & Heq2).
  { intros r Hr%elem_of_seq. unfold prof. apply lookup_lt_is_Some.
    destruct Hl1 as [-> _]. lia. }
  { by rewrite Hc1. }
  { split.
    - intros r c. unfold ctl. by rewrite Hc1.
    - intros k cp Hk r. rewrite (Hcont1 k cp Hk). by intros ?%elem_of_nil. }
  { intros r c. unfold ctl. by rewrite Hc1. }
  rewrite Hwrap. simpl.
  assert (profiles_linked e h2) as Hl2 by by eapply profiles_linked_plinks.
  destruct (link_controls_spec h2) as (h3 & -> & Hsim & Hlen & Hcl);
    [done|by eapply profiles_linked_refs_ok|done|].
  simpl. exists h3. split; [done|]. split; [split_and!|].
  - eapply profiles_linked_plinks; [|done].
    destruct Hsim as [Hp _]. unfold plinks_eq, prof. rewrite Hp.
    apply plinks_eq_refl.
  - by eapply controls_wrapped_sim.
  - done.
  - transitivity (c_data <$> h_controls h2).
    { apply list_eq. intros r. rewrite !list_lookup_fmap.
      destruct Hsim as [_ Hs]. unfold ctl in Hs.
      destruct (Hs r) as [c3 c2 (Hd & _)|]; simpl; [by rewrite Hd|done]. }
    rewrite (wrap_controls_data _ _ _ _ _ Hwrap), Hc1. simpl. f_equal.
    apply list_eq. intros k. rewrite !list_lookup_fmap.
    destruct (seq 0 (length (profiles e)) !! k) as [k'|] eqn:Hk; simpl.
    + apply lookup_seq in Hk as [-> Hk]. simpl.
      destruct (lookup_lt_is_Some_2 (profiles e) k Hk) as [p Hp].
      destruct (linked_profile_exists e h1 k p Hl1 Hp) as (cp & -> & <-).
      by rewrite Hp.
    + apply lookup_ge_None in Hk. rewrite length_seq in Hk.
      by rewrite (lookup_ge_None_2 (profiles e)).
Qed.

Lemma contextualizeEvaluation_spec e :
  ∃ h,
    contextualizeEvaluation e
    = Some ({| e_data := e; e_contains := seq 0 (length (profiles e)) |}, h)
    ∧ contextualized e h.
Proof.
  destruct (contextualizeEvaluation_full e) as (h & ? & ? & _). eauto.
Qed.

Lemma contextualizeEvaluation_inv e ev h :
  contextualizeEvaluation e = Some (ev, h) → contextualized e h.
Proof.
  destruct (contextualizeEvaluation_spec e) as (h' & -> & H).
  by intros [= _ <-].
Qed.

(** ** Parentage and the profile wrappers *)

Lemma parent_of_declared e h k :
  profiles_linked e h →
  parent_of (seq 0 (length (profiles e))) h k
  = declared_parent (profiles e) k.
Proof.
  intros [Hlen Hk]. unfold parent_of, declared_parent, parent_target.
  assert (∀ r, option_Forall2 (λ cp p, p_data cp = p)
                 (prof h r) (profiles e !! r)) as Hrel.
  { intros r. destruct (prof h r) as [cp|] eqn:Hr.
    - destruct (Hk r cp Hr) as (-> & _). by constructor.
    - unfold prof in Hr. apply lookup_ge_None in Hr.
      rewrite (lookup_ge_None_2 (profiles e)) by lia. constructor. }
  f_equal. destruct (Hrel k) as [cp p <-|]; simpl; [|done].
  destruct (parent_profile (p_data cp)); [done|..];
    apply (find_ref_ext (λ cp p, p_data cp = p)); auto;
    by intros x y <-.
Qed.

Lemma up_add ps a b k : up ps (a + b) k = up ps a k ≫= up ps b.
Proof.
  revert k. induction a as [|a IH]; intros k; simpl; [done|].
  destruct (declared_parent ps k) as [j|]; simpl; [apply IH|done].
Qed.

Lemma on_cycle_never_ends ps fuel k m :
  0 < m → up ps m k = Some k → parent_chain_ends fuel ps k = false.
Proof.
  revert k. induction fuel as [|fuel IH]; intros k Hm Hcyc.
  - simpl. destruct m as [|m]; [lia|]. simpl in Hcyc.
    by destruct (declared_parent ps k).
  - simpl. destruct m as [|m]; [lia|]. pose proof Hcyc as Hcyc'.
    simpl in Hcyc. destruct (declared_parent ps k) as [j|] eqn:Hj; [|done].
    simpl in Hcyc. apply (IH j); [lia|].
    replace (S m) with (m + 1) by lia.
    rewrite up_add, Hcyc. simpl. by rewrite Hj.
Qed.

Lemma declared_parent_lt ps k j :
  declared_parent ps k = Some j → k < length ps.
Proof.
  unfold declared_parent. destruct (ps !! k) eqn:Hk; [|done].
  intros _. by apply lookup_lt_Some in Hk.
Qed.

Lemma acyclic_parentage_no_cycle e k m :
  acyclic_parentage e = true → 0 < m → up (profiles e) m k ≠ Some k.
Proof.
  intros Hacyc Hm Hcyc.
  assert (k < length (profiles e)) as Hk.
  { destruct m as [|m]; [lia|]. simpl in Hcyc.
    destruct (declared_parent (profiles e) k) eqn:Hj; [|done].
    by apply declared_parent_lt in Hj. }
  unfold acyclic_parentage in Hacyc. rewrite forallb_forall in Hacyc.
  specialize (Hacyc k). rewrite (on_cycle_never_ends _ _ k m) in Hacyc by done.
  assert (false = true) by (apply Hacyc, in_seq; lia). done.
Qed.

Lemma declared_parent_range ps k j :
  declared_parent ps k = Some j → j < length ps.
Proof.
  unfold declared_parent. destruct (ps !! k) as [p|]; simpl; [|done].
  destruct (parent_profile p); [done|..];
    (destruct (find_ref _ _ _) as [[x|]|] eqn:Hfind; simpl; try done;
     intros [= ->]; apply find_ref_Some in Hfind as [Hin%elem_of_seq _]; lia).
Qed.

Lemma chain_goes_on ps n k :
  parent_chain_ends n ps k = false → is_Some (up ps (S n) k).
Proof.
  revert k. induction n as [|n IH]; intros k; cbn [parent_chain_ends up];
    destruct (declared_parent ps k) as [j|]; simpl; try done.
  exact (IH j).
Qed.

Lemma up_prefix ps a b k : is_Some (up ps (a + b) k) → is_Some (up ps a k).
Proof.
  rewrite up_add. destruct (up ps a k); [by eexists|]. by intros [? ?].
Qed.

Lemma up_range ps m k x :
  k < length ps → up ps m k = Some x → x < length ps.
Proof.
  revert k. induction m as [|m IH]; intros k Hk; simpl.
  - by intros [= <-].
  - destruct (declared_parent ps k) as [j|] eqn:Hj; simpl; [|done].
    apply IH. by eapply declared_parent_range.
Qed.

(** The check is exact: it succeeds if and only if no profile is reached
    from itself by going from parent to parent. *)
Lemma acyclic_parentage_spec e :
  acyclic_parentage e = true
  ↔ ∀ k m, 0 < m → up (profiles e) m k ≠ Some k.
Proof.
  split; [intros H k m; by apply acyclic_parentage_no_cycle|].
  intros Hno. unfold acyclic_parentage. apply forallb_forall.
  intros k [_ Hk]%in_seq. simpl in Hk.
  set (ps := profiles e) in *. set (P := length ps) in *.
  destruct (parent_chain_ends P ps k) eqn:Hends; [done|exfalso].
  apply chain_goes_on in Hends.
  assert (∀ m, m < S P → ∃ x, up ps m k = Some x ∧ x < P) as Hwalk.
  { intros m Hm. destruct (up_prefix ps m (S P - m) k) as [x Hx].
    { by replace (m + (S P - m)) with (S P) by lia. }
    exists x. split; [done|]. by eapply up_range. }
  destruct (nat_pigeonhole (λ m, default 0 (up ps m k)) (S P) P)
    as (i1 & i2 & Hi & Heq); [lia| |].
  { intros m Hm. by destruct (Hwalk m Hm) as (x & -> & ?). }
  destruct (Hwalk i1) as (x & Hx1 & _); [lia|].
  destruct (Hwalk i2) as (x2 & Hx2 & _); [lia|].
  rewrite Hx1, Hx2 in Heq. simpl in Heq. subst x2.
  apply (Hno x (i2 - i1)); [lia|].
  replace i2 with (i1 + (i2 - i1)) in Hx2 by lia.
  by rewrite up_add, Hx1 in Hx2.
Qed.

(** ** The edges between controls *)

Lemma hunt_ancestor_Some h cc eps a :
  hunt_ancestor h cc eps = Some (Some a) →
  ∃ ep cp ca,
    ep ∈ eps ∧ prof h ep = Some cp ∧ a ∈ p_contains cp
    ∧ ctl h a = Some ca ∧ id (c_data ca) = id (c_data cc).
Proof.
  induction eps as [|ep eps IH]; simpl; [done|].
  destruct (prof h ep) as [cp|] eqn:Hep; simpl; [|done].
  destruct (find_ref (ctl h) (same_id_as cc) (p_contains cp))
    as [[a'|]|] eqn:Hfind; simpl; [| |done].
  - intros [= ->]. apply find_ref_Some in Hfind as (Hin & ca & Hca & Hid).
    exists ep, cp, ca. split_and!; try done; [by left|].
    unfold same_id_as in Hid. by apply bool_decide_eq_true in Hid.
  - intros H. destruct (IH H) as (ep' & cp' & ca & ? & ?).
    exists ep', cp', ca. split; [by right|done].
Qed.

Lemma hunt_ancestor_None h cc eps :
  (∀ ep, ep ∈ eps →
     ∃ cp, prof h ep = Some cp
       ∧ ∀ a, a ∈ p_contains cp →
           ∃ c, ctl h a = Some c ∧ id (c_data c) ≠ id (c_data cc)) →
  hunt_ancestor h cc eps = Some None.
Proof.
  induction eps as [|ep eps IH]; intros Heps; simpl; [done|].
  destruct (Heps ep) as (cp & -> & Hcp); [by left|]. simpl.
  assert (find_ref (ctl h) (same_id_as cc) (p_contains cp) = Some None)
    as ->.
  { apply find_ref_None. intros a Ha.
    destruct (Hcp a Ha) as (c & Hc & Hid). exists c. split; [done|].
    unfold same_id_as. by apply bool_decide_eq_false. }
  simpl. apply IH. intros ep' Hep'. apply Heps. by right.
Qed.

Lemma link_target_cases all h r cc sf b :
  ctl h r = Some cc → prof h (c_sourced_from cc) = Some sf →
  link_target all h r = Some (Some b) →
  (p_extends_from sf ≠ []
   ∧ hunt_ancestor h cc (p_extends_from sf) = Some (Some b))
  ∨ (p_extends_from sf = [] ∧ p_extended_by sf = []
     ∧ pick_base all h cc = Some b ∧ b ≠ r).
Proof.
  intros Hr Hsf. unfold link_target, pick_base. rewrite Hr. simpl.
  rewrite Hsf. simpl.
  destruct (p_extends_from sf) as [|ep eps] eqn:Hfrom; simpl.
  - destruct (p_extended_by sf) as [|x xs] eqn:Hby; simpl; [|done].
    destruct (filter_ref _ _ _) as [same_id|]; simpl; [|done].
    destruct (find_ref _ _ _) as [found|]; simpl; [|done].
    destruct (match found with Some c => Some c | None => head same_id end)
      as [base|]; simpl; [|done].
    case_bool_decide; [done|]. intros [= ->]. right. split_and!; done.
  - intros H. left. split; done.
Qed.

Lemma link_target_case_A all h r cc sf :
  ctl h r = Some cc → prof h (c_sourced_from cc) = Some sf →
  p_extends_from sf ≠ [] →
  link_target all h r = hunt_ancestor h cc (p_extends_from sf).
Proof.
  intros Hr Hsf Hne. unfold link_target. rewrite Hr. simpl. rewrite Hsf.
  simpl. by destruct (p_extends_from sf).
Qed.

Lemma link_target_baseline all h r cc sf :
  ctl h r = Some cc → prof h (c_sourced_from cc) = Some sf →
  p_extends_from sf = [] → p_extended_by sf ≠ [] →
  link_target all h r = Some None.
Proof.
  intros Hr Hsf Hfrom Hby. unfold link_target. rewrite Hr. simpl. rewrite Hsf.
  simpl. rewrite Hfrom. simpl. by destruct (p_extended_by sf).
Qed.

Lemma pick_base_id all h cc b :
  pick_base all h cc = Some b →
  ∃ cb, ctl h b = Some cb ∧ id (c_data cb) = id (c_data cc).
Proof.
  unfold pick_base.
  destruct (filter_ref _ _ _) as [same_id|] eqn:Hsame; simpl; [|done].
  pose proof (filter_ref_elem _ _ _ _ Hsame) as Helem.
  assert (b ∈ same_id →
    ∃ cb, ctl h b = Some cb ∧ id (c_data cb) = id (c_data cc)) as Hin.
  { intros (_ & cb & Hcb & Hid)%Helem. exists cb. split; [done|].
    unfold same_id_as in Hid. by apply bool_decide_eq_true in Hid. }
  destruct (find_ref _ _ _) as [[c|]|] eqn:Hfind; simpl; [| |done].
  - intros [= ->]. by apply Hin, (find_ref_Some _ _ _ _ Hfind).
  - intros Hhead. apply Hin. by apply head_Some_elem_of.
Qed.

Lemma pick_base_ext all h cc cc' :
  id (c_data cc) = id (c_data cc') →
  pick_base all h cc = pick_base all h cc'.
Proof.
  intros Hid. unfold pick_base.
  rewrite (filter_ref_ext eq (ctl h) (ctl h)
             (same_id_as cc) (same_id_as cc')); [done| |].
  - intros r. destruct (ctl h r); by constructor.
  - intros x y <-. unfold same_id_as. by rewrite Hid.
Qed.

Lemma next_ancestor e h r :
  contextualized e h → next h r = ancestor_of (seq 0 (steps h)) h r.
Proof.
  intros (_ & _ & Hl). unfold next, ancestor_of, steps.
  destruct (ctl h r) as [c|] eqn:Hr; simpl.
  - destruct (Hl r c Hr) as (_ & -> & _).
    unfold ancestor_of. by destruct (default None _).
  - unfold link_target. by rewrite Hr.
Qed.

Lemma next_link_target e h r b :
  contextualized e h → next h r = Some b →
  link_target (seq 0 (steps h)) h r = Some (Some b).
Proof.
  intros Hctx. rewrite (next_ancestor e) by done. unfold ancestor_of.
  by destruct (link_target _ h r) as [[x|]|]; simpl; intros [= ->].
Qed.

Lemma next_valid e h r b :
  contextualized e h → next h r = Some b → is_Some (ctl h b).
Proof.
  intros Hctx Hnext. pose proof Hctx as (_ & [Hc _] & _).
  pose proof (next_link_target e h r b Hctx Hnext) as Hlt.
  unfold next in Hnext. destruct (ctl h r) as [cc|] eqn:Hr; [|done].
  destruct (Hc r cc Hr) as [_ [sf Hsf]].
  destruct (link_target_cases _ _ _ _ _ _ Hr Hsf Hlt)
    as [[_ Hh]|(_ & _ & Hb & _)].
  - apply hunt_ancestor_Some in Hh as (? & ? & ca & _ & _ & _ & -> & _).
    by eexists.
  - apply pick_base_id in Hb as (cb & -> & _). by eexists.
Qed.

(** An edge of case A runs along declared parentage: the profile of the
    ancestor declares the profile of the descendant as its parent. *)
Lemma hunted_along_parentage e h cc sf b :
  contextualized e h →
  prof h (c_sourced_from cc) = Some sf →
  hunt_ancestor h cc (p_extends_from sf) = Some (Some b) →
  ∃ cb, ctl h b = Some cb
    ∧ declared_parent (profiles e) (c_sourced_from cb)
      = Some (c_sourced_from cc).
Proof.
  intros (Hpl & [_ Hown] & _) Hsf Hh.
  apply hunt_ancestor_Some in Hh as (ep & cp & cb & Hep & Hcp & Hb & Hcb & _).
  exists cb. split; [done|].
  destruct (Hown ep cp Hcp b Hb) as (cb' & Hcb' & <-).
  assert (cb' = cb) as -> by congruence.
  pose proof Hpl as [_ Hk]. destruct (Hk _ _ Hsf) as (_ & _ & _ & Hfrom).
  rewrite Hfrom in Hep. apply list_elem_of_filter in Hep as [Hep _].
  by rewrite <- (parent_of_declared e h).
Qed.

Lemma edge_after_edge e h c' c b :
  contextualized e h →
  next h c' = Some c → next h c = Some b →
  ∃ cc cb, ctl h c = Some cc ∧ ctl h b = Some cb
    ∧ declared_parent (profiles e) (c_sourced_from cb)
      = Some (c_sourced_from cc).
Proof.
  intros Hctx Hin Hout. pose proof Hctx as (Hpl & [Hc Hown] & _).
  pose proof (next_link_target e h _ _ Hctx Hin) as Hlin.
  pose proof (next_link_target e h _ _ Hctx Hout) as Hlout.
  destruct (next_valid e h _ _ Hctx Hin) as [cc Hcc].
  destruct (Hc c cc Hcc) as [_ [sf Hsf]].
  destruct (link_target_cases _ _ _ _ _ _ Hcc Hsf Hlout)
    as [[_ Hh]|(Hfrom & Hby & Hbase & Hne)].
  { destruct (hunted_along_parentage e h cc sf b) as (cb & ? & ?); eauto. }
  exfalso.
  unfold next in Hin. destruct (ctl h c') as [cc'|] eqn:Hcc'; [|done].
  destruct (Hc c' cc' Hcc') as [_ [sf' Hsf']].
  destruct (link_target_cases _ _ _ _ _ _ Hcc' Hsf' Hlin)
    as [[_ Hh']|(_ & _ & Hbase' & _)].
  - destruct (hunted_along_parentage e h cc' sf' c) as (cc0 & Hcc0 & Hpar);
      [done..|].
    assert (cc0 = cc) as -> by congruence.
    pose proof Hpl as [_ Hk]. destruct (Hk _ _ Hsf) as (_ & _ & Hby' & _).
    rewrite (parent_of_declared e h), Hpar, Hby in Hby' by done. done.
  - destruct (pick_base_id _ _ _ _ Hbase') as (cc0 & Hcc0 & Hid).
    assert (cc0 = cc) as -> by congruence.
    rewrite (pick_base_ext _ _ cc cc') in Hbase by done. congruence.
Qed.

Lemma follow_add h a b r : follow h (a + b) r = follow h a r ≫= follow h b.
Proof.
  revert r. induction a as [|a IH]; intros r; simpl; [done|].
  destruct (next h r) as [x|]; simpl; [apply IH|done].
Qed.

Lemma walk_along_parentage e h m c' c d :
  contextualized e h →
  next h c' = Some c → follow h m c = Some d →
  ∃ cc cd, ctl h c = Some cc ∧ ctl h d = Some cd
    ∧ up (profiles e) m (c_sourced_from cd) = Some (c_sourced_from cc).
Proof.
  intros Hctx. revert c' c.
  induction m as [|m IH]; intros c' c Hin; cbn [follow].
  - intros [= <-]. destruct (next_valid e h _ _ Hctx Hin) as [cc Hcc].
    by exists cc, cc.
  - destruct (next h c) as [b|] eqn:Hout; [|done]. intros Hd.
    change (follow h m b = Some d) in Hd.
    destruct (edge_after_edge e h c' c b) as (cc & cb & Hcc & Hcb & Hpar);
      [done..|].
    destruct (IH c b Hout Hd) as (cb' & cd & Hcb' & Hcd & Hup).
    assert (cb' = cb) as -> by congruence.
    exists cc, cd. split_and!; [done..|].
    replace (S m) with (m + 1) by lia.
    rewrite up_add, Hup. simpl. by rewrite Hpar.
Qed.

(** With acyclic parentage no control is reachable from itself. *)
Lemma no_control_cycle e h :
  contextualized e h → acyclic_parentage e = true → acyclic h.
Proof.
  intros Hctx Hacyc r m Hm Hcyc. destruct m as [|m]; [lia|].
  pose proof Hcyc as Hlast. replace (S m) with (m + 1) in Hlast by lia.
  rewrite follow_add in Hlast.
  destruct (follow h m r) as [c'|] eqn:Hc'; [|done]. simpl in Hlast.
  destruct (next h c') as [x|] eqn:Hin; [|done]. simpl in Hlast.
  injection Hlast as ->.
  destruct (walk_along_parentage e h (S m) c' r r)
    as (cc & cd & Hcc & Hcd & Hup); [done..|].
  assert (cd = cc) as -> by congruence.
  by eapply (acyclic_parentage_no_cycle e _ (S m)); [|lia|].
Qed.

(** ** Termination of [root] *)

Lemma root_next h n r c :
  ctl h r = Some c →
  root n h r
  = match next h r with
    | None => Some r
    | Some a => match n with O => None | S n' => root n' h a end
    end.
Proof.
  intros Hr. unfold next. destruct n; simpl; rewrite Hr; simpl;
    by destruct (c_extends_from c).
Qed.

Lemma contextualized_closed e h : contextualized e h → closed h.
Proof.
  intros Hctx. split.
  - intros r a. by apply (next_valid e).
  - intros r c Hr. destruct Hctx as (_ & [Hc _] & _). by apply (Hc r c).
Qed.

Lemma root_unless_follow h n r :
  closed h → is_Some (ctl h r) →
  follow h (S n) r = None → is_Some (root n h r).
Proof.
  intros [Hcl _]. revert r. induction n as [|n IH]; intros r [c Hr] Hf;
    rewrite (root_next h _ r c Hr); cbn [follow] in Hf;
    destruct (next h r) as [a|] eqn:Hnext; try by eexists.
  apply IH; [by eapply Hcl|done].
Qed.

Lemma follow_valid h m r x :
  closed h → is_Some (ctl h r) →
  follow h m r = Some x → is_Some (ctl h x).
Proof.
  intros [Hcl _]. revert r. induction m as [|m IH]; intros r Hr; simpl.
  - by intros [= <-].
  - destruct (next h r) as [a|] eqn:Hnext; simpl; [|done].
    apply IH. by eapply Hcl.
Qed.

Lemma follow_prefix h a b r :
  is_Some (follow h (a + b) r) → is_Some (follow h a r).
Proof.
  rewrite follow_add. destruct (follow h a r); [by eexists|].
  by intros [? ?].
Qed.

(** In a closed acyclic heap the loop of [root] ends within [N] turns. *)
Lemma root_total h r :
  closed h → acyclic h → r < steps h → is_Some (root (steps h) h r).
Proof.
  intros Hcl Hacyc Hr.
  assert (is_Some (ctl h r)) as Hvalid by by apply lookup_lt_is_Some.
  destruct (follow h (S (steps h)) r) as [z|] eqn:Hlong.
  2:{ by apply root_unless_follow. }
  exfalso.
  assert (∀ m, m < S (steps h) →
    ∃ x, follow h m r = Some x ∧ x < steps h) as Hwalk.
  { intros m Hm.
    destruct (follow_prefix h m (S (steps h) - m) r) as [x Hx].
    { replace (m + (S (steps h) - m)) with (S (steps h)) by lia.
      rewrite Hlong. by eexists. }
    exists x. split; [done|].
    apply lookup_lt_is_Some. by eapply follow_valid. }
  destruct (nat_pigeonhole (λ m, default 0 (follow h m r))
              (S (steps h)) (steps h)) as (i1 & i2 & Hi & Heq); [lia| |].
  { intros m Hm. by destruct (Hwalk m Hm) as (x & -> & ?). }
  destruct (Hwalk i1) as (x & Hx1 & _); [lia|].
  destruct (Hwalk i2) as (x2 & Hx2 & _); [lia|].
  rewrite Hx1, Hx2 in Heq. simpl in Heq. subst x2.
  apply (Hacyc x (i2 - i1)); [lia|].
  replace i2 with (i1 + (i2 - i1)) in Hx2 by lia.
  rewrite follow_add, Hx1 in Hx2. done.
Qed.

(** ** The derived views along a chain *)

Lemma root_is_root fuel h r x :
  root fuel h r = Some x →
  ∃ c, ctl h x = Some c ∧ c_extends_from c = [].
Proof.
  revert r. induction fuel as [|fuel IH]; intros r; simpl;
    destruct (ctl h r) as [c|] eqn:Hr; simpl; try done;
    destruct (c_extends_from c) as [|a ?] eqn:Hfrom; try done.
  - intros [= <-]. eauto.
  - intros [= <-]. eauto.
  - apply IH.
Qed.

Lemma root_of_root fuel h x c :
  ctl h x = Some c → c_extends_from c = [] → root fuel h x = Some x.
Proof. intros Hx Hfrom. destruct fuel; simpl; by rewrite Hx; simpl; rewrite Hfrom. Qed.

Lemma root_mono n m h r x :
  root n h r = Some x → n ≤ m → root m h r = Some x.
Proof.
  revert m r. induction n as [|n IH]; intros m r Hroot Hle.
  - destruct (root_is_root _ _ _ _ Hroot) as (c & Hc & Hfrom).
    simpl in Hroot. destruct (ctl h r) as [cr|] eqn:Hr; [|done].
    simpl in Hroot. destruct (c_extends_from cr) eqn:Hfr; [|done].
    injection Hroot as <-. by eapply root_of_root.
  - destruct m as [|m]; [lia|]. simpl in *.
    destruct (ctl h r) as [cr|]; [|done]. simpl in *.
    destruct (c_extends_from cr); [done|]. apply IH; [done|lia].
Qed.

Lemma is_redundant_mono n m h r b :
  is_redundant n h r = Some b → n ≤ m → is_redundant m h r = Some b.
Proof.
  unfold is_redundant. intros H Hle.
  destruct (ctl h r) as [cc|]; [|done]. simpl in *.
  destruct (falsy _); [done|]. destruct (bool_decide _); [done|].
  destruct (c_extends_from cc); [done|].
  destruct (root n h r) as [x|] eqn:Hroot; [|done].
  by rewrite (root_mono n m h r x).
Qed.

Lemma full_code_mono n m h r s :
  full_code n h r = Some s → n ≤ m → full_code m h r = Some s.
Proof.
  revert m r s. induction n as [|n IH]; intros m r s Hfc Hle.
  - destruct m as [|m]; [done|]. simpl in *.
    destruct (ctl h r) as [cc|]; [|done]. simpl in *.
    destruct (c_extends_from cc) as [|a ?]; [done|].
    destruct (is_redundant 0 h r) as [[]|]; simpl in *; try done.
    by destruct (prof h (c_sourced_from cc)).
  - destruct m as [|m]; [lia|]. cbn [full_code] in *.
    destruct (ctl h r) as [cc|]; [|done]. simpl in *.
    destruct (c_extends_from cc) as [|a ?]; [done|].
    destruct (is_redundant (S n) h r) as [b|] eqn:Hred; [|done].
    rewrite (is_redundant_mono (S n) (S m) h r b) by done. simpl in *.
    destruct b.
    + apply IH; [done|lia].
    + destruct (prof h (c_sourced_from cc)) as [sf|]; [|done]. simpl in *.
      destruct (full_code n h a) as [rest|] eqn:Hrest; [|done].
      by rewrite (IH m a rest) by (done || lia).
Qed.

Lemma full_code_total n h r x :
  closed h → root n h r = Some x → is_Some (full_code n h r).
Proof.
  intros [_ Hown]. revert r. induction n as [|n IH]; intros r Hroot.
  - simpl in *. destruct (ctl h r) as [cc|] eqn:Hr; [|done]. simpl in *.
    destruct (c_extends_from cc); [|done].
    destruct (Hown r cc Hr) as [sf ->]. by eexists.
  - destruct (ctl h r) as [cc|] eqn:Hr; [|by simpl in Hroot; rewrite Hr in Hroot].
    assert (is_Some (is_redundant (S n) h r)) as [b Hred].
    { unfold is_redundant.
      destruct (root_is_root _ _ _ _ Hroot) as (c & Hc & _).
      rewrite Hroot, Hr. simpl. rewrite Hc. simpl.
      destruct (falsy _); [by eexists|].
      destruct (bool_decide _); [by eexists|].
      destruct (c_extends_from _); by eexists. }
    cbn [full_code]. rewrite Hred. cbn [root] in Hroot.
    rewrite Hr in *. simpl in *.
    destruct (Hown r cc Hr) as [sf ->].
    destruct (c_extends_from cc) as [|a ?]; [by eexists|].
    destruct (IH a Hroot) as [rest ->]. simpl.
    destruct b; by eexists.
Qed.

(** ** The model at work *)

Example trim_strips_both_ends :
  trim (js "  describe a " ++ [10; 9]%N) = js "describe a".
Proof. reflexivity. Qed.

Example trim_of_blank : trim ([32; 10; 160; 8232]%N) = [].
Proof. reflexivity. Qed.

(** The control of [B] in scenario 1 has no code: its full code is the
    banner alone, the blank lines after it trimmed away. *)
Example full_code_of_a_blank_root :
  (h ← snd <$> contextualizeEvaluation scenario1; full_code (steps h) h 1)
  = Some (rule ++ [10%N] ++ js "# Profile name: B" ++ [10%N] ++ rule).
Proof. vm_compute; reflexivity. Qed.

Example root_in_scenario2 :
  (h ← snd <$> contextualizeEvaluation scenario2; root (steps h) h 0)
  = Some 1.
Proof. vm_compute; reflexivity. Qed.

Example cyclic_parentage_detected :
  acyclic_parentage self_parent = false
  ∧ acyclic_parentage scenario1 = true.
Proof. split; reflexivity. Qed.

(** ** Properties of the overlay graph *)

(** C1 (as stated): in scenario 1 the control of [B] is not given the
    control of [A] as ancestor, so the expectation of the scenario fails. *)
Lemma scenario1_as_stated_fails :
  ¬ ∃ ev h b,
      contextualizeEvaluation scenario1 = Some (ev, h)
      ∧ ctl h 1 = Some b
      ∧ c_extends_from b = [0]
      ∧ is_redundant (steps h) h 1 = Some true
      ∧ full_code (steps h) h 1 = full_code (steps h) h 0.
Proof.
  intros (ev & h & b & Hev & Hb & Hfrom & _).
  vm_compute in Hev. injection Hev as <- <-.
  vm_compute in Hb. injection Hb as <-. discriminate Hfrom.
Qed.

(** C1 (amended): in scenario 1 the link runs the other way.  [B] declares
    [A] as its parent, so [A] extends from [B]: the control [c1] of [A] has
    [extends_from] equal to the one-element list of the [c1] of [B], the
    [c1] of [B] has no ancestor and the [c1] of [A] as only descendant, the
    [c1] of [B] is redundant, the [c1] of [A] is not, and the full code of
    the [c1] of [A] is its own banner and code, a blank line, and the full
    code of the [c1] of [B]. *)
Theorem scenario1_links :
  ∃ ev h a b code_b,
    contextualizeEvaluation scenario1 = Some (ev, h)
    ∧ ctl h 0 = Some a ∧ ctl h 1 = Some b
    ∧ c_extends_from a = [1]
    ∧ c_extends_from b = [] ∧ c_extended_by b = [0]
    ∧ is_redundant (steps h) h 1 = Some true
    ∧ is_redundant (steps h) h 0 = Some false
    ∧ full_code (steps h) h 1 = Some code_b
    ∧ full_code (steps h) h 0
      = Some (trim (banner (js "A") (Str (js "show cmd"))
                    ++ [10; 10]%N ++ code_b)).
Proof.
  eexists _, _, _, _, _.
  split; [vm_compute; reflexivity|].
  split_and!; vm_compute; reflexivity.
Qed.

(** C10: after [contextualizeEvaluation] the [extends_from] list of every
    control has at most one element. *)
Theorem extends_from_at_most_one e ev h r c :
  contextualizeEvaluation e = Some (ev, h) →
  ctl h r = Some c →
  length (c_extends_from c) ≤ 1.
Proof.
  intros (_ & _ & Hl)%contextualizeEvaluation_inv Hr.
  destruct (Hl r c Hr) as (_ & -> & _).
  destruct (ancestor_of _ h r); simpl; lia.
Qed.

Lemma extends_from_at_most_one_witness :
  ∃ ev h c,
    contextualizeEvaluation scenario2 = Some (ev, h)
    ∧ ctl h 0 = Some c
    ∧ length (c_extends_from c) ≤ 1.
Proof.
  eexists _, _, _.
  split; [vm_compute; reflexivity|].
  split; [vm_compute; reflexivity|].
  eapply (extends_from_at_most_one scenario2 _ _ 0); vm_compute; reflexivity.
Defined.

(** C4: of two profiles without declared parent that each hold one control
    with the same id, the control with results is the base of the one with
    an empty result list, whichever profile comes first in the file. *)
Theorem populated_peer_is_base (n1 n2 x : jsstring) (c1 c2 : JsOptString)
    (s : ControlResult) (ss : list ControlResult) :
  (∃ ev h p1x p2x,
     contextualizeEvaluation
       {| profiles := [peer n1 x c1 []; peer n2 x c2 (s :: ss)] |}
     = Some (ev, h)
     ∧ ctl h 0 = Some p1x ∧ c_sourced_from p1x = 0
     ∧ ctl h 1 = Some p2x ∧ c_sourced_from p2x = 1
     ∧ c_extends_from p1x = [1] ∧ c_extended_by p1x = []
     ∧ c_extended_by p2x = [0] ∧ c_extends_from p2x = [])
  ∧ (∃ ev h p2x p1x,
       contextualizeEvaluation
         {| profiles := [peer n2 x c2 (s :: ss); peer n1 x c1 []] |}
       = Some (ev, h)
       ∧ ctl h 0 = Some p2x ∧ c_sourced_from p2x = 0
       ∧ ctl h 1 = Some p1x ∧ c_sourced_from p1x = 1
       ∧ c_extends_from p1x = [0] ∧ c_extended_by p1x = []
       ∧ c_extended_by p2x = [1] ∧ c_extends_from p2x = []).
Proof.
  split; unfold contextualizeEvaluation; cbn; unfold same_id_as; cbn;
    repeat (first [ rewrite bool_decide_eq_true_2 by done
                  | rewrite bool_decide_eq_false_2 by done ]; cbn);
    eexists _, _, _, _; split_and!; reflexivity.
Qed.

Lemma populated_peer_is_base_witness :
  ∃ ev h p1x,
    contextualizeEvaluation scenario2 = Some (ev, h)
    ∧ ctl h 0 = Some p1x ∧ c_extends_from p1x = [1].
Proof.
  destruct (populated_peer_is_base (js "P1") (js "P2") (js "x")
              (Str (js "a")) (Str (js "b")) one_segment [])
    as [(ev & h & p1x & p2x & Hev & H0 & _ & _ & _ & Hfrom & _) _].
  exists ev, h, p1x. split_and!; done.
Defined.

(** ** contextualizeProfile *)

Lemma give_controls h l :
  h_controls (foldl give_control h l)
  = h_controls h ++ ((λ c, ContextualizedControlImp c 0 [] []) <$> l)
  ∧ h_profiles (foldl give_control h l)
    = alter (λ p, set_p_contains
                    (p_contains p ++ seq (length (h_controls h)) (length l)) p)
        0 (h_profiles h).
Proof.
  revert h. induction l as [|c l IH]; intros h; simpl.
  - rewrite !app_nil_r. split; [done|].
    destruct (h_profiles h) as [|p ps]; [done|]. simpl.
    rewrite app_nil_r. by destruct p.
  - destruct (IH (give_control h c)) as [-> ->]. simpl.
    rewrite <- app_assoc. split; [done|].
    destruct (h_profiles h) as [|p ps]; [done|]. simpl.
    rewrite length_app. simpl. rewrite <- app_assoc. simpl.
    by replace (length (h_controls h) + 1) with (S (length (h_controls h)))
      by lia.
Qed.

(** C7: [contextualizeProfile] returns a profile wrapper that is sourced
    from no evaluation and whose controls, the wrapped controls of the
    profile in order, have empty [extends_from] and [extended_by], whatever
    ids the controls bear. *)
Theorem contextualizeProfile_unlinked (Q : AnyProfile) :
  ∃ cp,
    prof (contextualizeProfile Q).2 (contextualizeProfile Q).1 = Some cp
    ∧ p_data cp = Q
    ∧ p_sourced_from cp = None
    ∧ p_extends_from cp = [] ∧ p_extended_by cp = []
    ∧ p_contains cp = seq 0 (length (controls Q))
    ∧ length (h_controls (contextualizeProfile Q).2) = length (controls Q)
    ∧ ∀ r c,
        ctl (contextualizeProfile Q).2 r = Some c →
        controls Q !! r = Some (c_data c)
        ∧ c_sourced_from c = (contextualizeProfile Q).1
        ∧ c_extends_from c = [] ∧ c_extended_by c = [].
Proof.
  unfold contextualizeProfile. simpl.
  set (h0 := {| h_profiles := _; h_controls := [] |}).
  destruct (give_controls h0 (controls Q)) as [Hc Hp].
  unfold prof, ctl. rewrite Hc, Hp. simpl.
  eexists. split; [done|]. simpl. split_and!; try done.
  - by rewrite length_fmap.
  - intros r c (d & -> & Hd)%list_lookup_fmap_Some. done.
Qed.

Lemma contextualizeProfile_unlinked_witness :
  ∃ c1 c2,
    ctl (contextualizeProfile twice_the_same_id).2 0 = Some c1
    ∧ ctl (contextualizeProfile twice_the_same_id).2 1 = Some c2
    ∧ id (c_data c1) = id (c_data c2)
    ∧ c_extends_from c2 = [] ∧ c_extended_by c1 = [].
Proof.
  destruct (contextualizeProfile_unlinked twice_the_same_id)
    as (cp & _ & _ & _ & _ & _ & _ & _ & Hall).
  eexists _, _.
  split; [vm_compute; reflexivity|]. split; [vm_compute; reflexivity|].
  split; [reflexivity|]. split.
  - eapply (Hall 1). vm_compute; reflexivity.
  - eapply (Hall 0). vm_compute; reflexivity.
Defined.

(** ** Failure modes and tie-breaks of the linking passes *)

Lemma declared_parent_unmatched ps k p n :
  ps !! k = Some p → parent_profile p = Str n →
  (∀ q, q ∈ ps → name q ≠ n) →
  declared_parent ps k = None.
Proof.
  intros Hk Hn Hnone. unfold declared_parent. rewrite Hk. simpl. rewrite Hn.
  assert (find_ref (λ r, ps !! r) (λ q, bool_decide (Str (name q) = Str n))
            (seq 0 (length ps)) = Some None) as ->; [|done].
  apply find_ref_None. intros r Hr%elem_of_seq.
  destruct (lookup_lt_is_Some_2 ps r) as [q Hq]; [lia|].
  exists q. split; [done|]. apply bool_decide_eq_false. intros [= Hname].
  by apply (Hnone q); [eapply list_elem_of_lookup_2|].
Qed.

(** C8 (as stated): a declared parent is looked up among all the profiles
    of the evaluation, the declaring profile included.  The only profile of
    [self_parent] names itself: no other profile bears the declared name,
    and yet the profile is linked, to itself. *)
Lemma unmatched_sibling_as_stated_fails :
  ¬ ∃ ev h,
      contextualizeEvaluation self_parent = Some (ev, h)
      ∧ (∀ k p n,
           profiles self_parent !! k = Some p → parent_profile p = Str n →
           (∀ j q, j ≠ k → profiles self_parent !! j = Some q → name q ≠ n) →
           ∃ cp, prof h k = Some cp ∧ p_data cp = p
             ∧ p_extended_by cp = []
             ∧ ∀ j cj, prof h j = Some cj → k ∉ p_extends_from cj)
      ∧ (∀ r cc sf,
           ctl h r = Some cc → prof h (c_sourced_from cc) = Some sf →
           p_extends_from sf ≠ [] ∨ p_extended_by sf ≠ [] →
           (∀ ep cp a c,
              ep ∈ p_extends_from sf → prof h ep = Some cp →
              a ∈ p_contains cp → ctl h a = Some c →
              id (c_data c) ≠ id (c_data cc)) →
           c_extends_from cc = []).
Proof.
  intros (ev & h & Hev & Hnone & _).
  destruct (Hnone 0 _ (js "A") eq_refl eq_refl) as (cp & Hcp & _ & Hby & _).
  { intros [|j] q Hj Hq; [done|]. by destruct j. }
  vm_compute in Hev. injection Hev as <- <-.
  vm_compute in Hcp. injection Hcp as <-. discriminate Hby.
Qed.

(** C8 (amended): [contextualizeEvaluation] returns for every evaluation.
    A profile whose declared parent bears the name of no profile of the
    evaluation, its own name included, takes part in no edge it declared:
    its [extended_by] is empty and it is in the [extends_from] of no
    profile.  A control of case A (its profile extends or is extended by
    some profile) has an empty [extends_from] when none of the profiles its
    profile extends contains a control with its id. *)
Theorem linking_never_raises (e : AnyEval) :
  ∃ ev h,
    contextualizeEvaluation e = Some (ev, h)
    ∧ (∀ k p n,
         profiles e !! k = Some p → parent_profile p = Str n →
         (∀ q, q ∈ profiles e → name q ≠ n) →
         ∃ cp, prof h k = Some cp ∧ p_data cp = p
           ∧ p_extended_by cp = []
           ∧ ∀ j cj, prof h j = Some cj → k ∉ p_extends_from cj)
    ∧ (∀ r cc sf,
         ctl h r = Some cc → prof h (c_sourced_from cc) = Some sf →
         p_extends_from sf ≠ [] ∨ p_extended_by sf ≠ [] →
         (∀ ep cp a c,
            ep ∈ p_extends_from sf → prof h ep = Some cp →
            a ∈ p_contains cp → ctl h a = Some c →
            id (c_data c) ≠ id (c_data cc)) →
         c_extends_from cc = []).
Proof.
  destruct (contextualizeEvaluation_spec e) as (h & Hev & Hpl & Hw & Hl).
  eexists _, h. split; [done|]. split.
  - intros k p n Hk Hn Hnone.
    destruct (linked_profile_exists e h k p Hpl Hk) as (cp & Hcp & Hd).
    exists cp. split_and!; [done..| |].
    + pose proof Hpl as [_ Hprof].
      destruct (Hprof k cp Hcp) as (_ & _ & -> & _).
      rewrite (parent_of_declared e h) by done.
      by rewrite (declared_parent_unmatched _ k p n).
    + intros j cj Hcj Hin. pose proof Hpl as [_ Hprof].
      destruct (Hprof j cj Hcj) as (_ & _ & _ & Hfrom).
      rewrite Hfrom in Hin. apply list_elem_of_filter in Hin as [Hpar _].
      rewrite (parent_of_declared e h) in Hpar by done.
      by rewrite (declared_parent_unmatched _ k p n) in Hpar.
  - intros r cc sf Hr Hsf HcaseA Hnone.
    destruct (Hl r cc Hr) as (_ & -> & _). unfold ancestor_of.
    destruct (decide (p_extends_from sf = [])) as [Hfrom|Hne].
    { destruct HcaseA as [?|Hby]; [done|].
      by rewrite (link_target_baseline _ h r cc sf). }
    rewrite (link_target_case_A _ h r cc sf) by done.
    rewrite hunt_ancestor_None; [done|].
    intros ep' Hep'.
    destruct (profiles_linked_refs_ok e h Hpl _ _ Hsf ep' Hep') as [cp Hcp].
    exists cp. split; [done|]. intros a Ha.
    destruct Hw as [_ Hown]. destruct (Hown ep' cp Hcp a Ha) as (c & Hc & _).
    exists c. split; [done|]. by eapply Hnone.
Qed.

Lemma linking_never_raises_witness :
  ∃ ev h orphan w1,
    contextualizeEvaluation unmatched = Some (ev, h)
    ∧ prof h 0 = Some orphan ∧ p_extended_by orphan = []
    ∧ ctl h 1 = Some w1 ∧ c_extends_from w1 = [].
Proof.
  destruct (linking_never_raises unmatched) as (ev & h & Hev & Hp & Hc).
  exists ev, h.
  destruct (Hp 0 _ (js "missing") eq_refl eq_refl) as (cp & Hcp & _ & Hby & _).
  { intros q Hq Hname. vm_compute in Hq.
    repeat (apply elem_of_cons in Hq as [->|Hq]; [by vm_compute in Hname|]).
    by apply elem_of_nil in Hq. }
  exists cp. vm_compute in Hev. injection Hev as <- <-.
  eexists. split; [vm_compute; reflexivity|].
  split; [exact Hcp|]. split; [exact Hby|].
  split; [vm_compute; reflexivity|].
  eapply (Hc 1); [vm_compute; reflexivity..| |].
  - left. by vm_compute.
  - intros ep cp' a c Hep Hcp' Ha Hca Hid. vm_compute in Hep.
    apply list_elem_of_singleton in Hep as ->. vm_compute in Hcp'.
    injection Hcp' as <-. vm_compute in Ha.
    apply list_elem_of_singleton in Ha as ->. vm_compute in Hca.
    injection Hca as <-. by vm_compute in Hid.
Defined.

(** C5: when the profile of a control extends from [A] and [B], in that
    order, and [A] contains a control with its id, the control is linked to
    the first such control of [A], in both directions, and to no control of
    [B]. *)
Theorem first_extended_profile_wins e ev h r cc W A B cA a ca l1 l2 :
  contextualizeEvaluation e = Some (ev, h) →
  ctl h r = Some cc → prof h (c_sourced_from cc) = Some W →
  p_extends_from W = [A; B] →
  prof h A = Some cA →
  p_contains cA = l1 ++ a :: l2 →
  (∀ x cx, x ∈ l1 → ctl h x = Some cx → id (c_data cx) ≠ id (c_data cc)) →
  ctl h a = Some ca → id (c_data ca) = id (c_data cc) →
  c_extends_from cc = [a]
  ∧ r ∈ c_extended_by ca
  ∧ ∀ cB b cb,
      prof h B = Some cB → b ∈ p_contains cB → ctl h b = Some cb →
      (b ∉ c_extends_from cc) ∧ (r ∉ c_extended_by cb).
Proof.
  intros Hctx%contextualizeEvaluation_inv Hr HW Hfrom HA Hcont Hl1 Ha Hid.
  pose proof Hctx as (Hpl & [Hc Hown] & Hl).
  assert (ancestor_of (seq 0 (length (h_controls h))) h r = Some a) as Hanc.
  { unfold ancestor_of.
    rewrite (link_target_case_A _ h r cc W); [|done|done|by rewrite Hfrom].
    rewrite Hfrom. cbn [hunt_ancestor]. rewrite HA. simpl. rewrite Hcont.
    rewrite (find_ref_first (ctl h) (same_id_as cc) l1 a l2 ca); [done| |done|].
    - intros x Hx. destruct (Hown A cA HA x) as (cx & Hcx & _).
      { rewrite Hcont. apply elem_of_app. by left. }
      exists cx. split; [done|]. apply bool_decide_eq_false. by eapply Hl1.
    - by apply bool_decide_eq_true. }
  destruct (Hl r cc Hr) as (_ & Hcc_from & _).
  rewrite Hanc in Hcc_from. simpl in Hcc_from.
  destruct (Hl a ca Ha) as (_ & _ & Hca_by).
  split; [done|]. split.
  - rewrite Hca_by. apply list_elem_of_filter. split; [done|].
    apply elem_of_seq. apply lookup_lt_Some in Hr. lia.
  - intros cB b cb HB Hb Hcb.
    assert (A ≠ B) as HAB.
    { pose proof Hpl as [_ Hk]. destruct (Hk _ _ HW) as (_ & _ & _ & HWfrom).
      assert (NoDup [A; B]) as Hnd.
      { rewrite <- Hfrom, HWfrom. apply NoDup_filter, NoDup_seq. }
      apply NoDup_cons in Hnd as [Hnot _].
      intros ->. apply Hnot. by left. }
    assert (b ≠ a) as Hba.
    { intros ->. destruct (Hown B cB HB a Hb) as (c1 & Hc1 & Ho1).
      destruct (Hown A cA HA a) as (c2 & Hc2 & Ho2).
      { rewrite Hcont. apply elem_of_app. right. by left. }
      congruence. }
    split.
    + rewrite Hcc_from. by intros ->%list_elem_of_singleton.
    + destruct (Hl b cb Hcb) as (_ & _ & ->).
      intros [Hrb _]%list_elem_of_filter. congruence.
Qed.

Lemma first_extended_profile_wins_witness :
  ∃ ev h wx ax,
    contextualizeEvaluation two_bases = Some (ev, h)
    ∧ ctl h 0 = Some wx ∧ ctl h 1 = Some ax
    ∧ c_extends_from wx = [1] ∧ 0 ∈ c_extended_by ax.
Proof.
  eexists _, _, _, _.
  split; [vm_compute; reflexivity|].
  split; [vm_compute; reflexivity|].
  split; [vm_compute; reflexivity|].
  assert (∀ P Q R : Prop, P ∧ Q ∧ R → P ∧ Q) as Hfirst by tauto.
  eapply Hfirst.
  eapply (first_extended_profile_wins two_bases _ _ 0 _ _ 1 2 _ 1 _ [] []);
    try (vm_compute; reflexivity).
  intros x cx Hx. by apply elem_of_nil in Hx.
Defined.

(** ** The derived views of a contextualized control *)

Lemma absent_or_blank_tests v :
  absent_or_blank v
  ↔ falsy v = true ∨ bool_decide (trim (template v) = []) = true.
Proof.
  destruct v as [| |s]; simpl; [by split; [left|]..|].
  destruct s as [|c s]; simpl; [by split; [left|]|].
  rewrite bool_decide_eq_true. split; [by right|]. by intros [?|?].
Qed.

(** C6: a control is redundant exactly when its raw code is absent or
    blank, or it has an ancestor, its root is computed and its raw code
    equals the raw code of its root.  It is not redundant exactly when its
    code is not blank and it has no ancestor or a root with another code.
    The getter fails to return only for a control that has code and an
    ancestor and whose root is not computed. *)
Theorem is_redundant_iff fuel h this :
  (is_redundant fuel h this = Some true ↔
     ∃ cc, ctl h this = Some cc
       ∧ (absent_or_blank (code (c_data cc))
          ∨ (c_extends_from cc ≠ []
             ∧ ∃ r rc, root fuel h this = Some r ∧ ctl h r = Some rc
                 ∧ code (c_data cc) = code (c_data rc))))
  ∧ (is_redundant fuel h this = Some false ↔
       ∃ cc, ctl h this = Some cc
         ∧ ¬ absent_or_blank (code (c_data cc))
         ∧ (c_extends_from cc = []
            ∨ ∃ r rc, root fuel h this = Some r ∧ ctl h r = Some rc
                ∧ code (c_data cc) ≠ code (c_data rc)))
  ∧ (is_redundant fuel h this = None ↔
       ctl h this = None
       ∨ ∃ cc, ctl h this = Some cc
           ∧ ¬ absent_or_blank (code (c_data cc))
           ∧ c_extends_from cc ≠ []
           ∧ root fuel h this = None).
Proof.
  unfold is_redundant.
  destruct (ctl h this) as [cc|] eqn:Hthis; simpl.
  2: { split_and!.
       - split; [done|]. by intros (? & ? & _).
       - split; [done|]. by intros (? & ? & _).
       - split; [by left|done]. }
  pose proof (absent_or_blank_tests (code (c_data cc))) as Hblank.
  destruct (falsy (code (c_data cc))) eqn:Hfalsy.
  { assert (absent_or_blank (code (c_data cc))) as Hb
      by (apply Hblank; by left).
    split_and!; split; try done.
    - intros _. exists cc. split; [done|]. by left.
    - by intros (? & [= <-] & ? & _).
    - by intros [?|(? & [= <-] & ? & _)]. }
  case_bool_decide as Htrim.
  { assert (absent_or_blank (code (c_data cc))) as Hb
      by (apply Hblank; by right).
    split_and!; split; try done.
    - intros _. exists cc. split; [done|]. by left.
    - by intros (? & [= <-] & ? & _).
    - by intros [?|(? & [= <-] & ? & _)]. }
  assert (¬ absent_or_blank (code (c_data cc))) as Hcode.
  { intros [?|?]%Hblank; done. }
  destruct (c_extends_from cc) as [|a rest] eqn:Hfrom.
  { split_and!; split; try done.
    - intros (? & [= <-] & [?|[Hne _]]); [by destruct Hcode|].
      by rewrite Hfrom in Hne.
    - intros _. exists cc. split_and!; [done..|]. left. by rewrite <- Hfrom.
    - intros [?|(? & [= <-] & _ & Hne & _)]; [done|].
      by rewrite Hfrom in Hne. }
  destruct (root fuel h this) as [r|] eqn:Hroot; simpl.
  2: { split_and!; split; try done.
       - intros (? & [= <-] & [?|(_ & ? & ? & ? & _)]); [|done].
         by destruct Hcode.
       - intros (? & [= <-] & _ & [Hnil|(? & ? & ? & _)]); [|done].
         by rewrite Hfrom in Hnil.
       - intros _. right. exists cc. by rewrite Hfrom. }
  destruct (root_is_root _ _ _ _ Hroot) as (rc & Hrc & _).
  rewrite Hrc. simpl.
  split_and!; split.
  - intros [= Heq%bool_decide_eq_true]. exists cc. split; [done|].
    right. split; [by rewrite Hfrom|]. by exists r, rc.
  - intros (? & [= <-] & [?|(_ & r' & rc' & [= <-] & Hrc' & Heq)]);
      [by destruct Hcode|].
    rewrite Hrc in Hrc'. injection Hrc' as <-.
    by rewrite bool_decide_eq_true_2.
  - intros [= Hne%bool_decide_eq_false]. exists cc. split_and!; [done..|].
    right. by exists r, rc.
  - intros (? & [= <-] & _ & [Hnil|(r' & rc' & [= <-] & Hrc' & Hne)]);
      [by rewrite Hfrom in Hnil|].
    rewrite Hrc in Hrc'. injection Hrc' as <-.
    by rewrite bool_decide_eq_false_2.
  - done.
  - by intros [?|(? & _ & _ & _ & ?)].
Qed.

Lemma is_redundant_iff_witness :
  (∃ ev h,
     contextualizeEvaluation scenario1 = Some (ev, h)
     ∧ is_redundant (steps h) h 0 = Some false)
  ∧ (∃ ev h,
       contextualizeEvaluation self_parent = Some (ev, h)
       ∧ ∀ fuel, is_redundant fuel h 0 = Some true).
Proof.
  split; eexists _, _; (split; [vm_compute; reflexivity|]).
  - match goal with
    | |- is_redundant ?n ?h 0 = _ =>
        apply (proj2 (proj1 (proj2 (is_redundant_iff n h 0))))
    end.
    eexists. split; [vm_compute; reflexivity|].
    split; [by vm_compute|]. right. eexists 1, _.
    split; [vm_compute; reflexivity|].
    split; [vm_compute; reflexivity|]. by vm_compute.
  - intros fuel.
    match goal with
    | |- is_redundant _ ?h 0 = _ =>
        apply (proj2 (proj1 (is_redundant_iff fuel h 0)))
    end.
    eexists. split; [vm_compute; reflexivity|]. left. reflexivity.
Defined.

(** C9: in a closed acyclic graph every control has a root, computed within
    [N] turns of the loop; the root has an empty [extends_from] and is its
    own root. *)
Theorem root_idempotent h r :
  closed h → acyclic h → r < steps h →
  ∃ rt c,
    root (steps h) h r = Some rt
    ∧ root (steps h) h rt = Some rt
    ∧ ctl h rt = Some c ∧ c_extends_from c = [].
Proof.
  intros Hcl Hacyc Hr.
  destruct (root_total h r Hcl Hacyc Hr) as [rt Hrt].
  destruct (root_is_root _ _ _ _ Hrt) as (c & Hc & Hfrom).
  exists rt, c. split_and!; [done| |done..].
  by eapply root_of_root.
Qed.

Lemma root_idempotent_witness :
  ∃ ev h,
    contextualizeEvaluation two_bases = Some (ev, h)
    ∧ closed h ∧ acyclic h ∧ 0 < steps h
    ∧ root (steps h) h 0 = Some 1 ∧ root (steps h) h 1 = Some 1.
Proof.
  destruct (contextualizeEvaluation two_bases) as [[ev h]|] eqn:Hev;
    [|by vm_compute in Hev].
  exists ev, h.
  pose proof (contextualizeEvaluation_inv _ _ _ Hev) as Hctx.
  pose proof (contextualized_closed _ _ Hctx) as Hcl.
  pose proof (no_control_cycle _ _ Hctx eq_refl) as Hacyc.
  vm_compute in Hev. injection Hev as <- <-.
  assert (0 < 3) as Hlt by lia.
  split; [reflexivity|]. split; [exact Hcl|]. split; [exact Hacyc|].
  split; [exact Hlt|].
  destruct (root_idempotent _ 0 Hcl Hacyc Hlt) as (rt & c & H1 & H2 & _).
  vm_compute in H1. injection H1 as <-.
  split; [vm_compute; reflexivity|exact H2].
Defined.

Lemma self_parent_heap :
  ∃ ev h c,
    contextualizeEvaluation self_parent = Some (ev, h)
    ∧ steps h = 1
    ∧ ctl h 0 = Some c ∧ c_extends_from c = [0]
    ∧ is_redundant (steps h) h 0 = Some true
    ∧ (∀ fuel, root fuel h 0 = None)
    ∧ (∀ fuel, full_code fuel h 0 = None).
Proof.
  eexists _, _, _.
  split; [vm_compute; reflexivity|].
  split; [reflexivity|]. split; [reflexivity|]. split; [reflexivity|].
  split; [vm_compute; reflexivity|].
  split; intros fuel; induction fuel as [|fuel IH]; try done.
Qed.

(** C3 (as stated): the evaluation whose only profile names itself as its
    parent links its control to itself, and [root] of that control never
    returns. *)
Lemma termination_as_stated_fails :
  ¬ ∃ ev h,
      contextualizeEvaluation self_parent = Some (ev, h)
      ∧ acyclic h
      ∧ ∀ r, r < control_count self_parent →
          is_Some (root (control_count self_parent) h r).
Proof.
  intros (ev & h & Hev & _ & Hroot).
  destruct self_parent_heap
    as (ev' & h' & c & Hev' & Hsteps & _ & _ & _ & Hnone & _).
  assert (h' = h) as -> by congruence.
  destruct (Hroot 0) as [x Hx]; [vm_compute; lia|]. by rewrite Hnone in Hx.
Qed.

(** C3 (amended): for every evaluation in which no profile is its own
    parent, directly or through other profiles, [contextualizeEvaluation]
    wraps each of the [N] controls once, no control is reachable from itself
    through [extends_from[0]], and [root] of every control returns within
    [N] turns of its loop. *)
Theorem root_terminates e :
  acyclic_parentage e = true →
  ∃ ev h,
    contextualizeEvaluation e = Some (ev, h)
    ∧ steps h = control_count e
    ∧ acyclic h
    ∧ ∀ r, r < control_count e → is_Some (root (control_count e) h r).
Proof.
  intros Hacyc.
  destruct (contextualizeEvaluation_full e) as (h & Hev & Hctx & Hdata).
  assert (steps h = control_count e) as Hn.
  { unfold steps, control_count. by rewrite <- Hdata, length_fmap. }
  eexists _, h. split; [done|]. split; [done|].
  pose proof (no_control_cycle e h Hctx Hacyc) as Hno.
  split; [done|]. rewrite <- Hn. intros r Hr.
  apply root_total; [by eapply contextualized_closed|done..].
Qed.

Lemma root_terminates_witness :
  acyclic_parentage two_bases = true
  ∧ ∃ ev h,
      contextualizeEvaluation two_bases = Some (ev, h)
      ∧ is_Some (root (control_count two_bases) h 0).
Proof.
  split; [reflexivity|].
  destruct (root_terminates two_bases eq_refl)
    as (ev & h & Hev & _ & _ & Hroot).
  exists ev, h. split; [done|]. apply Hroot. vm_compute. lia.
Defined.

Lemma scenario1_blank_root :
  ∃ ev h b,
    contextualizeEvaluation scenario1 = Some (ev, h)
    ∧ ctl h 1 = Some b ∧ c_extends_from b = []
    ∧ is_redundant (steps h) h 1 = Some true.
Proof.
  eexists _, _, _.
  split; [vm_compute; reflexivity|].
  split; [reflexivity|]. split; [reflexivity|]. vm_compute; reflexivity.
Qed.

(** C2 (as stated): a redundant control need not have an ancestor (the
    control of [B] in scenario 1 is blank and is a root), and when the graph
    has a cycle a redundant control with an ancestor has no full code at
    all. *)
Lemma collapse_as_stated_fails :
  ¬ (∀ ev h r cc,
       contextualizeEvaluation scenario1 = Some (ev, h) →
       ctl h r = Some cc →
       is_redundant (steps h) h r = Some true →
       ∃ a s, head (c_extends_from cc) = Some a
         ∧ full_code (steps h) h r = Some s
         ∧ full_code (steps h) h a = Some s)
  ∧ ¬ (∀ ev h r cc a rest,
         contextualizeEvaluation self_parent = Some (ev, h) →
         ctl h r = Some cc → c_extends_from cc = a :: rest →
         is_redundant (steps h) h r = Some true →
         ∃ fuel s, full_code fuel h r = Some s
           ∧ full_code fuel h a = Some s).
Proof.
  split.
  - intros Hclaim.
    destruct scenario1_blank_root as (ev & h & b & Hev & Hb & Hfrom & Hred).
    destruct (Hclaim ev h 1 b Hev Hb Hred) as (a & s & Hhead & _).
    by rewrite Hfrom in Hhead.
  - intros Hclaim.
    destruct self_parent_heap
      as (ev & h & c & Hev & Hsteps & Hc & Hfrom & Hred & _ & Hnone).
    destruct (Hclaim ev h 0 c 0 [] Hev Hc Hfrom Hred) as (fuel & s & Hs & _).
    by rewrite Hnone in Hs.
Qed.

(** C2 (amended): in the acyclic graph of a contextualized evaluation, a
    redundant control that has an ancestor has exactly the full code of
    [extends_from[0]]. *)
Theorem redundant_overlay_collapses e ev h r cc a rest :
  contextualizeEvaluation e = Some (ev, h) → acyclic h →
  ctl h r = Some cc → c_extends_from cc = a :: rest →
  is_redundant (steps h) h r = Some true →
  ∃ s, full_code (steps h) h r = Some s ∧ full_code (steps h) h a = Some s.
Proof.
  intros Hctx%contextualizeEvaluation_inv Hacyc Hr Hfrom Hred.
  pose proof (contextualized_closed e h Hctx) as Hcl.
  assert (r < steps h) as Hlt by by eapply lookup_lt_Some.
  destruct (root_total h r Hcl Hacyc Hlt) as [x Hroot].
  destruct (steps h) as [|n] eqn:Hn; [lia|].
  assert (root n h a = Some x) as Hroot_a.
  { cbn [root] in Hroot. rewrite Hr in Hroot. simpl in Hroot.
    by rewrite Hfrom in Hroot. }
  destruct (full_code_total n h a x Hcl Hroot_a) as [s Hs].
  exists s. split.
  - cbn [full_code]. rewrite Hr. simpl. rewrite Hfrom, Hred. done.
  - apply (full_code_mono n); [done|lia].
Qed.

Lemma redundant_overlay_collapses_witness :
  ∃ ev h wx s,
    contextualizeEvaluation two_bases = Some (ev, h)
    ∧ acyclic h
    ∧ ctl h 0 = Some wx ∧ c_extends_from wx = [1]
    ∧ is_redundant (steps h) h 0 = Some true
    ∧ full_code (steps h) h 0 = Some s ∧ full_code (steps h) h 1 = Some s.
Proof.
  destruct (contextualizeEvaluation two_bases) as [[ev h]|] eqn:Hev;
    [|by vm_compute in Hev].
  pose proof (no_control_cycle _ _ (contextualizeEvaluation_inv _ _ _ Hev)
                eq_refl) as Hacyc.
  assert (∃ wx, ctl h 0 = Some wx ∧ c_extends_from wx = [1]
                ∧ is_redundant (steps h) h 0 = Some true)
    as (wx & Hwx & Hfrom & Hred).
  { vm_compute in Hev. injection Hev as <- <-. eexists.
    split; [reflexivity|]. split; [reflexivity|]. vm_compute; reflexivity. }
  destruct (redundant_overlay_collapses two_bases ev h 0 wx 1 []
              Hev Hacyc Hwx Hfrom Hred) as (s & Hs0 & Hs1).
  exists ev, h, wx, s. split_and!; done.
Defined.

(** ** Further properties of the overlay graph *)

Lemma edges_are_mutual e h r a c ca :
  contextualized e h →
  ctl h r = Some c → ctl h a = Some ca →
  a ∈ c_extends_from c ↔ r ∈ c_extended_by ca.
Proof.
  intros (_ & _ & Hl) Hr Ha.
  destruct (Hl r c Hr) as (_ & -> & _).
  destruct (Hl a ca Ha) as (_ & _ & ->).
  rewrite list_elem_of_filter, elem_of_seq.
  apply lookup_lt_Some in Hr.
  destruct (ancestor_of _ h r) as [x|]; simpl.
  - rewrite list_elem_of_singleton. split; [intros ->; split; [done|lia]|].
    by intros [[= ->] _].
  - split; [by intros ?%elem_of_nil|]. by intros [? _].
Qed.

Lemma edge_shares_id e h r a c ca :
  contextualized e h →
  ctl h r = Some c → ctl h a = Some ca →
  a ∈ c_extends_from c →
  id (c_data ca) = id (c_data c).
Proof.
  intros Hctx Hr Ha Hin.
  pose proof Hctx as (_ & [Hc _] & Hl).
  destruct (Hl r c Hr) as (_ & Hfrom & _). rewrite Hfrom in Hin.
  assert (link_target (seq 0 (length (h_controls h))) h r = Some (Some a))
    as Hlt.
  { unfold ancestor_of in Hin.
    destruct (link_target _ h r) as [[x|]|]; simpl in Hin;
      try by apply elem_of_nil in Hin.
    by apply list_elem_of_singleton in Hin as ->. }
  destruct (Hc r c Hr) as [_ [sf Hsf]].
  destruct (link_target_cases _ _ _ _ _ _ Hr Hsf Hlt)
    as [[_ Hh]|(_ & _ & Hb & _)].
  - apply hunt_ancestor_Some in Hh as (? & ? & ca' & _ & _ & _ & Hca' & Hid).
    congruence.
  - apply pick_base_id in Hb as (ca' & Hca' & Hid). congruence.
Qed.

(** X1: the links between controls are mutual: a control has [a] in its
    [extends_from] exactly when [a] has the control in its [extended_by]. *)
Theorem control_links_are_mutual e ev h r a c ca :
  contextualizeEvaluation e = Some (ev, h) →
  ctl h r = Some c → ctl h a = Some ca →
  a ∈ c_extends_from c ↔ r ∈ c_extended_by ca.
Proof.
  intros Hctx%contextualizeEvaluation_inv. by apply (edges_are_mutual e).
Qed.

Lemma control_links_are_mutual_witness :
  ∃ ev h c ca,
    contextualizeEvaluation scenario2 = Some (ev, h)
    ∧ ctl h 0 = Some c ∧ ctl h 1 = Some ca
    ∧ 1 ∈ c_extends_from c ∧ 0 ∈ c_extended_by ca.
Proof.
  destruct (contextualizeEvaluation scenario2) as [[ev h]|] eqn:Hev;
    [|by vm_compute in Hev].
  assert (∃ c ca, ctl h 0 = Some c ∧ ctl h 1 = Some ca
                  ∧ 1 ∈ c_extends_from c) as (c & ca & Hc & Hca & Hin).
  { vm_compute in Hev. injection Hev as <- <-. eexists _, _.
    split; [reflexivity|]. split; [reflexivity|]. simpl. by left. }
  exists ev, h, c, ca. split_and!; try done.
  by apply (control_links_are_mutual scenario2 ev h 0 1 c ca).
Defined.

(** X2: the links between profiles are mutual, and a profile is pushed on
    the [extends_from] of the parent it declares: [j] is in the
    [extended_by] of profile [k] exactly when [k] is in the [extends_from]
    of profile [j], and exactly when [j] is the declared parent of [k]. *)
Theorem profile_links_are_mutual e ev h k j cp cj :
  contextualizeEvaluation e = Some (ev, h) →
  prof h k = Some cp → prof h j = Some cj →
  (j ∈ p_extended_by cp ↔ k ∈ p_extends_from cj)
  ∧ (j ∈ p_extended_by cp ↔ declared_parent (profiles e) k = Some j).
Proof.
  intros (Hpl & _ & _)%contextualizeEvaluation_inv Hk Hj.
  pose proof Hpl as [Hlen Hprof].
  destruct (Hprof k cp Hk) as (_ & _ & -> & _).
  destruct (Hprof j cj Hj) as (_ & _ & _ & ->).
  rewrite list_elem_of_filter, elem_of_seq, !(parent_of_declared e h) by done.
  apply lookup_lt_Some in Hk. rewrite Hlen in Hk.
  destruct (declared_parent (profiles e) k) as [x|]; simpl.
  - rewrite list_elem_of_singleton. split; split.
    + intros ->. split; [done|lia].
    + by intros [[= ->] _].
    + by intros ->.
    + by intros [= ->].
  - split; split; try done; try by intros ?%elem_of_nil. by intros [? _].
Qed.

Lemma profile_links_are_mutual_witness :
  ∃ ev h cp cj,
    contextualizeEvaluation scenario1 = Some (ev, h)
    ∧ prof h 1 = Some cp ∧ prof h 0 = Some cj
    ∧ 0 ∈ p_extended_by cp ∧ 1 ∈ p_extends_from cj.
Proof.
  destruct (contextualizeEvaluation scenario1) as [[ev h]|] eqn:Hev;
    [|by vm_compute in Hev].
  assert (∃ cp cj, prof h 1 = Some cp ∧ prof h 0 = Some cj
                   ∧ 0 ∈ p_extended_by cp) as (cp & cj & Hcp & Hcj & Hin).
  { vm_compute in Hev. injection Hev as <- <-. eexists _, _.
    split; [reflexivity|]. split; [reflexivity|]. simpl. by left. }
  exists ev, h, cp, cj. split_and!; try done.
  by apply (profile_links_are_mutual scenario1 ev h 1 0 cp cj).
Defined.

(** X3: two linked controls bear the same id. *)
Theorem linked_controls_share_id e ev h r a c ca :
  contextualizeEvaluation e = Some (ev, h) →
  ctl h r = Some c → ctl h a = Some ca →
  a ∈ c_extends_from c →
  id (c_data ca) = id (c_data c).
Proof.
  intros Hctx%contextualizeEvaluation_inv. by apply (edge_shares_id e h r).
Qed.

Lemma linked_controls_share_id_witness :
  ∃ ev h c ca,
    contextualizeEvaluation two_bases = Some (ev, h)
    ∧ ctl h 0 = Some c ∧ ctl h 1 = Some ca
    ∧ 1 ∈ c_extends_from c ∧ id (c_data ca) = id (c_data c).
Proof.
  destruct (contextualizeEvaluation two_bases) as [[ev h]|] eqn:Hev;
    [|by vm_compute in Hev].
  assert (∃ c ca, ctl h 0 = Some c ∧ ctl h 1 = Some ca
                  ∧ 1 ∈ c_extends_from c) as (c & ca & Hc & Hca & Hin).
  { vm_compute in Hev. injection Hev as <- <-. eexists _, _.
    split; [reflexivity|]. split; [reflexivity|]. simpl. by left. }
  exists ev, h, c, ca. split_and!; try done.
  by apply (linked_controls_share_id two_bases ev h 0 1 c ca).
Defined.

(** X4: the root of a control bears the id of the control. *)
Theorem root_shares_id e ev h fuel r rt c crt :
  contextualizeEvaluation e = Some (ev, h) →
  ctl h r = Some c → root fuel h r = Some rt → ctl h rt = Some crt →
  id (c_data crt) = id (c_data c).
Proof.
  intros Hev. pose proof (contextualizeEvaluation_inv _ _ _ Hev) as Hctx.
  revert r c.
  induction fuel as [|fuel IH]; intros r c Hr; rewrite (root_next h _ r c Hr);
    destruct (next h r) as [a|] eqn:Hnext; try done;
    try (intros [= <-] Hrt; congruence).
  intros Hroot Hrt.
  destruct (next_valid e h r a Hctx Hnext) as [ca Ha].
  rewrite (IH a ca Ha Hroot Hrt).
  apply (edge_shares_id e h r a c ca); try done.
  unfold next in Hnext. rewrite Hr in Hnext. simpl in Hnext.
  by apply head_Some_elem_of.
Qed.

Lemma root_shares_id_witness :
  ∃ ev h c crt,
    contextualizeEvaluation two_bases = Some (ev, h)
    ∧ ctl h 0 = Some c ∧ root (steps h) h 0 = Some 1 ∧ ctl h 1 = Some crt
    ∧ id (c_data crt) = id (c_data c).
Proof.
  destruct (contextualizeEvaluation two_bases) as [[ev h]|] eqn:Hev;
    [|by vm_compute in Hev].
  assert (∃ c crt, ctl h 0 = Some c ∧ root (steps h) h 0 = Some 1
                   ∧ ctl h 1 = Some crt) as (c & crt & Hc & Hroot & Hcrt).
  { vm_compute in Hev. injection Hev as <- <-. eexists _, _.
    split; [reflexivity|]. split; [vm_compute|]; reflexivity. }
  exists ev, h, c, crt. split_and!; try done.
  by apply (root_shares_id two_bases ev h (steps h) 0 1 c crt).
Defined.

(** X5: the wrappers keep the report as it is and in its order: the
    evaluation wrapper holds the evaluation and one profile wrapper per
    profile, the profile wrappers hold the profiles in order, and the
    control wrappers hold the controls of all profiles, profile after
    profile, each with the HDF view of its own control. *)
Theorem wrappers_keep_the_report e ev h :
  contextualizeEvaluation e = Some (ev, h) →
  e_data ev = e
  ∧ e_contains ev = seq 0 (length (profiles e))
  ∧ p_data <$> h_profiles h = profiles e
  ∧ c_data <$> h_controls h = mjoin (controls <$> profiles e)
  ∧ (∀ k cp, prof h k = Some cp → p_sourced_from cp = Some TheEvaluation)
  ∧ (∀ r c, ctl h r = Some c → c_hdf c = hdfWrapControl (c_data c)).
Proof.
  destruct (contextualizeEvaluation_full e)
    as (h' & -> & (Hpl & [Hc _] & _) & Hdata).
  intros [= <- <-]. simpl. split_and!; try done.
  - destruct Hpl as [Hlen Hprof]. apply list_eq. intros k.
    rewrite list_lookup_fmap.
    destruct (h_profiles h' !! k) as [cp|] eqn:Hk; simpl.
    + by destruct (Hprof k cp Hk) as (-> & _).
    + apply lookup_ge_None in Hk. rewrite lookup_ge_None_2; [done|lia].
  - intros k cp Hk. destruct Hpl as [_ Hprof].
    by destruct (Hprof k cp Hk) as (_ & ? & _).
  - intros r c Hr. by destruct (Hc r c Hr).
Qed.

Lemma wrappers_keep_the_report_witness :
  ∃ ev h,
    contextualizeEvaluation two_bases = Some (ev, h)
    ∧ e_data ev = two_bases
    ∧ c_data <$> h_controls h = mjoin (controls <$> profiles two_bases).
Proof.
  destruct (contextualizeEvaluation two_bases) as [[ev h]|] eqn:Hev;
    [|by vm_compute in Hev].
  exists ev, h.
  destruct (wrappers_keep_the_report two_bases ev h Hev)
    as (? & _ & _ & ? & _).
  done.
Defined.

(** X7: no link list holds a reference twice, and a profile has at most
    one entry in its [extended_by], the parent it declares. *)
Theorem link_lists_have_no_duplicates e ev h :
  contextualizeEvaluation e = Some (ev, h) →
  (∀ k cp, prof h k = Some cp →
     NoDup (p_extends_from cp) ∧ length (p_extended_by cp) ≤ 1)
  ∧ (∀ r c, ctl h r = Some c →
       NoDup (c_extended_by c) ∧ NoDup (c_extends_from c)).
Proof.
  intros (Hpl & _ & Hl)%contextualizeEvaluation_inv. split.
  - intros k cp Hk. destruct Hpl as [_ Hprof].
    destruct (Hprof k cp Hk) as (_ & _ & -> & ->). split.
    + apply NoDup_filter, NoDup_seq.
    + destruct (parent_of _ h k); simpl; lia.
  - intros r c Hr. destruct (Hl r c Hr) as (_ & -> & ->). split.
    + apply NoDup_filter, NoDup_seq.
    + destruct (ancestor_of _ h r); simpl;
        [apply NoDup_singleton|apply NoDup_nil_2].
Qed.

Lemma link_lists_have_no_duplicates_witness :
  ∃ ev h cp,
    contextualizeEvaluation two_bases = Some (ev, h)
    ∧ prof h 0 = Some cp ∧ p_extends_from cp = [1; 2]
    ∧ NoDup (p_extends_from cp).
Proof.
  destruct (contextualizeEvaluation two_bases) as [[ev h]|] eqn:Hev;
    [|by vm_compute in Hev].
  assert (∃ cp, prof h 0 = Some cp ∧ p_extends_from cp = [1; 2])
    as (cp & Hcp & Hfrom).
  { vm_compute in Hev. injection Hev as <- <-. eexists.
    split; reflexivity. }
  exists ev, h, cp. split_and!; try done.
  destruct (link_lists_have_no_duplicates two_bases ev h Hev) as [Hp _].
  by destruct (Hp 0 cp Hcp).
Defined.

Lemma link_target_case_B all h r cc sf :
  ctl h r = Some cc → prof h (c_sourced_from cc) = Some sf →
  p_extends_from sf = [] → p_extended_by sf = [] →
  link_target all h r
  = b ← pick_base all h cc;
    Some (if bool_decide (r = b) then None else Some b).
Proof.
  intros Hr Hsf Hfrom Hby. unfold link_target, pick_base.
  rewrite Hr. simpl. rewrite Hsf. simpl. rewrite Hfrom, Hby. simpl.
  destruct (filter_ref _ _ _) as [same_id|]; simpl; [|done].
  by destruct (find_ref _ _ _) as [[x|]|].
Qed.

Lemma pick_base_is_its_own_base all h cc b cb :
  pick_base all h cc = Some b → ctl h b = Some cb →
  pick_base all h cb = Some b.
Proof.
  intros Hb Hcb. destruct (pick_base_id _ _ _ _ Hb) as (cb' & Hcb' & Hid).
  assert (cb' = cb) as -> by congruence.
  by rewrite (pick_base_ext _ _ cb cc).
Qed.

Lemma undeclared_parent ps k :
  (∀ p, p ∈ ps → parent_profile p = Undefined) →
  declared_parent ps k = None.
Proof.
  intros Hno. unfold declared_parent.
  destruct (ps !! k) as [p|] eqn:Hk; simpl; [|done].
  by rewrite (Hno p) by by eapply list_elem_of_lookup_2.
Qed.

Lemma unrelated_profiles e h k cp :
  profiles_linked e h →
  (∀ p, p ∈ profiles e → parent_profile p = Undefined) →
  prof h k = Some cp →
  p_extends_from cp = [] ∧ p_extended_by cp = [].
Proof.
  intros Hpl Hno Hk. pose proof Hpl as [_ Hprof].
  destruct (Hprof k cp Hk) as (_ & _ & -> & ->). split.
  - apply elem_of_nil_inv. intros x [Hx _]%list_elem_of_filter.
    rewrite (parent_of_declared e h) in Hx by done.
    by rewrite undeclared_parent in Hx.
  - rewrite (parent_of_declared e h) by done. by rewrite undeclared_parent.
Qed.

(** X8: in an evaluation where no profile declares a parent, the controls
    that bear one id all have the same root, reached in at most one step:
    the peers are siblings under one base, never a chain. *)
Theorem peers_share_one_base e ev h r r' c c' :
  contextualizeEvaluation e = Some (ev, h) →
  (∀ p, p ∈ profiles e → parent_profile p = Undefined) →
  ctl h r = Some c → ctl h r' = Some c' →
  id (c_data c) = id (c_data c') →
  ∃ base, root 1 h r = Some base ∧ root 1 h r' = Some base.
Proof.
  intros Hctx%contextualizeEvaluation_inv Hno Hr Hr' Hid.
  pose proof Hctx as (Hpl & [Hc _] & Hl).
  set (all := seq 0 (length (h_controls h))) in *.
  assert (∀ x cx, ctl h x = Some cx →
    ∃ b, pick_base all h cx = Some b
      ∧ next h x = if bool_decide (x = b) then None else Some b) as Hnext.
  { intros x cx Hx. destruct (Hc x cx Hx) as [_ [sf Hsf]].
    destruct (unrelated_profiles e h _ sf Hpl Hno Hsf) as [Hfrom Hby].
    destruct (Hl x cx Hx) as ([t Ht] & Hcx & _). fold all in Ht, Hcx.
    rewrite (link_target_case_B all h x cx sf) in Ht by done.
    destruct (pick_base all h cx) as [b|] eqn:Hb; [|done].
    exists b. split; [done|]. simpl in Ht. injection Ht as <-.
    rewrite (next_ancestor e) by done. unfold ancestor_of, steps. fold all.
    rewrite (link_target_case_B all h x cx sf) by done. by rewrite Hb. }
  destruct (Hnext r c Hr) as (b & Hb & Hnr).
  destruct (Hnext r' c' Hr') as (b' & Hb' & Hnr').
  rewrite (pick_base_ext all h c c') in Hb by done.
  assert (b' = b) as -> by congruence.
  destruct (pick_base_id _ _ _ _ Hb) as (cb & Hcb & _).
  destruct (Hnext b cb Hcb) as (b2 & Hb2 & Hnb).
  rewrite (pick_base_is_its_own_base all h c' b cb) in Hb2 by done.
  injection Hb2 as <-. rewrite bool_decide_eq_true_2 in Hnb by done.
  exists b. split.
  - rewrite (root_next h 1 r c Hr), Hnr.
    destruct (bool_decide_reflect (r = b)) as [->|_]; [done|].
    by rewrite (root_next h 0 b cb Hcb), Hnb.
  - rewrite (root_next h 1 r' c' Hr'), Hnr'.
    destruct (bool_decide_reflect (r' = b)) as [->|_]; [done|].
    by rewrite (root_next h 0 b cb Hcb), Hnb.
Qed.

Lemma peers_share_one_base_witness :
  ∃ ev h,
    contextualizeEvaluation scenario2 = Some (ev, h)
    ∧ root 1 h 0 = Some 1 ∧ root 1 h 1 = Some 1.
Proof.
  destruct (contextualizeEvaluation scenario2) as [[ev h]|] eqn:Hev;
    [|by vm_compute in Hev].
  assert (∃ c c', ctl h 0 = Some c ∧ ctl h 1 = Some c'
                  ∧ id (c_data c) = id (c_data c')
                  ∧ root 1 h 0 = Some 1) as (c & c' & Hc & Hc' & Hid & H0).
  { vm_compute in Hev. injection Hev as <- <-. eexists _, _.
    split; [reflexivity|]. split; [reflexivity|]. split; reflexivity. }
  destruct (peers_share_one_base scenario2 ev h 0 1 c c' Hev)
    as (base & Hb & Hb'); try done.
  { intros p Hp. vm_compute in Hp.
    repeat (apply elem_of_cons in Hp as [->|Hp]; [reflexivity|]).
    by apply elem_of_nil in Hp. }
  exists ev, h. split; [done|]. split; [done|]. congruence.
Defined.

(** X9: a control whose profile takes part in no declared parentage and
    whose id no other control bears is left without any link. *)
Theorem unique_id_is_never_linked e ev h r c sf :
  contextualizeEvaluation e = Some (ev, h) →
  ctl h r = Some c → prof h (c_sourced_from c) = Some sf →
  p_extends_from sf = [] → p_extended_by sf = [] →
  (∀ r' c', ctl h r' = Some c' → id (c_data c') = id (c_data c) → r' = r) →
  c_extends_from c = [] ∧ c_extended_by c = [].
Proof.
  intros Hev Hr Hsf Hfrom Hby Huniq.
  pose proof (contextualizeEvaluation_inv _ _ _ Hev) as Hctx.
  pose proof Hctx as (_ & _ & Hl).
  destruct (Hl r c Hr) as ([t Ht] & Hcfrom & Hcby).
  assert (c_extends_from c = []) as Hnone.
  { rewrite Hcfrom. unfold ancestor_of. rewrite Ht. simpl.
    rewrite (link_target_case_B _ h r c sf) in Ht by done.
    destruct (pick_base _ h c) as [b|] eqn:Hb; [|done].
    destruct (pick_base_id _ _ _ _ Hb) as (cb & Hcb & Hid).
    rewrite (Huniq b cb Hcb Hid) in Ht. simpl in Ht.
    rewrite bool_decide_eq_true_2 in Ht by done. by injection Ht as <-. }
  split; [done|].
  apply elem_of_nil_inv. intros x Hx.
  assert (is_Some (ctl h x)) as [cx Hcx].
  { rewrite Hcby in Hx. apply list_elem_of_filter in Hx as [_ Hx].
    apply elem_of_seq in Hx. apply lookup_lt_is_Some. lia. }
  apply (edges_are_mutual e h x r cx c Hctx Hcx Hr) in Hx.
  pose proof (edge_shares_id e h x r cx c Hctx Hcx Hr Hx) as Hid.
  assert (x = r) as -> by (by apply (Huniq x cx)).
  assert (cx = c) as -> by congruence.
  rewrite Hnone in Hx. by apply elem_of_nil in Hx.
Qed.

Lemma unique_id_is_never_linked_witness :
  ∃ ev h c,
    contextualizeEvaluation unmatched = Some (ev, h)
    ∧ ctl h 0 = Some c
    ∧ c_extends_from c = [] ∧ c_extended_by c = [].
Proof.
  destruct (contextualizeEvaluation unmatched) as [[ev h]|] eqn:Hev;
    [|by vm_compute in Hev].
  assert (∃ c sf, ctl h 0 = Some c ∧ prof h (c_sourced_from c) = Some sf
                  ∧ p_extends_from sf = [] ∧ p_extended_by sf = []
                  ∧ ∀ r' c', ctl h r' = Some c' →
                      id (c_data c') = id (c_data c) → r' = 0)
    as (c & sf & Hc & Hsf & Hfrom & Hby & Huniq).
  { vm_compute in Hev. injection Hev as <- <-. eexists _, _.
    split; [reflexivity|]. split; [reflexivity|].
    split; [reflexivity|]. split; [reflexivity|].
    intros r' c' Hr' Hid.
    destruct r' as [|[|[|r']]]; [done|..]; vm_compute in Hr';
      [injection Hr' as <-; by vm_compute in Hid..|done]. }
  exists ev, h, c. split; [done|]. split; [done|].
  by apply (unique_id_is_never_linked unmatched ev h 0 c sf).
Defined.

(** ** [trim] and the full code *)

Lemma trimStart_head s c t :
  trimStart s = c :: t → is_white_space c = false.
Proof.
  induction s as [|x s IH]; simpl; [done|].
  destruct (is_white_space x) eqn:Hx; [done|]. by intros [= <- _].
Qed.

Lemma trimStart_fixed c t :
  is_white_space c = false → trimStart (c :: t) = c :: t.
Proof. intros Hc. simpl. by rewrite Hc. Qed.

Lemma trimStart_idemp s : trimStart (trimStart s) = trimStart s.
Proof.
  destruct (trimStart s) as [|c t] eqn:Hs; [done|].
  apply trimStart_fixed. by eapply trimStart_head.
Qed.

Lemma trimStart_suffix s : ∃ p, s = p ++ trimStart s.
Proof.
  induction s as [|x s [p IH]]; simpl; [by exists []|].
  destruct (is_white_space x); [|by exists []].
  exists (x :: p). simpl. by rewrite <- IH.
Qed.

Lemma trimStart_app l m :
  trimStart m = m → m ≠ [] → trimStart (l ++ m) = trimStart l ++ m.
Proof.
  intros Hm Hne. induction l as [|x l IH]; simpl; [done|].
  by destruct (is_white_space x).
Qed.

Lemma trim_idemp s : trim (trim s) = trim s.
Proof.
  unfold trim. set (t := trimStart s). set (u := trimStart (reverse t)).
  assert (trimStart (reverse u) = reverse u) as ->.
  { destruct (reverse u) as [|c w] eqn:Hu; [done|].
    apply trimStart_fixed.
    destruct (trimStart_suffix (reverse t)) as [p Hp]. fold u in Hp.
    apply (f_equal reverse) in Hp.
    rewrite reverse_involutive, reverse_app, Hu in Hp.
    by apply (trimStart_head s c (w ++ reverse p)). }
  rewrite reverse_involutive. unfold u. by rewrite trimStart_idemp.
Qed.

Lemma trim_keeps_prefix a x :
  a ≠ [] → Forall (λ c, is_white_space c = false) a →
  trim (a ++ x) = a ++ reverse (trimStart (reverse x)).
Proof.
  intros Hne Ha. unfold trim.
  assert (trimStart (a ++ x) = a ++ x) as ->.
  { destruct a as [|c a]; [done|]. apply Forall_cons in Ha as [Hc _].
    by apply trimStart_fixed. }
  rewrite reverse_app, trimStart_app.
  - by rewrite reverse_app, reverse_involutive.
  - destruct (reverse a) as [|c w] eqn:Hr; [done|]. apply trimStart_fixed.
    rewrite Forall_forall in Ha. apply Ha.
    apply elem_of_reverse. rewrite Hr. by left.
  - intros Hr. apply Hne. apply (f_equal reverse) in Hr.
    by rewrite reverse_involutive in Hr.
Qed.

Lemma rule_has_no_blank : Forall (λ c, is_white_space c = false) rule.
Proof. unfold rule. repeat (constructor; [reflexivity|]). constructor. Qed.

Lemma full_code_shape (P : jsstring → Prop) fuel h r s :
  (∀ n c, P (trim (banner n c))) →
  (∀ n c rest, P rest → P (trim (banner n c ++ [10; 10]%N ++ rest))) →
  full_code fuel h r = Some s → P s.
Proof.
  intros Hroot Hstep. revert r s.
  induction fuel as [|fuel IH]; intros r s; cbn [full_code];
    destruct (ctl h r) as [cc|]; simpl; try done;
    destruct (c_extends_from cc) as [|a rest];
    try (destruct (prof h (c_sourced_from cc)); simpl; [|done];
         intros [= <-]; apply Hroot).
  - destruct (is_redundant 0 h r) as [[]|]; simpl; try done.
    by destruct (prof h (c_sourced_from cc)).
  - destruct (is_redundant (S fuel) h r) as [[]|]; simpl; try done.
    + apply IH.
    + destruct (prof h (c_sourced_from cc)); simpl; [|done].
      destruct (full_code fuel h a) as [code_a|] eqn:Ha; simpl; [|done].
      intros [= <-]. apply Hstep. by apply (IH a).
Qed.

(** X10: whatever the graph, the full code of a control has no whitespace
    at either end: trimming it again changes nothing. *)
Theorem full_code_is_trimmed fuel h r s :
  full_code fuel h r = Some s → trim s = s.
Proof.
  apply (full_code_shape (λ s, trim s = s)); intros; apply trim_idemp.
Qed.

Lemma full_code_is_trimmed_witness :
  ∃ ev h s,
    contextualizeEvaluation scenario1 = Some (ev, h)
    ∧ full_code (steps h) h 0 = Some s ∧ trim s = s.
Proof.
  destruct (contextualizeEvaluation scenario1) as [[ev h]|] eqn:Hev;
    [|by vm_compute in Hev].
  destruct (full_code (steps h) h 0) as [s|] eqn:Hs.
  - exists ev, h, s. split_and!; try done.
    by apply (full_code_is_trimmed (steps h) h 0).
  - vm_compute in Hev. injection Hev as <- <-. by vm_compute in Hs.
Defined.

(** X11: whatever the graph, the full code of a control starts with the
    rule of its banner; in particular it is never empty. *)
Theorem full_code_starts_with_rule fuel h r s :
  full_code fuel h r = Some s → ∃ t, s = rule ++ t.
Proof.
  apply (full_code_shape (λ s, ∃ t, s = rule ++ t)).
  - intros n c. unfold banner. rewrite trim_keeps_prefix; [by eexists|done|].
    apply rule_has_no_blank.
  - intros n c rest _. unfold banner. rewrite <- app_assoc.
    rewrite trim_keeps_prefix; [by eexists|done|]. apply rule_has_no_blank.
Qed.

Lemma full_code_starts_with_rule_witness :
  ∃ ev h s,
    contextualizeEvaluation scenario1 = Some (ev, h)
    ∧ full_code (steps h) h 1 = Some s ∧ ∃ t, s = rule ++ t.
Proof.
  destruct (contextualizeEvaluation scenario1) as [[ev h]|] eqn:Hev;
    [|by vm_compute in Hev].
  destruct (full_code (steps h) h 1) as [s|] eqn:Hs.
  - exists ev, h, s. split_and!; try done.
    by apply (full_code_starts_with_rule (steps h) h 1).
  - vm_compute in Hev. injection Hev as <- <-. by vm_compute in Hs.
Defined.

(** X12: in the wrapper of a stand-alone profile every control is its own
    root, is redundant exactly when its code is absent or blank, and has as
    full code its own code under the banner of the profile. *)
Theorem stand_alone_views Q fuel r c :
  ctl (contextualizeProfile Q).2 r = Some c →
  root fuel (contextualizeProfile Q).2 r = Some r
  ∧ is_redundant fuel (contextualizeProfile Q).2 r
    = Some (falsy (code (c_data c))
            || bool_decide (trim (template (code (c_data c))) = []))
  ∧ full_code fuel (contextualizeProfile Q).2 r
    = Some (trim (banner (name Q) (code (c_data c)))).
Proof.
  unfold contextualizeProfile. simpl.
  set (h0 := {| h_profiles := _; h_controls := [] |}).
  destruct (give_controls h0 (controls Q)) as [Hc Hp].
  set (h := foldl give_control h0 (controls Q)) in *.
  intros Hr. pose proof Hr as Hr'. unfold ctl in Hr'. rewrite Hc in Hr'.
  simpl in Hr'. apply list_lookup_fmap_Some in Hr' as (d & -> & Hd).
  assert (∃ p, prof h 0 = Some p ∧ p_data p = Q) as (p & Hprof & Hdata).
  { unfold prof. rewrite Hp. simpl. eexists. split; reflexivity. }
  split_and!.
  - destruct fuel; simpl; by rewrite Hr.
  - unfold is_redundant. rewrite Hr. simpl.
    destruct (falsy (code d)); [done|]. by destruct (bool_decide _).
  - destruct fuel; simpl; rewrite Hr; simpl; rewrite Hprof; simpl;
      by rewrite Hdata.
Qed.

Lemma stand_alone_views_witness :
  ∃ c,
    ctl (contextualizeProfile twice_the_same_id).2 1 = Some c
    ∧ root 0 (contextualizeProfile twice_the_same_id).2 1 = Some 1
    ∧ is_redundant 0 (contextualizeProfile twice_the_same_id).2 1
      = Some false.
Proof.
  eexists. split; [vm_compute; reflexivity|].
  match goal with
  | |- root 0 ?h 1 = _ ∧ _ =>
      destruct (stand_alone_views twice_the_same_id 0 1 _ eq_refl)
        as (Hroot & Hred & _)
  end.
  split; [exact Hroot|]. rewrite Hred. vm_compute. reflexivity.
Defined.

(** X13: in an evaluation in which no profile is its own parent, directly
    or through other profiles, [is_redundant] and [full_code] return for
    every control, within [N] turns of the loop of [root] and [N] nested
    calls. *)
Theorem views_return e :
  acyclic_parentage e = true →
  ∃ ev h,
    contextualizeEvaluation e = Some (ev, h)
    ∧ ∀ r, r < steps h →
        is_Some (is_redundant (steps h) h r)
        ∧ is_Some (full_code (steps h) h r).
Proof.
  intros Hacyc.
  destruct (contextualizeEvaluation_spec e) as (h & Hev & Hctx).
  eexists _, h. split; [done|]. intros r Hr.
  pose proof (contextualized_closed e h Hctx) as Hcl.
  destruct (root_total h r Hcl (no_control_cycle e h Hctx Hacyc) Hr)
    as [rt Hrt].
  split; [|by eapply full_code_total].
  unfold is_redundant. rewrite Hrt.
  destruct (root_is_root _ _ _ _ Hrt) as (crt & Hcrt & _).
  destruct (ctl h r) as [c|] eqn:Hc; simpl.
  - rewrite Hcrt. simpl. destruct (falsy _); [by eexists|].
    destruct (bool_decide _); [by eexists|].
    destruct (c_extends_from c); by eexists.
  - apply lookup_ge_None in Hc. unfold steps in Hr. lia.
Qed.

Lemma views_return_witness :
  acyclic_parentage two_bases = true
  ∧ ∃ ev h,
      contextualizeEvaluation two_bases = Some (ev, h)
      ∧ is_Some (full_code (steps h) h 0).
Proof.
  split; [reflexivity|].
  destruct (views_return two_bases eq_refl) as (ev & h & Hev & Hall).
  exists ev, h. split; [done|]. apply Hall.
  vm_compute in Hev. injection Hev as <- <-. vm_compute. lia.
Defined.

(** ** Parents and containment *)

Lemma find_ref_Some_first {A : Type} (d : nat → option A) f refs a :
  find_ref d f refs = Some (Some a) →
  ∃ l1 l2, refs = l1 ++ a :: l2
    ∧ ∀ r, r ∈ l1 → ∃ y, d r = Some y ∧ f y = false.
Proof.
  induction refs as [|r refs IH]; simpl; [done|].
  destruct (d r) as [x|] eqn:Hx; simpl; [|done].
  destruct (f x) eqn:Hf.
  - intros [= <-]. exists [], refs. split; [done|].
    by intros ? ?%elem_of_nil.
  - intros H. destruct (IH H) as (l1 & l2 & -> & Hl1).
    exists (r :: l1), l2. split; [done|].
    intros r' [->|Hr']%elem_of_cons; eauto.
Qed.

Lemma declared_parent_first ps k j :
  declared_parent ps k = Some j →
  ∃ p n q,
    ps !! k = Some p ∧ parent_profile p = Str n
    ∧ ps !! j = Some q ∧ name q = n
    ∧ ∀ j' q', j' < j → ps !! j' = Some q' → name q' ≠ n.
Proof.
  unfold declared_parent. destruct (ps !! k) as [p|] eqn:Hk; simpl; [|done].
  destruct (parent_profile p) as [| |n] eqn:Hn; simpl; [done| |].
  - destruct (find_ref _ _ _) as [[x|]|] eqn:Hfind; simpl; try done.
    apply find_ref_Some in Hfind as (_ & q & _ & Hq).
    first [done | by apply bool_decide_eq_true in Hq].
  - destruct (find_ref _ _ _) as [[x|]|] eqn:Hfind; simpl; try done.
    intros [= ->]. pose proof Hfind as (_ & q & Hq & Hname)%find_ref_Some.
    apply bool_decide_eq_true in Hname. injection Hname as Hname.
    exists p, n, q. split_and!; try done.
    apply find_ref_Some_first in Hfind as (l1 & l2 & Hseq & Hl1).
    assert (length l1 = j) as Hlen.
    { assert (seq 0 (length ps) !! length l1 = Some j) as Hl.
      { rewrite Hseq. by rewrite list_lookup_middle. }
      apply lookup_seq in Hl. lia. }
    intros j' q' Hlt Hq' Heq.
    assert (j' ∈ l1) as Hin.
    { destruct (lookup_lt_is_Some_2 l1 j') as [x Hx]; [lia|].
      assert (seq 0 (length ps) !! j' = Some x) as Hl.
      { rewrite Hseq. by apply lookup_app_l_Some. }
      apply lookup_seq in Hl as [-> _]. by eapply list_elem_of_lookup_2. }
    destruct (Hl1 j' Hin) as (y & Hy & Hfy).
    apply bool_decide_eq_false in Hfy. apply Hfy. congruence.
Qed.

(** X14: a declared parent is resolved to the first profile of that name:
    when [k] is in the [extends_from] of profile [j], profile [k] declares
    the name of [j] as its parent and no profile before [j] bears that
    name. *)
Theorem parent_is_first_of_its_name e ev h j cj k :
  contextualizeEvaluation e = Some (ev, h) →
  prof h j = Some cj → k ∈ p_extends_from cj →
  ∃ p,
    profiles e !! k = Some p
    ∧ parent_profile p = Str (name (p_data cj))
    ∧ ∀ j' q, j' < j → profiles e !! j' = Some q →
        name q ≠ name (p_data cj).
Proof.
  intros (Hpl & _ & _)%contextualizeEvaluation_inv Hj Hin.
  pose proof Hpl as [_ Hprof].
  destruct (Hprof j cj Hj) as (Hdata & _ & _ & Hfrom).
  rewrite Hfrom in Hin. apply list_elem_of_filter in Hin as [Hpar _].
  rewrite (parent_of_declared e h) in Hpar by done.
  apply declared_parent_first in Hpar
    as (p & n & q & Hk & Hn & Hq & Hname & Hfirst).
  assert (q = p_data cj) as -> by congruence. subst n.
  exists p. split_and!; done.
Qed.

Lemma parent_is_first_of_its_name_witness :
  ∃ ev h first second,
    contextualizeEvaluation same_name_twice = Some (ev, h)
    ∧ prof h 0 = Some first ∧ prof h 1 = Some second
    ∧ name (p_data first) = name (p_data second)
    ∧ p_extends_from first = [2] ∧ p_extends_from second = [].
Proof.
  destruct (contextualizeEvaluation same_name_twice) as [[ev h]|] eqn:Hev;
    [|by vm_compute in Hev].
  assert (∃ first second, prof h 0 = Some first ∧ prof h 1 = Some second
            ∧ name (p_data first) = name (p_data second)
            ∧ p_extends_from first = [2])
    as (first & second & H0 & H1 & Hname & Hfrom).
  { vm_compute in Hev. injection Hev as <- <-. eexists _, _.
    split_and!; reflexivity. }
  exists ev, h, first, second. split_and!; try done.
  apply elem_of_nil_inv. intros k Hk.
  destruct (parent_is_first_of_its_name same_name_twice ev h 1 second k
              Hev H1 Hk) as (p & _ & _ & Hfirst).
  apply (Hfirst 0 (p_data first)); [lia| |done].
  vm_compute in Hev. injection Hev as <- <-. vm_compute in H0.
  injection H0 as <-. reflexivity.
Defined.

Lemma wrap_controls_owns_step h all r h' all' done :
  wrap_controls (h, all) r = Some (h', all') →
  r ∉ done → controls_wrapped h →
  (∀ x c, ctl h x = Some c → c_sourced_from c ∈ done) →
  (∀ k cp, k ∈ done → prof h k = Some cp → owns h k cp) →
  (∀ x c, ctl h' x = Some c → c_sourced_from c ∈ done ++ [r])
  ∧ (∀ k cp, k ∈ done ++ [r] → prof h' k = Some cp → owns h' k cp).
Proof.
  unfold wrap_controls.
  destruct (prof h r) as [profile|] eqn:Hr; simpl; [|done].
  intros [= <- <-] Hfresh [_ Hres] Hsrc Hown.
  set (fresh := (λ c, ContextualizedControlImp c r [] [])
                  <$> controls (p_data profile)).
  set (base := length (h_controls h)).
  assert (∀ x c, (h_controls h ++ fresh) !! x = Some c →
    (x < base ∧ ctl h x = Some c)
    ∨ (base ≤ x ∧ x < base + length fresh ∧ c_sourced_from c = r))
    as Hsplit.
  { intros x c [Hx|[Hlen Hx]]%lookup_app_Some.
    - left. split; [by eapply lookup_lt_Some|done].
    - right. split; [done|]. split.
      + apply lookup_lt_Some in Hx. unfold base. lia.
      + apply list_lookup_fmap_Some in Hx as (d & -> & _). done. }
  split.
  - intros x c Hx. unfold ctl in Hx. simpl in Hx.
    apply Hsplit in Hx as [[_ Hx]|(_ & _ & ->)]; apply elem_of_app.
    + left. by eapply Hsrc.
    + right. by left.
  - intros k cp Hk. unfold prof, ctl. simpl. rewrite list_lookup_alter.
    case_decide as Hkr.
    + subst k. unfold prof in Hr. rewrite Hr. simpl. intros [= <-].
      split; simpl.
      * apply list_eq. intros i. rewrite !list_lookup_fmap.
        destruct (decide (i < length fresh)) as [Hi|Hi].
        -- rewrite lookup_seq_lt by done. simpl. unfold ctl. simpl.
           rewrite lookup_app_r by (unfold base; lia).
           replace (base + i - length (h_controls h)) with i
             by (unfold base; lia).
           unfold fresh in *. rewrite list_lookup_fmap.
           rewrite length_fmap in Hi.
           by destruct (lookup_lt_is_Some_2 _ _ Hi) as [d ->].
        -- rewrite lookup_seq_ge by lia. simpl.
           unfold fresh in Hi. rewrite length_fmap in Hi.
           by rewrite lookup_ge_None_2 by lia.
      * intros x c Hx. rewrite elem_of_seq.
        apply Hsplit in Hx as [[Hlt Hx]|(Hge & Hlt & ->)].
        -- split; [unfold base in *; lia|]. intros <-.
           destruct Hfresh. by eapply Hsrc.
        -- split; [done|]. intros _. unfold base in *. lia.
    + intros Hcp. apply elem_of_app in Hk as [Hk|Hk%list_elem_of_singleton];
        [|done].
      destruct (Hown k cp Hk Hcp) as [Hdata Hiff].
      assert (∀ x, x ∈ p_contains cp → x < base) as Hold.
      { intros x Hx. destruct (Hres k cp Hcp x Hx) as (c & Hc & _).
        by eapply lookup_lt_Some. }
      split.
      * rewrite <- Hdata. apply list_fmap_ext. intros i x Hx.
        unfold ctl. simpl. rewrite lookup_app_l; [done|].
        apply Hold. by eapply list_elem_of_lookup_2.
      * intros x c Hx. apply Hsplit in Hx as [[_ Hx]|(Hge & _ & ->)].
        -- by apply Hiff.
        -- split; [|by intros <-]. intros Hin%Hold. lia.
Qed.

Lemma wrap_controls_owns xs h all h' all' done :
  for_of wrap_controls xs (h, all) = Some (h', all') →
  NoDup xs → (∀ x, x ∈ xs → x ∉ done) →
  all = seq 0 (length (h_controls h)) →
  controls_wrapped h → unlinked h →
  (∀ x c, ctl h x = Some c → c_sourced_from c ∈ done) →
  (∀ k cp, k ∈ done → prof h k = Some cp → owns h k cp) →
  ∀ k cp, k ∈ done ++ xs → prof h' k = Some cp → owns h' k cp.
Proof.
  revert h all done.
  induction xs as [|r xs IH];
    intros h all done Hfor Hnd Hnew Hall Hw Hun Hsrc Hown; cbn [for_of] in Hfor.
  - injection Hfor as <- <-. rewrite app_nil_r. apply Hown.
  - destruct (wrap_controls (h, all) r) as [[h1 all1]|] eqn:Hstep; [|done].
    simpl in Hfor. apply NoDup_cons in Hnd as [Hr Hnd].
    destruct (wrap_controls_step _ _ _ _ _ Hstep Hall Hw Hun)
      as (Hall1 & Hw1 & Hun1 & _).
    destruct (wrap_controls_owns_step _ _ _ _ _ done Hstep) as [Hsrc1 Hown1];
      try done.
    { apply Hnew. by left. }
    intros k cp Hk. apply (IH h1 all1 (done ++ [r])); try done.
    + intros x Hx [Hd|Hxr%list_elem_of_singleton]%elem_of_app;
        [|by subst].
      apply (Hnew x); [by right|done].
    + by rewrite <- app_assoc.
Qed.

Lemma owns_sim h h' k cp :
  sim h' h → owns h k cp → owns h' k cp.
Proof.
  intros [_ Hs] [Hdata Hiff].
  assert (∀ x, option_Forall2 same_static (ctl h' x) (ctl h x)) as Hs' by done.
  split.
  - rewrite <- Hdata. apply list_fmap_ext. intros _ x _.
    destruct (Hs' x) as [c' c (Hd & _)|]; simpl; [by rewrite Hd|done].
  - intros x c' Hx. pose proof (Hs' x) as Hsx. rewrite Hx in Hsx.
    inversion Hsx as [c0 c Hst Hc0 Hc|]; subst.
    destruct Hst as (_ & -> & _). by apply Hiff.
Qed.

Lemma contextualizeEvaluation_owns e ev h k cp :
  contextualizeEvaluation e = Some (ev, h) →
  prof h k = Some cp → owns h k cp.
Proof.
  unfold contextualizeEvaluation. rewrite length_fmap.
  destruct (link_profiles_spec e) as (h1 & -> & Hc1 & Hl1 & Hcont1).
  simpl.
  assert (controls_wrapped h1) as Hw1.
  { split.
    - intros r c. unfold ctl. by rewrite Hc1.
    - intros j cj Hj r. rewrite (Hcont1 j cj Hj). by intros ?%elem_of_nil. }
  assert (unlinked h1) as Hun1.
  { intros r c. unfold ctl. by rewrite Hc1. }
  destruct (wrap_controls_loop (seq 0 (length (profiles e))) h1 [])
    as (h2 & all & Hwrap & -> & Hw2 & Hun2 & Heq2); try done.
  { intros r Hr%elem_of_seq. unfold prof. apply lookup_lt_is_Some.
    destruct Hl1 as [-> _]. lia. }
  { by rewrite Hc1. }
  rewrite Hwrap. simpl.
  assert (profiles_linked e h2) as Hl2 by by eapply profiles_linked_plinks.
  destruct (link_controls_spec h2) as (h3 & -> & Hsim & Hlen & Hcl);
    [done|by eapply profiles_linked_refs_ok|done|].
  simpl. intros [= _ <-] Hk.
  apply (owns_sim h2 h3); [done|].
  destruct Hsim as [Hp _]. unfold prof in Hk. rewrite Hp in Hk.
  apply (wrap_controls_owns _ _ _ _ _ [] Hwrap); try done.
  - apply NoDup_seq.
  - by intros x _ ?%elem_of_nil.
  - by rewrite Hc1.
  - intros x c. unfold ctl. by rewrite Hc1.
  - by intros ? ? ?%elem_of_nil.
  - simpl. apply elem_of_seq. apply lookup_lt_Some in Hk.
    destruct Hl2 as [Hlen2 _]. lia.
Qed.

(** X6: a profile wrapper contains the wrappers of its own controls, in the
    order of the profile, and a control wrapper is contained in the profile
    it is sourced from and in no other. *)
Theorem contains_its_own_controls e ev h k cp :
  contextualizeEvaluation e = Some (ev, h) →
  prof h k = Some cp →
  (λ r, c_data <$> ctl h r) <$> p_contains cp
  = Some <$> controls (p_data cp)
  ∧ ∀ r c, ctl h r = Some c → (r ∈ p_contains cp ↔ c_sourced_from c = k).
Proof. apply contextualizeEvaluation_owns. Qed.

Lemma contains_its_own_controls_witness :
  ∃ ev h cp,
    contextualizeEvaluation two_bases = Some (ev, h)
    ∧ prof h 1 = Some cp
    ∧ (λ r, c_data <$> ctl h r) <$> p_contains cp
      = Some <$> controls (p_data cp).
Proof.
  destruct (contextualizeEvaluation two_bases) as [[ev h]|] eqn:Hev;
    [|by vm_compute in Hev].
  assert (is_Some (prof h 1)) as [cp Hcp].
  { vm_compute in Hev. injection Hev as <- <-. by eexists. }
  exists ev, h, cp. split_and!; try done.
  by destruct (contains_its_own_controls two_bases ev h 1 cp Hev Hcp).
Defined.

(** ** The XCCDF mapper: verdicts and messages *)

Lemma existsb_Permutation {A : Type} (f : A → bool) l l' :
  l ≡ₚ l' → existsb f l = existsb f l'.
Proof.
  induction 1 as [|x l l' _ IH|x y l|l l' l'' _ IH1 _ IH2]; simpl.
  - done.
  - by rewrite IH.
  - by destruct (f x), (f y).
  - by rewrite IH1.
Qed.

Lemma forallb_Permutation {A : Type} (f : A → bool) l l' :
  l ≡ₚ l' → forallb f l = forallb f l'.
Proof.
  induction 1 as [|x l l' _ IH|x y l|l l' l'' _ IH1 _ IH2]; simpl.
  - done.
  - by rewrite IH.
  - by destruct (f x), (f y).
  - by rewrite IH1.
Qed.

(** X15: the verdict of a control does not depend on the order of its
    results. *)
Theorem verdict_ignores_order (control control' : ExecControl) :
  xc_results control ≡ₚ xc_results control' →
  getXCCDFResult control = getXCCDFResult control'.
Proof.
  intros Hperm. unfold getXCCDFResult.
  by rewrite !(existsb_Permutation _ _ _ Hperm),
    !(forallb_Permutation _ _ _ Hperm).
Qed.

Lemma existsb_elem {A : Type} (f : A → bool) l :
  existsb f l = true ↔ ∃ x, x ∈ l ∧ f x = true.
Proof.
  rewrite existsb_exists. by setoid_rewrite list_elem_of_In.
Qed.

Lemma existsb_none {A : Type} (f : A → bool) l :
  existsb f l = false ↔ ∀ x, x ∈ l → f x = false.
Proof.
  rewrite <- not_true_iff_false, existsb_elem. split.
  - intros Hno x Hx. destruct (f x) eqn:Hf; [|done]. destruct Hno; eauto.
  - intros Hall (x & Hx & Hf). by rewrite (Hall x Hx) in Hf.
Qed.

Lemma forallb_elem {A : Type} (f : A → bool) l :
  forallb f l = true ↔ ∀ x, x ∈ l → f x = true.
Proof.
  rewrite forallb_forall. by setoid_rewrite list_elem_of_In.
Qed.

Lemma status_is_true s r :
  status_is s r = true ↔ xr_status r = Str (js s).
Proof. apply bool_decide_eq_true. Qed.

Lemma verdict_ignores_order_witness :
  xc_results (exec_control "V-1" [segment "passed"; segment "failed"])
  ≡ₚ xc_results (exec_control "V-1" [segment "failed"; segment "passed"])
  ∧ getXCCDFResult (exec_control "V-1" [segment "passed"; segment "failed"])
    = getXCCDFResult (exec_control "V-1" [segment "failed"; segment "passed"]).
Proof.
  assert (xc_results (exec_control "V-1" [segment "passed"; segment "failed"])
          ≡ₚ xc_results
               (exec_control "V-1" [segment "failed"; segment "passed"]))
    as Hperm by apply perm_swap.
  split; [exact Hperm|]. by apply verdict_ignores_order.
Defined.

(** X16: the verdicts, read off the results.  A result with a backtrace
    makes the control an error whatever else it holds; without backtraces
    the control passes exactly when every result passed, which includes
    the control without results; it is not checked exactly when it has
    results and all were skipped; and it fails exactly when every result
    has a status and one of them failed. *)
Theorem verdict_table (control : ExecControl) :
  let rs := xc_results control in
  (getXCCDFResult control = js "error" ↔
     ∃ r, r ∈ rs ∧ is_Some (xr_backtrace r))
  ∧ (getXCCDFResult control = js "pass" ↔
       (∀ r, r ∈ rs → xr_backtrace r = None)
       ∧ ∀ r, r ∈ rs → xr_status r = Str (js "passed"))
  ∧ (getXCCDFResult control = js "notchecked" ↔
       (∀ r, r ∈ rs → xr_backtrace r = None)
       ∧ rs ≠ []
       ∧ ∀ r, r ∈ rs → xr_status r = Str (js "skipped"))
  ∧ (getXCCDFResult control = js "fail" ↔
       (∀ r, r ∈ rs → xr_backtrace r = None)
       ∧ (∀ r, r ∈ rs → falsy (xr_status r) = false)
       ∧ ∃ r, r ∈ rs ∧ xr_status r = Str (js "failed")).
Proof.
  intros rs. unfold getXCCDFResult. fold rs.
  assert (∀ r, has_backtrace r = true ↔ is_Some (xr_backtrace r)) as Hbt.
  { intros r. unfold has_backtrace.
    destruct (xr_backtrace r); split; try done; try (by eexists); by intros [? ?]. }
  assert (∀ r, has_backtrace r = false ↔ xr_backtrace r = None) as Hnbt.
  { intros r. unfold has_backtrace. by destruct (xr_backtrace r). }
  destruct (existsb has_backtrace rs) eqn:H1.
  { apply existsb_elem in H1 as (r & Hr & Hb).
    assert (¬ ∀ r, r ∈ rs → xr_backtrace r = None) as Hno.
    { intros Hall. apply Hbt in Hb as [x Hx]. by rewrite (Hall r Hr) in Hx. }
    split_and!; split; try done; try (by intros [? _]).
    intros _. exists r. split; [done|]. by apply Hbt. }
  assert (∀ r, r ∈ rs → xr_backtrace r = None) as Hnone.
  { intros r Hr. apply Hnbt. by eapply existsb_none. }
  assert (¬ ∃ r, r ∈ rs ∧ is_Some (xr_backtrace r)) as Hnobt.
  { intros (r & Hr & [x Hx]). by rewrite (Hnone r Hr) in Hx. }
  destruct (existsb (λ result, falsy (xr_status result)) rs) eqn:H2.
  { apply existsb_elem in H2 as (r & Hr & Hf).
    split_and!; split; try done.
    - intros [_ Hall]. by rewrite (Hall r Hr) in Hf.
    - intros (_ & _ & Hall). by rewrite (Hall r Hr) in Hf.
    - intros (_ & Hall & _). by rewrite (Hall r Hr) in Hf. }
  pose proof (proj1 (existsb_none _ _) H2) as Hstatus.
  destruct (forallb (status_is "passed") rs) eqn:H3.
  { pose proof (proj1 (forallb_elem _ _) H3) as Hpassed.
    split_and!; split; try done.
    - intros _. split; [done|]. intros r Hr. by apply status_is_true, Hpassed.
    - intros (_ & Hne & Hall). destruct rs as [|r rs']; [done|].
      assert (xr_status r = Str (js "passed")) as Hp
        by (apply status_is_true, Hpassed; by left).
      by rewrite (Hall r) in Hp by by left.
    - intros (_ & _ & r & Hr & Hfailed).
      assert (xr_status r = Str (js "passed")) as Hp
        by by apply status_is_true, Hpassed.
      by rewrite Hfailed in Hp. }
  assert (¬ ∀ r, r ∈ rs → xr_status r = Str (js "passed")) as Hnotpassed.
  { intros Hall. apply not_true_iff_false in H3. apply H3, forallb_elem.
    intros r Hr. by apply status_is_true, Hall. }
  destruct (forallb (status_is "skipped") rs) eqn:H4.
  { pose proof (proj1 (forallb_elem _ _) H4) as Hskipped.
    split_and!; split; try done.
    - by intros [_ ?].
    - intros _. split_and!; [done| |].
      + intros ->. by apply Hnotpassed; intros ? ?%elem_of_nil.
      + intros r Hr. by apply status_is_true, Hskipped.
    - intros (_ & _ & r & Hr & Hfailed).
      assert (xr_status r = Str (js "skipped")) as Hp
        by by apply status_is_true, Hskipped.
      by rewrite Hfailed in Hp. }
  assert (¬ ∀ r, r ∈ rs → xr_status r = Str (js "skipped")) as Hnotskipped.
  { intros Hall. apply not_true_iff_false in H4. apply H4, forallb_elem.
    intros r Hr. by apply status_is_true, Hall. }
  destruct (existsb (status_is "failed") rs) eqn:H5.
  - apply existsb_elem in H5 as (r & Hr & Hf%status_is_true).
    split_and!; split; try done; try (by intros [_ ?]);
      try (by intros (_ & _ & ?)).
    intros _. split_and!; eauto.
  - split_and!; split; try done; try (by intros [_ ?]);
      try (by intros (_ & _ & ?)).
    intros (_ & _ & r & Hr & Hfailed).
    pose proof (proj1 (existsb_none _ _) H5 r Hr) as Hnf.
    apply not_true_iff_false in Hnf. exfalso. by apply Hnf, status_is_true.
Qed.

Lemma verdict_table_witness :
  getXCCDFResult (exec_control "V-1" []) = js "pass"
  ∧ getXCCDFResult (exec_control "V-1" [segment "passed"; crashed])
    = js "error".
Proof.
  destruct (verdict_table (exec_control "V-1" [])) as (_ & Hpass & _).
  destruct (verdict_table (exec_control "V-1" [segment "passed"; crashed]))
    as (Herror & _).
  split.
  - apply Hpass. split; by intros ? ?%elem_of_nil.
  - apply Herror. exists crashed. split; [|by eexists].
    simpl. right. by left.
Defined.

(** X17: in the result entry of a control the message type is [medium]
    exactly when the verdict is [error], and [info] otherwise. *)
Theorem message_type_follows_verdict (control : ExecControl) :
  (messageType (getControlResultsInfo control) = js "medium" ↔
     result (getControlResultsInfo control) = js "error")
  ∧ (messageType (getControlResultsInfo control) = js "info" ↔
       result (getControlResultsInfo control) ≠ js "error").
Proof.
  simpl. unfold getXCCDFResultMessageSeverity, getXCCDFResult.
  destruct (existsb has_backtrace (xc_results control)); [by split|].
  destruct (existsb _ _); [by split|].
  destruct (forallb _ _); [by split|].
  destruct (forallb _ _); [by split|].
  destruct (existsb _ _); by split.
Qed.

Lemma message_type_follows_verdict_witness :
  messageType (getControlResultsInfo (exec_control "V-1" [crashed]))
  = js "medium".
Proof.
  by apply (message_type_follows_verdict (exec_control "V-1" [crashed])).
Defined.

Lemma toMessageLine_not_empty segment : toMessageLine segment ≠ [].
Proof.
  unfold toMessageLine. by repeat destruct (status_is _ _).
Qed.

Lemma join_empty separator strings :
  Forall (λ s, s ≠ []) strings →
  join separator strings = [] → strings = [].
Proof.
  destruct strings as [|s [|s' rest]]; [done|..];
    intros [Hs _]%Forall_cons; simpl.
  - done.
  - by intros [? _]%app_eq_nil.
Qed.

(** X18: the message of a control is empty exactly when the control has no
    results; every result contributes a line of its own. *)
Theorem messages_empty_iff_no_results (segments : list ExecControlResult) :
  getMessages segments = [] ↔ segments = [].
Proof.
  split; [|by intros ->]. unfold getMessages. intros Hempty.
  apply join_empty in Hempty.
  - by apply fmap_nil_inv in Hempty.
  - apply Forall_fmap, Forall_forall. intros s _. apply toMessageLine_not_empty.
Qed.

Lemma messages_empty_iff_no_results_witness :
  getMessages [segment "skipped"] ≠ [].
Proof.
  intros Hempty. by apply messages_empty_iff_no_results in Hempty.
Defined.

(** ** The XCCDF mapper: identifiers *)

Lemma word_is_no_space c : is_word c = true → is_white_space c = false.
Proof.
  intros Hw. apply bool_decide_eq_false. intros Hin. unfold white_space in Hin.
  repeat (apply elem_of_cons in Hin as [->|Hin]; [done|]).
  by apply elem_of_nil in Hin.
Qed.

Lemma replace_non_word_words s :
  Forall (λ c, is_word c = true) (replace_non_word s).
Proof.
  apply Forall_fmap, Forall_forall. intros c _. simpl.
  by destruct (is_word c) eqn:Hc.
Qed.

Lemma replace_space_id s :
  Forall (λ c, is_white_space c = false) s → replace_space s = s.
Proof.
  induction 1 as [|c s Hc _ IH]; simpl; [done|]. rewrite Hc. by f_equal.
Qed.

Lemma replace_non_word_id s :
  Forall (λ c, is_word c = true) s → replace_non_word s = s.
Proof.
  induction 1 as [|c s Hc _ IH]; simpl; [done|]. rewrite Hc. by f_equal.
Qed.

Lemma replace_space_after_words s :
  replace_space (replace_non_word s) = replace_non_word s.
Proof.
  apply replace_space_id.
  eapply Forall_impl; [apply replace_non_word_words|].
  intros c. apply word_is_no_space.
Qed.

(** X19: the identifier of a rule is the prefix followed by the id of the
    control with every character that is no letter, digit or underscore
    replaced by an underscore: it has the length of the id and holds word
    characters only, the replacement of whitespace that follows never
    changes anything, and an id of word characters is kept as it is. *)
Theorem rule_id_is_sanitised (control : ExecControl) :
  rule_id control = rule_prefix ++ replace_non_word (xc_id control)
  ∧ length (replace_non_word (xc_id control)) = length (xc_id control)
  ∧ Forall (λ c, is_word c = true) (replace_non_word (xc_id control))
  ∧ (Forall (λ c, is_word c = true) (xc_id control) →
     rule_id control = rule_prefix ++ xc_id control).
Proof.
  assert (rule_id control = rule_prefix ++ replace_non_word (xc_id control))
    as Hid.
  { unfold rule_id. by rewrite replace_space_after_words. }
  split_and!; [done| |apply replace_non_word_words|].
  - unfold replace_non_word. by rewrite length_fmap.
  - intros Hw. by rewrite Hid, replace_non_word_id.
Qed.

Lemma rule_id_is_sanitised_witness :
  rule_id (exec_control "SV-230221r1_rule" [])
  = rule_prefix ++ js "SV_230221r1_rule"
  ∧ rule_id (exec_control "V_1" []) = rule_prefix ++ js "V_1".
Proof.
  split; [reflexivity|].
  apply (rule_id_is_sanitised (exec_control "V_1" [])).
  repeat (constructor; [reflexivity|]). constructor.
Defined.

(** X20: the identifiers of rules collide: a control whose id holds a
    character that is no word character has the rule identifier of another
    id, the one with underscores in place of those characters. *)
Theorem rule_ids_collide (control : ExecControl) :
  ¬ Forall (λ c, is_word c = true) (xc_id control) →
  ∃ other,
    xc_id other ≠ xc_id control ∧ rule_id other = rule_id control.
Proof.
  intros Hnot.
  exists {| xc_id := replace_non_word (xc_id control);
            xc_code := xc_code control;
            xc_results := xc_results control |}.
  cbn [xc_id]. split.
  - intros Heq. apply Hnot. rewrite <- Heq. apply replace_non_word_words.
  - unfold rule_id. cbn [xc_id]. rewrite !replace_space_after_words.
    f_equal. apply replace_non_word_id, replace_non_word_words.
Qed.

Lemma rule_ids_collide_witness :
  ∃ other,
    xc_id other ≠ js "V 1" ∧ rule_id other = rule_id (exec_control "V 1" []).
Proof.
  apply (rule_ids_collide (exec_control "V 1" [])).
  intros Hw. apply Forall_cons in Hw as [_ Hw].
  by apply Forall_cons in Hw as [Hspace _].
Defined.

(** X21: the earlier mapper replaces whitespace only: its identifier has
    the length of the id and no whitespace, an id without whitespace is
    kept as it is, other characters that are no word characters included,
    and the later mapper gives the earlier identifier with those replaced
    as well. *)
Theorem whitespace_only_rule_id (control : ExecControl) :
  length (replace_space (xc_id control)) = length (xc_id control)
  ∧ Forall (λ c, is_white_space c = false) (replace_space (xc_id control))
  ∧ (Forall (λ c, is_white_space c = false) (xc_id control) →
     rule_id_whitespace_only control = rule_prefix ++ xc_id control)
  ∧ rule_id control
    = rule_prefix ++ replace_non_word (replace_space (xc_id control)).
Proof.
  split_and!.
  - unfold replace_space. by rewrite length_fmap.
  - apply Forall_fmap, Forall_forall. intros c _. simpl.
    by destruct (is_white_space c) eqn:Hc.
  - intros Hns. unfold rule_id_whitespace_only. by rewrite replace_space_id.
  - unfold rule_id. rewrite replace_space_after_words. f_equal.
    unfold replace_non_word, replace_space. rewrite <- list_fmap_compose.
    apply list_fmap_ext. intros _ c _. simpl.
    destruct (is_white_space c) eqn:Hc; [|done].
    destruct (is_word c) eqn:Hw; [|done].
    by rewrite (word_is_no_space c Hw) in Hc.
Qed.

Lemma whitespace_only_rule_id_witness :
  rule_id_whitespace_only (exec_control "SV-230221" [])
  = rule_prefix ++ js "SV-230221".
Proof.
  apply (whitespace_only_rule_id (exec_control "SV-230221" [])).
  repeat (constructor; [reflexivity|]). constructor.
Defined.

(** ** The Prisma mapper: messages *)

(** X22: the message of a Prisma result is never empty; it is [Unknown]
    exactly when the columns [Fix Status] and [Cause] are both the empty
    string, and a record that lacks both columns gets the message made of
    the word [undefined] twice. *)
Theorem message_of_a_record (obj : PrismaControl) :
  message_of obj ≠ []
  ∧ (message_of obj = js "Unknown" ↔
       pc_Fix_Status obj = Some [] ∧ pc_Cause obj = Some [])
  ∧ (pc_Fix_Status obj = None → pc_Cause obj = None →
     message_of obj
     = js "Fix Status: undefined" ++ [10; 10]%N ++ js "undefined").
Proof.
  unfold message_of.
  destruct (pc_Fix_Status obj) as [[|c fs]|], (pc_Cause obj) as [[|c' cs]|];
    simpl; split_and!; try done; by split; [|intros [? ?]].
Qed.

Lemma message_of_a_record_witness :
  message_of (host "web" "outdated package")
  = js "Fix Status: fixed in 1.1" ++ [10; 10]%N ++ js "undefined"
  ∧ message_of (host "web" "outdated package") ≠ js "Unknown".
Proof.
  split; [reflexivity|].
  intros Hunknown.
  by apply (message_of_a_record (host "web" "outdated package")) in Hunknown
    as [? _].
Defined.

(** ** The Prisma mapper: grouping by host *)

Lemma push_to_keys k record (tbl : HostTable) :
  (push_to k record tbl).*1 = tbl.*1.
Proof.
  unfold push_to. rewrite <- list_fmap_compose. apply list_fmap_ext.
  intros _ e _. simpl. by case_bool_decide.
Qed.

Lemma record_host_keys tbl record tbl' :
  record_host tbl record = Some tbl' →
  tbl'.*1
  = tbl.*1 ++ filter (λ k, k ∉ tbl.*1) [pc_Hostname record].
Proof.
  unfold record_host. case_bool_decide as Hown.
  - intros [= <-]. rewrite push_to_keys.
    rewrite filter_cons_False by (by intros ?). by rewrite app_nil_r.
  - case_bool_decide; [done|]. intros [= <-].
    rewrite fmap_app. by rewrite filter_cons_True by done.
Qed.

Lemma hostnameToControls_raises data (tbl : HostTable) :
  (∀ k, k ∈ tbl.*1 → k ∉ object_prototype_keys) →
  forEach record_host data tbl = None
  ↔ ∃ record, record ∈ data ∧ pc_Hostname record ∈ object_prototype_keys.
Proof.
  revert tbl. induction data as [|r data IH]; intros tbl Hkeys; simpl.
  - split; [done|]. by intros (? & ?%elem_of_nil & _).
  - destruct (record_host tbl r) as [tbl'|] eqn:Hstep; simpl.
    + rewrite IH.
      * split; intros (x & Hx & Hin); [exists x; split; [by right|done]|].
        apply elem_of_cons in Hx as [->|Hx]; [|by eauto].
        unfold record_host in Hstep. case_bool_decide as Hown.
        -- by destruct (Hkeys _ Hown).
        -- by rewrite bool_decide_eq_true_2 in Hstep.
      * intros k. rewrite (record_host_keys _ _ _ Hstep).
        intros [Hk|Hk]%elem_of_app; [by apply Hkeys|].
        apply list_elem_of_filter in Hk as [_ ->%list_elem_of_singleton].
        unfold record_host in Hstep. case_bool_decide; [eauto|].
        by case_bool_decide.
    + split; [|done]. intros _. exists r. split; [by left|].
      unfold record_host in Hstep. case_bool_decide; [done|].
      by case_bool_decide.
Qed.

(** X23: the grouping loop of [PrismaMapper.toHdf] raises exactly when a
    record bears as hostname the name of a property that every object
    inherits, such as [constructor] or [toString]. *)
Theorem grouping_raises_iff (data : list PrismaControl) :
  hostnameToControls data = None
  ↔ ∃ record, record ∈ data ∧ pc_Hostname record ∈ object_prototype_keys.
Proof. apply hostnameToControls_raises. by intros k ?%elem_of_nil. Qed.

Lemma grouping_raises_iff_witness :
  hostnameToControls [host "web" "a"; host "toString" "b"] = None.
Proof.
  apply grouping_raises_iff. exists (host "toString" "b").
  split; [by right; left|]. unfold object_prototype_keys.
  do 5 right. by left.
Defined.

Lemma forEach_record_host_keys data : ∀ (tbl tbl' : HostTable),
  forEach record_host data tbl = Some tbl' →
  tbl'.*1
  = tbl.*1
    ++ filter (λ k, k ∉ tbl.*1) (first_occurrences (pc_Hostname <$> data)).
Proof.
  induction data as [|r data IH]; intros tbl tbl'; simpl.
  - intros [= <-]. by rewrite app_nil_r.
  - destruct (record_host tbl r) as [tbl1|] eqn:Hstep; [|done]. simpl.
    intros Hrest. rewrite (IH _ _ Hrest), (record_host_keys _ _ _ Hstep).
    rewrite <- (assoc_L (++)). f_equal.
    destruct (decide (pc_Hostname r ∈ tbl.*1)) as [Hown|Hnew].
    + rewrite !filter_cons_False by (by intros ?). rewrite app_nil_r. simpl.
      rewrite list_filter_filter. apply list_filter_iff.
      intros k. split; [|by intros [? ?]].
      intros Hk. split; [done|]. by intros ->.
    + rewrite !filter_cons_True by done. simpl. f_equal.
      rewrite list_filter_filter. apply list_filter_iff.
      intros k. rewrite not_elem_of_app, list_elem_of_singleton. tauto.
Qed.

(** The table after the records [seen]: one entry for each hostname met,
    holding the records of that host in the order of the report. *)
Lemma record_host_groups seen tbl r tbl' :
  NoDup tbl.*1 →
  (∀ k cs, (k, cs) ∈ tbl ↔
     cs = filter (λ x, pc_Hostname x = k) seen ∧ cs ≠ []) →
  record_host tbl r = Some tbl' →
  ∀ k cs, (k, cs) ∈ tbl' ↔
    cs = filter (λ x, pc_Hostname x = k) (seen ++ [r]) ∧ cs ≠ [].
Proof.
  intros Hnodup Hinv Hstep k cs. unfold record_host in Hstep.
  rewrite filter_app.
  case_bool_decide as Hown.
  - injection Hstep as <-. unfold push_to. rewrite list_elem_of_fmap.
    split.
    + intros ([k0 cs0] & Heq & Hin). apply Hinv in Hin as [-> Hne].
      simpl in Heq. case_bool_decide as Hk; simplify_eq.
      * rewrite filter_cons_True by done. split; [done|].
        by intros [_ ?]%app_eq_nil.
      * rewrite filter_cons_False by done. by rewrite app_nil_r.
    + intros [-> Hne]. destruct (decide (k = pc_Hostname r)) as [->|Hk].
      * apply list_elem_of_fmap in Hown as ([k0 cs0] & Hk0 & Hin).
        simpl in Hk0. subst k0. exists (pc_Hostname r, cs0).
        simpl. rewrite bool_decide_eq_true_2 by done.
        pose proof Hin as Hin'. apply Hinv in Hin' as [-> _].
        by rewrite filter_cons_True.
      * rewrite filter_cons_False in * by done.
        rewrite app_nil_r in *.
        exists (k, filter (λ x, pc_Hostname x = k) seen). simpl.
        rewrite bool_decide_eq_false_2 by done. split; [done|].
        by apply Hinv.
  - case_bool_decide; [done|]. injection Hstep as <-.
    rewrite elem_of_app, list_elem_of_singleton, Hinv.
    assert (filter (λ x, pc_Hostname x = pc_Hostname r) seen = []) as Hnone.
    { destruct (filter _ seen) as [|c cs'] eqn:Hf; [done|].
      destruct Hown. apply list_elem_of_fmap.
      exists (pc_Hostname r, c :: cs'). split; [done|].
      apply Hinv. by rewrite Hf. }
    destruct (decide (k = pc_Hostname r)) as [->|Hk].
    + rewrite Hnone, filter_cons_True by done. simpl.
      split; [intros [[_ []]|[= ->]]; done|]. intros [-> _]. by right.
    + rewrite filter_cons_False by done. rewrite app_nil_r.
      split; [intros [?|[= ? ?]]; done|]. by left.
Qed.

Lemma forEach_record_host_groups data : ∀ seen (tbl tbl' : HostTable),
  NoDup tbl.*1 →
  (∀ k cs, (k, cs) ∈ tbl ↔
     cs = filter (λ x, pc_Hostname x = k) seen ∧ cs ≠ []) →
  forEach record_host data tbl = Some tbl' →
  ∀ k cs, (k, cs) ∈ tbl' ↔
    cs = filter (λ x, pc_Hostname x = k) (seen ++ data) ∧ cs ≠ [].
Proof.
  induction data as [|r data IH]; intros seen tbl tbl' Hnodup Hinv; simpl.
  - intros [= <-]. by rewrite app_nil_r.
  - destruct (record_host tbl r) as [tbl1|] eqn:Hstep; [|done]. simpl.
    intros Hrest. rewrite (cons_middle r), (assoc_L (++)).
    apply (IH _ tbl1); [|by eapply record_host_groups|done].
    rewrite (record_host_keys _ _ _ Hstep).
    apply NoDup_app. split_and!; [done| |].
    + by intros k Hk [Hnew _]%list_elem_of_filter.
    + apply NoDup_filter, NoDup_singleton.
Qed.

Lemma first_occurrences_NoDup l : NoDup (first_occurrences l).
Proof.
  induction l as [|x l IH]; simpl; [constructor|].
  constructor; [|by apply NoDup_filter].
  by intros [? _]%list_elem_of_filter.
Qed.

Lemma first_occurrences_elem_of l x : x ∈ first_occurrences l ↔ x ∈ l.
Proof.
  induction l as [|y l IH]; simpl; [done|].
  rewrite !elem_of_cons, list_elem_of_filter, IH.
  destruct (decide (x = y)) as [->|Hxy]; [by split; left|].
  split; [intros [?|[_ ?]]|intros [?|?]]; try done; by right.
Qed.

Lemma filter_none_excluded (l : list jsstring) :
  filter (λ k, k ∉ ([] : list jsstring)) l = l.
Proof.
  induction l as [|x l IH]; [done|].
  rewrite filter_cons_True by (by intros ?%elem_of_nil). by rewrite IH.
Qed.

Lemma groups_of_one_more r (data : list PrismaControl) keys :
  NoDup keys →
  mjoin ((λ k, filter (λ x, pc_Hostname x = k) (r :: data)) <$> keys)
  ≡ₚ (if decide (pc_Hostname r ∈ keys) then [r] else [])
      ++ mjoin ((λ k, filter (λ x, pc_Hostname x = k) data) <$> keys).
Proof.
  induction 1 as [|k keys Hk Hnodup IH]; [done|]. simpl. rewrite IH.
  destruct (decide (pc_Hostname r = k)) as [<-|Hne].
  - rewrite filter_cons_True by done.
    destruct (decide (pc_Hostname r ∈ keys)) as [|_]; [done|].
    destruct (decide (pc_Hostname r ∈ pc_Hostname r :: keys)) as [_|Hout];
      [done|].
    destruct Hout. by left.
  - rewrite filter_cons_False by done.
    destruct (decide (pc_Hostname r ∈ keys)) as [Hin|Hout],
      (decide (pc_Hostname r ∈ k :: keys)) as [Hin'|Hout']; simpl.
    + by rewrite Permutation_middle.
    + destruct Hout'. by right.
    + by apply elem_of_cons in Hin' as [?|?].
    + done.
Qed.

Lemma groups_partition (data : list PrismaControl) : ∀ keys,
  NoDup keys →
  (∀ r, r ∈ data → pc_Hostname r ∈ keys) →
  mjoin ((λ k, filter (λ x, pc_Hostname x = k) data) <$> keys) ≡ₚ data.
Proof.
  induction data as [|r data IH]; intros keys Hnodup Hall.
  - clear. by induction keys.
  - rewrite groups_of_one_more by done.
    rewrite decide_True by (apply Hall; by left). simpl.
    rewrite IH; [done..|]. intros x Hx. apply Hall. by right.
Qed.

(** The table the first loop of [PrismaMapper.toHdf] builds, when it
    returns. *)
Lemma hostnameToControls_Some data tbl :
  hostnameToControls data = Some tbl →
  tbl = (λ k, (k, filter (λ r, pc_Hostname r = k) data))
        <$> first_occurrences (pc_Hostname <$> data).
Proof.
  intros Hrun.
  pose proof (forEach_record_host_keys _ _ _ Hrun) as Hkeys.
  simpl in Hkeys.
  rewrite filter_none_excluded in Hkeys. rewrite <- Hkeys.
  rewrite <- list_fmap_compose.
  rewrite <- (list_fmap_id tbl) at 1. apply list_fmap_ext.
  intros i [k cs] Hlook. simpl. f_equal.
  apply (forEach_record_host_groups data [] [] tbl); [constructor| |done|].
  - intros k' cs'. split; [by intros ?%elem_of_nil|]. by intros [-> ?].
  - by eapply list_elem_of_lookup_2.
Qed.

(** X24: when the grouping loop returns, its table has one entry for each
    distinct hostname, in the order in which the hostnames first occur in
    the report; each entry holds exactly the records of that hostname, in
    the order of the report, so no group is empty, and together the groups
    hold every record of the report once. *)
Theorem groups_by_hostname (data : list PrismaControl) (tbl : HostTable) :
  hostnameToControls data = Some tbl →
  tbl.*1 = first_occurrences (pc_Hostname <$> data)
  ∧ NoDup tbl.*1
  ∧ (∀ k cs, (k, cs) ∈ tbl →
       cs = filter (λ r, pc_Hostname r = k) data ∧ cs ≠ [])
  ∧ mjoin tbl.*2 ≡ₚ data.
Proof.
  intros Hrun.
  pose proof (forEach_record_host_groups data [] [] tbl (NoDup_nil_2)) as Hg.
  simpl in Hg.
  assert (∀ k cs, (k, cs) ∈ tbl ↔
            cs = filter (λ x, pc_Hostname x = k) data ∧ cs ≠ []) as Hgroups.
  { apply Hg; [|done]. intros k' cs'.
    split; [by intros ?%elem_of_nil|]. by intros [-> ?]. }
  clear Hg.
  pose proof (hostnameToControls_Some _ _ Hrun) as Htbl.
  assert (tbl.*1 = first_occurrences (pc_Hostname <$> data)) as Hkeys.
  { rewrite Htbl at 1. rewrite <- list_fmap_compose. apply list_fmap_id. }
  split_and!.
  - done.
  - rewrite Hkeys. apply first_occurrences_NoDup.
  - intros k cs. apply Hgroups.
  - rewrite Htbl, <- list_fmap_compose.
    apply groups_partition; [apply first_occurrences_NoDup|].
    intros r Hr. apply first_occurrences_elem_of, list_elem_of_fmap.
    by exists r.
Qed.

Lemma groups_by_hostname_witness :
  ∃ tbl,
    hostnameToControls
      [host "web" "a"; host "10" "b"; host "web" "c"; host "9" "d"]
    = Some tbl
    ∧ tbl.*1 = [js "web"; js "10"; js "9"]
    ∧ length <$> tbl.*2 = [2; 1; 1].
Proof.
  eexists. split; [reflexivity|].
  pose proof (groups_by_hostname
    [host "web" "a"; host "10" "b"; host "web" "c"; host "9" "d"]
    _ eq_refl) as (Hkeys & _).
  split; [exact Hkeys|reflexivity].
Defined.

(** ** The Prisma mapper: one execution for each host *)

Lemma insert_by_index_perm {X} (e : N * X) l :
  insert_by_index e l ≡ₚ e :: l.
Proof.
  induction l as [|e' l IH]; simpl; [done|].
  destruct (e.1 <=? e'.1)%N; [done|]. by rewrite IH, Permutation_swap.
Qed.

Lemma sort_by_index_perm {X} (l : list (N * X)) : sort_by_index l ≡ₚ l.
Proof.
  induction l as [|e l IH]; simpl; [done|].
  by rewrite insert_by_index_perm, IH.
Qed.

Lemma insert_by_index_sorted {X} (e : N * X) l :
  StronglySorted (λ a b, (a.1 ≤ b.1)%N) l →
  StronglySorted (λ a b, (a.1 ≤ b.1)%N) (insert_by_index e l).
Proof.
  induction 1 as [|e' l Hsorted IH Hall]; simpl.
  - by repeat constructor.
  - destruct (N.leb_spec (e.1) (e'.1)) as [Hle|Hlt].
    + constructor; [by constructor|]. constructor; [done|].
      eapply Forall_impl; [done|]. simpl. lia.
    + constructor; [done|]. rewrite insert_by_index_perm.
      constructor; [lia|done].
Qed.

Lemma sort_by_index_sorted {X} (l : list (N * X)) :
  StronglySorted (λ a b, (a.1 ≤ b.1)%N) (sort_by_index l).
Proof.
  induction l as [|e l IH]; simpl; [constructor|].
  by apply insert_by_index_sorted.
Qed.

Lemma numbered_entries (tbl : HostTable) :
  snd <$> omap (λ e, v ← array_index e.1; Some (v, e)) tbl
  = filter (λ e, is_Some (array_index e.1)) tbl.
Proof.
  induction tbl as [|e tbl IH]; [done|]. csimpl.
  destruct (array_index e.1) as [v|] eqn:Hv; csimpl.
  - rewrite filter_cons_True by (by rewrite Hv). by rewrite IH.
  - rewrite filter_cons_False by (rewrite Hv; by intros [? ?]). done.
Qed.

Lemma entries_perm (tbl : HostTable) : entries tbl ≡ₚ tbl.
Proof.
  unfold entries. rewrite sort_by_index_perm, numbered_entries.
  induction tbl as [|e tbl IH]; [done|].
  destruct (array_index e.1) as [v|] eqn:Hv.
  - rewrite filter_cons_True by (by rewrite Hv).
    rewrite filter_cons_False by (by rewrite Hv). simpl. by rewrite IH.
  - rewrite filter_cons_False by (rewrite Hv; by intros [? ?]).
    rewrite filter_cons_True by done.
    by rewrite <- Permutation_middle, IH.
Qed.

Lemma entries_numbered_first (tbl : HostTable) :
  ∃ numbered,
    (entries tbl).*1
    = numbered ++ filter (λ k, array_index k = None) tbl.*1
    ∧ StronglySorted numbered_before numbered.
Proof.
  exists (snd <$> sort_by_index
                    (omap (λ e, v ← array_index e.1; Some (v, e)) tbl)).*1.
  split.
  - unfold entries. rewrite fmap_app. f_equal.
    induction tbl as [|e tbl IH]; [done|]. csimpl.
    destruct (array_index e.1) as [v|] eqn:Hv.
    + rewrite !filter_cons_False by (by rewrite Hv). done.
    + rewrite !filter_cons_True by done. csimpl. by rewrite IH.
  - rewrite <- list_fmap_compose.
    assert (Forall (λ p : N * (jsstring * list PrismaControl),
                      array_index p.2.1 = Some p.1)
              (sort_by_index
                 (omap (λ e, v ← array_index e.1; Some (v, e)) tbl)))
      as Hidx.
    { rewrite sort_by_index_perm. apply Forall_forall.
      intros [v e] (e' & _ & He)%list_elem_of_omap.
      destruct (array_index e'.1) eqn:Hv; simplify_eq/=. done. }
    pose proof (sort_by_index_sorted
      (omap (λ e, v ← array_index e.1; Some (v, e)) tbl)) as Hsorted.
    induction Hsorted as [|p l Hsorted IH Hall]; [constructor|].
    apply Forall_cons in Hidx as [Hp Hidx]. simpl.
    constructor; [by apply IH|].
    apply Forall_fmap, Forall_forall. intros q Hq. simpl.
    exists p.1, q.1. split_and!; [done| |].
    + by eapply Forall_forall in Hidx.
    + by eapply Forall_forall in Hall.
Qed.

Lemma entries_without_numbers (tbl : HostTable) :
  Forall (λ k, array_index k = None) tbl.*1 → entries tbl = tbl.
Proof.
  intros Hnone. unfold entries.
  assert (omap (λ e, v ← array_index e.1; Some (v, e)) tbl = []) as ->.
  { induction tbl as [|e tbl IH]; [done|].
    apply Forall_cons in Hnone as [He Hnone]. csimpl.
    rewrite He. csimpl. by apply IH. }
  simpl. induction tbl as [|e tbl IH]; [done|].
  apply Forall_cons in Hnone as [He Hnone].
  rewrite filter_cons_True by done. by rewrite IH.
Qed.

Lemma mapM_over_keys {X Y Z} (F : X → Y → option Z) (G : X → Y)
    (l : list (X * Y)) :
  (∀ e, e ∈ l → e.2 = G e.1) →
  mapM (λ e, F e.1 e.2) l = mapM (λ k, F k (G k)) l.*1.
Proof.
  induction l as [|e l IH]; intros Hall; [done|]. csimpl.
  rewrite (Hall e) by (by left).
  destruct (F e.1 (G e.1)); csimpl; [|done].
  f_equal. apply IH. intros ? ?. apply Hall. by right.
Qed.

Lemma groups_of_table data tbl :
  hostnameToControls data = Some tbl →
  ∀ e, e ∈ tbl → e.2 = filter (λ r, pc_Hostname r = e.1) data.
Proof.
  intros Hrun [k cs] Hin. simpl.
  apply (forEach_record_host_groups data [] [] tbl); [constructor| |done..].
  intros k' cs'. split; [by intros ?%elem_of_nil|]. by intros [-> ?].
Qed.

Lemma keys_of_table data tbl :
  hostnameToControls data = Some tbl →
  tbl.*1 = first_occurrences (pc_Hostname <$> data).
Proof.
  intros Hrun. rewrite (hostnameToControls_Some _ _ Hrun) at 1.
  rewrite <- list_fmap_compose. apply list_fmap_id.
Qed.

Lemma toHdf_over_hosts {Execution : Type}
    (convert : list PrismaControl → option Execution)
    (set_target_id : jsstring → Execution → Execution) data tbl :
  hostnameToControls data = Some tbl →
  toHdf convert set_target_id data
  = mapM (execution_of convert set_target_id data) (entries tbl).*1.
Proof.
  intros Hrun. unfold toHdf. rewrite Hrun. simpl.
  apply (mapM_over_keys
           (λ k cs, converted ← convert cs;
                    Some (set_target_id k converted))
           (λ k, filter (λ r, pc_Hostname r = k) data)).
  intros e He. apply (groups_of_table _ _ Hrun).
  by rewrite <- (entries_perm tbl).
Qed.

(** X25: when [PrismaMapper.toHdf] returns, it returns one execution for
    each distinct hostname of the report: the conversion of the records of
    that host, in the order of the report, with the hostname as target.
    The hosts whose name is an array index come first, by ascending number;
    the other hosts follow in the order in which they first occur. *)
Theorem one_execution_per_host {Execution : Type}
    (convert : list PrismaControl → option Execution)
    (set_target_id : jsstring → Execution → Execution)
    (data : list PrismaControl) (executions : list Execution) :
  toHdf convert set_target_id data = Some executions →
  ∃ hosts numbered,
    mapM (execution_of convert set_target_id data) hosts = Some executions
    ∧ hosts ≡ₚ first_occurrences (pc_Hostname <$> data)
    ∧ hosts = numbered
              ++ filter (λ k, array_index k = None)
                   (first_occurrences (pc_Hostname <$> data))
    ∧ StronglySorted numbered_before numbered
    ∧ length executions
      = length (first_occurrences (pc_Hostname <$> data)).
Proof.
  intros Hrun.
  destruct (hostnameToControls data) as [tbl|] eqn:Htbl;
    [|by unfold toHdf in Hrun; rewrite Htbl in Hrun].
  rewrite (toHdf_over_hosts _ _ _ _ Htbl) in Hrun.
  destruct (entries_numbered_first tbl) as (numbered & Horder & Hsorted).
  rewrite (keys_of_table _ _ Htbl) in Horder.
  assert ((entries tbl).*1 ≡ₚ first_occurrences (pc_Hostname <$> data))
    as Hperm by (by rewrite entries_perm, (keys_of_table _ _ Htbl)).
  exists (entries tbl).*1, numbered. split_and!; try done.
  by rewrite <- (length_mapM _ _ _ Hrun), Hperm.
Qed.

Lemma one_execution_per_host_witness :
  ∃ hosts,
    mapM (execution_of (λ cs, Some ([], length cs)) (λ k e, (k, e.2))
            [host "web" "a"; host "10" "b"; host "web" "c"; host "9" "d"])
      hosts
    = Some [(js "9", 1); (js "10", 1); (js "web", 2)]
    ∧ hosts ≡ₚ [js "web"; js "10"; js "9"].
Proof.
  destruct (one_execution_per_host (λ cs, Some ([], length cs)) (λ k e, (k, e.2))
    [host "web" "a"; host "10" "b"; host "web" "c"; host "9" "d"]
    [(js "9", 1); (js "10", 1); (js "web", 2)] eq_refl)
    as (hosts & _ & Hexecutions & Hperm & _).
  by exists hosts.
Defined.

(** X26: on a report in which no hostname is an array index or a name that
    objects inherit, [PrismaMapper.toHdf] converts the hosts one by one in
    the order in which they first occur in the report, and raises exactly
    when one of these conversions raises. *)
Theorem hosts_in_order_of_appearance {Execution : Type}
    (convert : list PrismaControl → option Execution)
    (set_target_id : jsstring → Execution → Execution)
    (data : list PrismaControl) :
  (∀ r, r ∈ data → array_index (pc_Hostname r) = None) →
  (∀ r, r ∈ data → pc_Hostname r ∉ object_prototype_keys) →
  toHdf convert set_target_id data
  = mapM (execution_of convert set_target_id data)
      (first_occurrences (pc_Hostname <$> data)).
Proof.
  intros Hnames Hown.
  destruct (hostnameToControls data) as [tbl|] eqn:Htbl.
  - rewrite (toHdf_over_hosts _ _ _ _ Htbl).
    rewrite entries_without_numbers; [by rewrite (keys_of_table _ _ Htbl)|].
    rewrite (keys_of_table _ _ Htbl). apply Forall_forall.
    intros k (r & -> & Hr)%first_occurrences_elem_of%list_elem_of_fmap.
    by apply Hnames.
  - apply hostnameToControls_raises in Htbl as (r & Hr & Hin);
      [by destruct (Hown r)|by intros k ?%elem_of_nil].
Qed.

Lemma hosts_in_order_of_appearance_witness :
  toHdf (λ cs, Some ([], length cs)) (λ k e, (k, e.2))
    [host "web" "a"; host "db" "b"; host "web" "c"]
  = Some [(js "web", 2); (js "db", 1)].
Proof.
  rewrite (hosts_in_order_of_appearance (λ cs, Some ([], length cs))
             (λ k e, (k, e.2))
             [host "web" "a"; host "db" "b"; host "web" "c"]).
  - reflexivity.
  - intros r Hr.
    repeat (apply elem_of_cons in Hr as [->|Hr]; [reflexivity|]).
    by apply elem_of_nil in Hr.
  - intros r Hr Hin.
    repeat (apply elem_of_cons in Hr as [->|Hr];
      [repeat (apply elem_of_cons in Hin as [Heq|Hin];
         [vm_compute in Heq; discriminate Heq|]);
       by apply elem_of_nil in Hin|]).
    by apply elem_of_nil in Hr.
Defined.

(** X27: [PrismaMapper.toHdf] raises exactly when a hostname of the report
    is a name that objects inherit, or the conversion of the records of
    some host raises. *)
Theorem toHdf_raises_iff {Execution : Type}
    (convert : list PrismaControl → option Execution)
    (set_target_id : jsstring → Execution → Execution)
    (data : list PrismaControl) :
  toHdf convert set_target_id data = None
  ↔ (∃ r, r ∈ data ∧ pc_Hostname r ∈ object_prototype_keys)
    ∨ (∃ r, r ∈ data
         ∧ convert (filter (λ x, pc_Hostname x = pc_Hostname r) data) = None).
Proof.
  destruct (hostnameToControls data) as [tbl|] eqn:Htbl.
  - rewrite (toHdf_over_hosts _ _ _ _ Htbl), mapM_None, Exists_exists.
    assert (∀ k, k ∈ (entries tbl).*1 ↔ ∃ r, r ∈ data ∧ k = pc_Hostname r)
      as Hhosts.
    { intros k. rewrite entries_perm, (keys_of_table _ _ Htbl).
      rewrite first_occurrences_elem_of, list_elem_of_fmap.
      split; intros (r & ? & ?); by exists r. }
    split.
    + intros (k & (r & Hr & ->)%Hhosts & Hnone). right. exists r.
      split; [done|]. unfold execution_of in Hnone.
      by destruct (convert _).
    + intros [(r & Hr & Hin)|(r & Hr & Hnone)].
      * assert (hostnameToControls data = None) as Hraise.
        { apply hostnameToControls_raises; [|by eauto].
          by intros k ?%elem_of_nil. }
        by rewrite Htbl in Hraise.
      * exists (pc_Hostname r). split; [apply Hhosts; eauto|].
        unfold execution_of. by rewrite Hnone.
  - split; [|by unfold toHdf; rewrite Htbl].
    intros _. left.
    apply hostnameToControls_raises in Htbl; [done|].
    by intros k ?%elem_of_nil.
Qed.

Lemma toHdf_raises_iff_witness :
  toHdf (λ cs, if bool_decide (length cs = 1) then None else Some cs)
    (λ _ cs, cs) [host "web" "a"; host "db" "b"; host "web" "c"]
  = None.
Proof.
  apply toHdf_raises_iff. right. exists (host "db" "b").
  split; [by right; left|reflexivity].
Defined.
